(** * JANUS: the bit-wise reversible integrator of REBOUND

    A shallow embedding of [src/integrator_janus.c] and the properties of
    its specification.

    - C [double] values are IEEE-754 binary64 numbers, modelled by the
      Standard Library's [spec_float] with precision 53 and [emax] 1024.
    - [__int128] values are integers of [Z]; additions wrap around modulo
      2^128 and the conversion from [double] truncates toward zero.
    - Arrays are lists accessed by index; an access out of bounds, a null
      dereference and a conversion whose result does not fit are undefined
      behaviour in C and make the embedded function return [None].
    - What [realloc] returns, a block or the null pointer, is not decided
      by the program: it is a parameter of the functions that call it. *)

From Stdlib Require Import ZArith QArith Qabs Qpower Lia Lqa Bool.
From Stdlib Require Import Floats.SpecFloat.
From stdpp Require Import base option list.

(** ** Binary64 arithmetic *)

Definition double : Type := spec_float.

Definition prec : Z := 53.
Definition emax : Z := 1024.

Definition fmul : double -> double -> double := SFmul prec emax.
Definition fdiv : double -> double -> double := SFdiv prec emax.
Definition fadd : double -> double -> double := SFadd prec emax.
Definition fneg : double -> double := SFopp.

(** A decimal literal [(-1)^neg * num / 10^digits] of the source text, read
    as the binary64 number nearest to it (ties to even). *)
Definition double_of_decimal (neg : bool) (num : positive) (digits : N) : double :=
  let '(q, e, l) :=
    SFdiv_core_binary prec emax (Zpos num) 0 (Z.pow 10 (Z.of_N digits)) 0 in
  binary_round_aux prec emax neg q e l.

(** The exact rational value of a finite double (0 for infinities and NaN). *)
Definition Qpow2 (e : Z) : Q :=
  match e with
  | Z0 => 1%Q
  | Zpos p => inject_Z (Z.pow 2 (Zpos p))
  | Zneg p => (1 # (Pos.pow 2 p))%Q
  end.

Definition SF2Q (f : double) : Q :=
  match f with
  | S754_finite s m e => (inject_Z (cond_Zopp s (Zpos m)) * Qpow2 e)%Q
  | _ => 0%Q
  end.

Definition is_finite (f : double) : bool :=
  match f with
  | S754_zero _ | S754_finite _ _ _ => true
  | _ => false
  end.

(** The sign of a double as a factor. *)
Definition Qsign (s : bool) : Q := if s then - (1) else 1.

(** The unit roundoff [2^-53] of binary64, and half the least subnormal
    number, [2^-1075]. *)
Definition unit_roundoff : Q := Eval vm_compute in (1 # 2 ^ 53).
Definition half_least : Q := Eval vm_compute in Qpow2 (-1075).

(** What the round and sticky bits of a shifted mantissa say: the exact
    mantissa [A / D] is [shr_m], or lies between [shr_m] and [shr_m + 1],
    below, at or above the middle. *)
Definition loc_ok (mrs : shr_record) (A D : Z) : Prop :=
  (match shr_r mrs, shr_s mrs with
   | false, false => A = shr_m mrs * D
   | false, true => shr_m mrs * D < A ∧ 2 * A < (2 * shr_m mrs + 1) * D
   | true, false => 2 * A = (2 * shr_m mrs + 1) * D
   | true, true => (2 * shr_m mrs + 1) * D < 2 * A ∧ A < (shr_m mrs + 1) * D
   end)%Z.

(** ** 128-bit signed integers *)

Definition INT128_MIN : Z := - 2 ^ 127.
Definition INT128_MAX : Z := 2 ^ 127 - 1.

Definition in_int128 (z : Z) : bool :=
  (INT128_MIN <=? z)%Z && (z <=? INT128_MAX)%Z.

(** Two's complement wrap-around of a mathematical integer. *)
Definition wrap128 (z : Z) : Z := ((z + 2 ^ 127) mod 2 ^ 128 - 2 ^ 127)%Z.

(** [a += b] on [__int128]. *)
Definition add128 (a b : Z) : Z := wrap128 (a + b).

(** The integral part of a finite double: the fraction is discarded, so the
    value is truncated toward zero. *)
Definition trunc_double (s : bool) (m : positive) (e : Z) : Z :=
  cond_Zopp s
    (match e with
     | Z0 => Zpos m
     | Zpos p => Zpos m * 2 ^ Zpos p
     | Zneg p => Zpos m / 2 ^ Zpos p
     end)%Z.

(** The cast [(__int128) f].  It is undefined for NaN, for the infinities
    and when the integral part is not representable. *)
Definition int128_of_double (f : double) : option Z :=
  match f with
  | S754_zero _ => Some 0%Z
  | S754_finite s m e =>
      let z := trunc_double s m e in
      if in_int128 z then Some z else None
  | S754_infinity _ | S754_nan => None
  end.

(** The cast [(double) z]: the nearest binary64 number, ties to even. *)
Definition double_of_int128 (z : Z) : double :=
  binary_normalize prec emax z 0 false.

(** ** The composition coefficients *)

Definition gamma1 : double :=
  Eval vm_compute in double_of_decimal false 39216144400731413928 20.
Definition gamma2 : double :=
  Eval vm_compute in double_of_decimal false 33259913678935943860 20.
Definition gamma3 : double :=
  Eval vm_compute in double_of_decimal true 70624617255763935981 20.
Definition gamma4 : double :=
  Eval vm_compute in double_of_decimal false 82213596293550800230 21.
Definition gamma5 : double :=
  Eval vm_compute in double_of_decimal false 79854399093482996340 20.

(** The literal [2.] of the half-drift. *)
Definition two : double := Eval vm_compute in double_of_decimal false 2 0.

(** ** Data model *)

(** [struct reb_particle]: the fields the integrator and the force
    evaluation touch. *)
Module P.
Record reb_particle : Type := mk {
  x : double; y : double; z : double;
  vx : double; vy : double; vz : double;
  ax : double; ay : double; az : double;
  m : double
}.

Definition set_x (v : double) (p : reb_particle) : reb_particle :=
  mk v (y p) (z p) (vx p) (vy p) (vz p) (ax p) (ay p) (az p) (m p).
Definition set_y (v : double) (p : reb_particle) : reb_particle :=
  mk (x p) v (z p) (vx p) (vy p) (vz p) (ax p) (ay p) (az p) (m p).
Definition set_z (v : double) (p : reb_particle) : reb_particle :=
  mk (x p) (y p) v (vx p) (vy p) (vz p) (ax p) (ay p) (az p) (m p).
Definition set_vx (v : double) (p : reb_particle) : reb_particle :=
  mk (x p) (y p) (z p) v (vy p) (vz p) (ax p) (ay p) (az p) (m p).
Definition set_vy (v : double) (p : reb_particle) : reb_particle :=
  mk (x p) (y p) (z p) (vx p) v (vz p) (ax p) (ay p) (az p) (m p).
Definition set_vz (v : double) (p : reb_particle) : reb_particle :=
  mk (x p) (y p) (z p) (vx p) (vy p) v (ax p) (ay p) (az p) (m p).
Definition set_acc (a : double * double * double) (p : reb_particle)
  : reb_particle :=
  mk (x p) (y p) (z p) (vx p) (vy p) (vz p) a.1.1 a.1.2 a.2 (m p).
End P.

(** [struct reb_particle_int]: six wide integers. *)
Module PI.
Record reb_particle_int : Type := mk {
  x : Z; y : Z; z : Z;
  vx : Z; vy : Z; vz : Z
}.

Definition set_x (v : Z) (q : reb_particle_int) : reb_particle_int :=
  mk v (y q) (z q) (vx q) (vy q) (vz q).
Definition set_y (v : Z) (q : reb_particle_int) : reb_particle_int :=
  mk (x q) v (z q) (vx q) (vy q) (vz q).
Definition set_z (v : Z) (q : reb_particle_int) : reb_particle_int :=
  mk (x q) (y q) v (vx q) (vy q) (vz q).
Definition set_vx (v : Z) (q : reb_particle_int) : reb_particle_int :=
  mk (x q) (y q) (z q) v (vy q) (vz q).
Definition set_vy (v : Z) (q : reb_particle_int) : reb_particle_int :=
  mk (x q) (y q) (z q) (vx q) v (vz q).
Definition set_vz (v : Z) (q : reb_particle_int) : reb_particle_int :=
  mk (x q) (y q) (z q) (vx q) (vy q) v.

(** Content of a slot that [realloc] has added and nothing has written. *)
Definition indeterminate : reb_particle_int := mk 0 0 0 0 0 0.
End PI.

(** [struct reb_simulation_integrator_janus].  [p_curr] is [None] for the
    null pointer and [Some l] for a block holding the elements [l]. *)
Module Janus.
Record reb_simulation_integrator_janus : Type := mk {
  scale : double;
  allocated_N : nat;
  p_curr : option (list PI.reb_particle_int)
}.

Definition set_allocated_N (n : nat) (j : reb_simulation_integrator_janus) :=
  mk (scale j) n (p_curr j).
Definition set_p_curr (p : option (list PI.reb_particle_int))
  (j : reb_simulation_integrator_janus) :=
  mk (scale j) (allocated_N j) p.
End Janus.

(** [struct reb_simulation]: the fields read or written by this file. *)
Module Sim.
Record reb_simulation : Type := mk {
  t : double;
  dt : double;
  N : nat;
  particles : list P.reb_particle;
  gravity_ignore_terms : Z;
  ri_janus : Janus.reb_simulation_integrator_janus
}.

Definition set_t (v : double) (r : reb_simulation) : reb_simulation :=
  mk v (dt r) (N r) (particles r) (gravity_ignore_terms r) (ri_janus r).
Definition set_particles (ps : list P.reb_particle) (r : reb_simulation)
  : reb_simulation :=
  mk (t r) (dt r) (N r) ps (gravity_ignore_terms r) (ri_janus r).
Definition set_gravity_ignore_terms (g : Z) (r : reb_simulation)
  : reb_simulation :=
  mk (t r) (dt r) (N r) (particles r) g (ri_janus r).
Definition set_ri_janus (j : Janus.reb_simulation_integrator_janus)
  (r : reb_simulation) : reb_simulation :=
  mk (t r) (dt r) (N r) (particles r) (gravity_ignore_terms r) j.
End Sim.

Abbreviation reb_particle := P.reb_particle.
Abbreviation reb_particle_int := PI.reb_particle_int.
Abbreviation reb_simulation := Sim.reb_simulation.

(** ** Arrays and loops *)

(** [for (i = 0; i < N; i++) body], threading the state through the
    iterations; a body that is undefined makes the loop undefined. *)
Definition for_loop {S : Type} (N : nat) (body : nat -> S -> option S) (s : S)
  : option S :=
  foldl (fun acc i => acc ≫= body i) (Some s) (seq 0 N).

(** Read element [i], compute, and write the result back at [i]. *)
Definition update_at {A : Type} (i : nat) (f : A -> option A) (l : list A)
  : option (list A) :=
  a ← l !! i; b ← f a; Some (<[i := b]> l).

(** The elements a pointer gives access to: none for the null pointer. *)
Definition deref {A : Type} (p : option (list A)) : list A := default [] p.

(** The block behind a pointer after its elements were updated in place. *)
Definition store_back {A : Type} (p : option (list A)) (l : list A)
  : option (list A) :=
  match p with
  | Some _ => Some l
  | None => None
  end.

(** What a call of [realloc] returns is the allocator's choice, not the
    program's: a block, or the null pointer.  It returns the null pointer
    when the allocation fails and, for a size of 0, when the implementation
    frees the old block instead of keeping an empty one (as glibc does). *)
Inductive realloc_outcome : Type :=
  | returns_block
  | returns_null.

(** [realloc(p, sizeof(T) * n)] with the outcome [o]: a block of [n]
    elements which keeps the old ones as far as they fit, or the null
    pointer. *)
Definition realloc (o : realloc_outcome) (p : option (list reb_particle_int))
    (n : nat) : option (list reb_particle_int) :=
  match o with
  | returns_block => Some (resize n PI.indeterminate (deref p))
  | returns_null => None
  end.

(** ** The conversions *)

Definition to_int_particle (p : reb_particle) (int_scale : double)
  (q : reb_particle_int) : option reb_particle_int :=
  x' ← int128_of_double (fmul (P.x p) int_scale);
  let q := PI.set_x x' q in
  y' ← int128_of_double (fmul (P.y p) int_scale);
  let q := PI.set_y y' q in
  z' ← int128_of_double (fmul (P.z p) int_scale);
  let q := PI.set_z z' q in
  vx' ← int128_of_double (fmul (P.vx p) int_scale);
  let q := PI.set_vx vx' q in
  vy' ← int128_of_double (fmul (P.vy p) int_scale);
  let q := PI.set_vy vy' q in
  vz' ← int128_of_double (fmul (P.vz p) int_scale);
  Some (PI.set_vz vz' q).

Definition to_int (psi : list reb_particle_int) (ps : list reb_particle)
  (N : nat) (int_scale : double) : option (list reb_particle_int) :=
  for_loop N
    (fun i psi => p ← ps !! i; update_at i (to_int_particle p int_scale) psi)
    psi.

Definition to_double_particle (q : reb_particle_int) (int_scale : double)
  (p : reb_particle) : reb_particle :=
  let p := P.set_x (fdiv (double_of_int128 (PI.x q)) int_scale) p in
  let p := P.set_y (fdiv (double_of_int128 (PI.y q)) int_scale) p in
  let p := P.set_z (fdiv (double_of_int128 (PI.z q)) int_scale) p in
  let p := P.set_vx (fdiv (double_of_int128 (PI.vx q)) int_scale) p in
  let p := P.set_vy (fdiv (double_of_int128 (PI.vy q)) int_scale) p in
  P.set_vz (fdiv (double_of_int128 (PI.vz q)) int_scale) p.

Definition to_double (ps : list reb_particle) (psi : list reb_particle_int)
  (N : nat) (int_scale : double) : option (list reb_particle) :=
  for_loop N
    (fun i ps =>
       q ← psi !! i;
       update_at i (fun p => Some (to_double_particle q int_scale p)) ps)
    ps.

(** ** The integrator *)

Section Integrator.

(** The force evaluation [reb_update_acceleration] belongs to the host
    simulation (gravity.c).  [accel r i] is the acceleration it computes
    for particle [i] when called on the simulation [r]. *)
Variable accel : reb_simulation -> nat -> double * double * double.

(** Modelled from the spec: [reb_update_acceleration] is not part of
    this file; it "recomputes ax, ay, az for all particles" of the
    floating-point array and changes nothing else. *)
Definition reb_update_acceleration (r : reb_simulation)
  : option reb_simulation :=
  ps ← for_loop (Sim.N r)
        (fun i ps => update_at i (fun p => Some (P.set_acc (accel r i) p)) ps)
        (Sim.particles r);
  Some (Sim.set_particles ps r).

(** One half-drift of a particle: the three position updates of the
    first and of the last loop of [leapfrog]. *)
Definition drift_particle (dt : double) (q : reb_particle_int)
  : option reb_particle_int :=
  dx ← int128_of_double (fmul (fdiv dt two) (double_of_int128 (PI.vx q)));
  let q := PI.set_x (add128 (PI.x q) dx) q in
  dy ← int128_of_double (fmul (fdiv dt two) (double_of_int128 (PI.vy q)));
  let q := PI.set_y (add128 (PI.y q) dy) q in
  dz ← int128_of_double (fmul (fdiv dt two) (double_of_int128 (PI.vz q)));
  Some (PI.set_z (add128 (PI.z q) dz) q).

(** The kick of a particle: the three velocity updates of the middle
    loop, reading the accelerations of the floating-point particle. *)
Definition kick_particle (int_scale dt : double) (p : reb_particle)
  (q : reb_particle_int) : option reb_particle_int :=
  dvx ← int128_of_double (fmul (fmul int_scale dt) (P.ax p));
  let q := PI.set_vx (add128 (PI.vx q) dvx) q in
  dvy ← int128_of_double (fmul (fmul int_scale dt) (P.ay p));
  let q := PI.set_vy (add128 (PI.vy q) dvy) q in
  dvz ← int128_of_double (fmul (fmul int_scale dt) (P.az p));
  Some (PI.set_vz (add128 (PI.vz q) dvz) q).

Definition drift (N : nat) (dt : double) (psi : list reb_particle_int)
  : option (list reb_particle_int) :=
  for_loop N (fun i psi => update_at i (drift_particle dt) psi) psi.

Definition kick (N : nat) (int_scale dt : double) (ps : list reb_particle)
  (psi : list reb_particle_int) : option (list reb_particle_int) :=
  for_loop N
    (fun i psi => p ← ps !! i; update_at i (kick_particle int_scale dt p) psi)
    psi.

(** An in-place update of the array behind [r->ri_janus.p_curr]. *)
Definition with_p_curr
  (f : list reb_particle_int -> option (list reb_particle_int))
  (r : reb_simulation) : option reb_simulation :=
  let ri_janus := Sim.ri_janus r in
  psi ← f (deref (Janus.p_curr ri_janus));
  Some (Sim.set_ri_janus
          (Janus.set_p_curr (store_back (Janus.p_curr ri_janus) psi) ri_janus)
          r).

(** [leapfrog] up to the force evaluation: the first half-drift, the
    reset of [gravity_ignore_terms] and the conversion to doubles. *)
Definition leapfrog_before_force (r : reb_simulation) (dt : double)
  : option reb_simulation :=
  let N := Sim.N r in
  let int_scale := Janus.scale (Sim.ri_janus r) in
  r ← with_p_curr (drift N dt) r;
  let r := Sim.set_gravity_ignore_terms 0 r in
  ps ← to_double (Sim.particles r) (deref (Janus.p_curr (Sim.ri_janus r)))
        N int_scale;
  Some (Sim.set_particles ps r).

(** [leapfrog] from the force evaluation on: the kick and the second
    half-drift. *)
Definition leapfrog_from_force (r : reb_simulation) (dt : double)
  : option reb_simulation :=
  let N := Sim.N r in
  let int_scale := Janus.scale (Sim.ri_janus r) in
  r ← reb_update_acceleration r;
  r ← with_p_curr (kick N int_scale dt (Sim.particles r)) r;
  with_p_curr (drift N dt) r.

Definition leapfrog (r : reb_simulation) (dt : double)
  : option reb_simulation :=
  r ← leapfrog_before_force r dt;
  leapfrog_from_force r dt.

(** The first part of [reb_integrator_janus_part1]: the shadow array is
    brought to the particle count.  The result of [realloc] is stored and
    handed to [to_int] unchecked; [o] is the outcome of that call. *)
Definition part1_allocate (o : realloc_outcome) (r : reb_simulation)
  : option reb_simulation :=
  let r := Sim.set_gravity_ignore_terms 0 r in
  let N := Sim.N r in
  if decide (Janus.allocated_N (Sim.ri_janus r) ≠ N) then
    let int_scale := Janus.scale (Sim.ri_janus r) in
    let r := Sim.set_ri_janus (Janus.set_allocated_N N (Sim.ri_janus r)) r in
    let r :=
      Sim.set_ri_janus
        (Janus.set_p_curr (realloc o (Janus.p_curr (Sim.ri_janus r)) N)
           (Sim.ri_janus r)) r in
    with_p_curr (fun psi => to_int psi (Sim.particles r) N int_scale) r
  else Some r.

Definition reb_integrator_janus_part1 (o : realloc_outcome)
    (r : reb_simulation) : option reb_simulation :=
  r ← part1_allocate o r;
  r ← leapfrog r (fmul gamma1 (Sim.dt r));
  r ← leapfrog r (fmul gamma2 (Sim.dt r));
  r ← leapfrog r (fmul gamma3 (Sim.dt r));
  r ← leapfrog r (fmul gamma4 (Sim.dt r));
  r ← leapfrog r (fmul gamma5 (Sim.dt r));
  r ← leapfrog r (fmul gamma4 (Sim.dt r));
  r ← leapfrog r (fmul gamma3 (Sim.dt r));
  r ← leapfrog r (fmul gamma2 (Sim.dt r));
  leapfrog r (fmul gamma1 (Sim.dt r)).

End Integrator.

Definition reb_integrator_janus_part2 (r : reb_simulation)
  : option reb_simulation :=
  let ri_janus := Sim.ri_janus r in
  let N := Sim.N r in
  let int_scale := Janus.scale ri_janus in
  ps ← to_double (Sim.particles r) (deref (Janus.p_curr ri_janus)) N int_scale;
  let r := Sim.set_particles ps r in
  Some (Sim.set_t (fadd (Sim.t r) (Sim.dt r)) r).


Definition reb_integrator_janus_reset (r : reb_simulation) : reb_simulation :=
  let ri_janus := Sim.ri_janus r in
  let ri_janus := Janus.set_allocated_N 0 ri_janus in
  let ri_janus :=
    match Janus.p_curr ri_janus with
    | Some _ => Janus.set_p_curr None ri_janus
    | None => ri_janus
    end in
  Sim.set_ri_janus ri_janus r.

(** ** Vocabulary of the specification *)

(** Every field of a shadow particle is a 128-bit value. *)
Definition wf_particle_int (q : reb_particle_int) : Prop :=
  in_int128 (PI.x q) = true ∧ in_int128 (PI.y q) = true ∧
  in_int128 (PI.z q) = true ∧ in_int128 (PI.vx q) = true ∧
  in_int128 (PI.vy q) = true ∧ in_int128 (PI.vz q) = true.

(** The shadow array of a simulation. *)
Definition shadow (r : reb_simulation) : list reb_particle_int :=
  deref (Janus.p_curr (Sim.ri_janus r)).


(** What a loop of in-place updates leaves behind: the first [n] elements
    are related to the old ones by [R], the others are the old ones. *)
Definition prefix_updated {A : Type} (n : nat) (R : nat -> A -> A -> Prop)
  (l l' : list A) : Prop :=
  length l' = length l ∧ n ≤ length l ∧
  (∀ i a, i < n -> l !! i = Some a -> ∃ b, l' !! i = Some b ∧ R i a b) ∧
  (∀ i, n ≤ i -> l' !! i = l !! i).

(** What each loop of the integrator does to the element at index [i]. *)

Definition drift_rel (dt : double) (i : nat) (a b : reb_particle_int) : Prop :=
  drift_particle dt a = Some b.

Definition kick_rel (s dt : double) (ps : list reb_particle) (i : nat)
  (a b : reb_particle_int) : Prop :=
  ∃ p, ps !! i = Some p ∧ kick_particle s dt p a = Some b.

Definition to_int_rel (s : double) (ps : list reb_particle) (i : nat)
  (a b : reb_particle_int) : Prop :=
  ∃ p, ps !! i = Some p ∧ to_int_particle p s a = Some b.

Definition to_double_rel (s : double) (psi : list reb_particle_int) (i : nat)
  (p p' : reb_particle) : Prop :=
  ∃ q, psi !! i = Some q ∧ p' = to_double_particle q s p.

Definition set_acc_rel (acc : nat -> double * double * double) (i : nat)
  (p p' : reb_particle) : Prop :=
  p' = P.set_acc (acc i) p.

(** A sequence of sub-steps whose durations are the multiples [g * dt] of
    one timestep [dt], for the coefficients [g] of a list, in its order. *)
Definition substeps (accel : reb_simulation -> nat -> double * double * double)
  (dt : double) (gs : list double) (r : reb_simulation) : option reb_simulation :=
  foldl (fun acc g => acc ≫= fun r' => leapfrog accel r' (fmul g dt)) (Some r) gs.

(** The six coordinates of a floating-point particle, and the coordinates
    that the conversion to doubles gives a shadow particle. *)
Definition coords (p : reb_particle) : list double :=
  [P.x p; P.y p; P.z p; P.vx p; P.vy p; P.vz p].

Definition int_coords (q : reb_particle_int) : list Z :=
  [PI.x q; PI.y q; PI.z q; PI.vx q; PI.vy q; PI.vz q].

Definition double_coords (q : reb_particle_int) (int_scale : double)
  : list double :=
  (fun c => fdiv (double_of_int128 c) int_scale) <$> int_coords q.

(** The rational number that a decimal literal of the source denotes. *)
Definition Qdecimal (neg : bool) (num : positive) (digits : N) : Q :=
  Qmake (cond_Zopp neg (Zpos num)) (Z.to_pos (10 ^ Z.of_N digits)).

(** What a deterministic force evaluation may read: everything except the
    accelerations it is about to overwrite (and the array slots beyond the
    particle count). *)
Definition force_inputs (r : reb_simulation) :=
  (Sim.t r, Sim.dt r, Sim.N r, Sim.gravity_ignore_terms r, Sim.ri_janus r,
   (fun p => (coords p, P.m p)) <$> take (Sim.N r) (Sim.particles r)).

Definition force_deterministic
  (accel : reb_simulation -> nat -> double * double * double) : Prop :=
  ∀ r r', force_inputs r = force_inputs r' ->
          ∀ i, i < Sim.N r -> accel r i = accel r' i.

(** Two simulations that differ at most in the coordinates and the
    accelerations of their floating-point particles. *)
Definition same_but_coords_acc (r r' : reb_simulation) : Prop :=
  Sim.t r = Sim.t r' ∧ Sim.dt r = Sim.dt r' ∧ Sim.N r = Sim.N r' ∧
  Sim.gravity_ignore_terms r = Sim.gravity_ignore_terms r' ∧
  Sim.ri_janus r = Sim.ri_janus r' ∧
  P.m <$> take (Sim.N r) (Sim.particles r)
  = P.m <$> take (Sim.N r') (Sim.particles r').

(** Two simulations that agree on everything the integrator can see. *)
Definition agree (r r' : reb_simulation) : Prop :=
  Sim.t r = Sim.t r' ∧ Sim.dt r = Sim.dt r' ∧ Sim.N r = Sim.N r' ∧
  Sim.gravity_ignore_terms r = Sim.gravity_ignore_terms r' ∧
  Sim.ri_janus r = Sim.ri_janus r' ∧
  take (Sim.N r) (Sim.particles r) = take (Sim.N r') (Sim.particles r').

(** [z] is the integral part of [q]: the integer next to [q] in the
    direction of zero. *)
Definition truncated_toward_zero (q : Q) (z : Z) : Prop :=
  ((0 <= q -> inject_Z z <= q ∧ q < inject_Z z + 1) ∧
   (q <= 0 -> inject_Z z - 1 < q ∧ q <= inject_Z z))%Q.

(** [z] is an integer nearest to [q]. *)
Definition nearest_integer (q : Q) (z : Z) : Prop :=
  (Qabs (inject_Z z - q) <= 1 # 2)%Q.

(** One coordinate across a sub-step, for a conversion [conv] from the
    value of a double to a wide integer: the position [x] receives the
    conversion of [h * v] before the kick and that of [h * v'] after it,
    the velocity [v] receives the conversion of the product [k]. *)
Definition coordinate_step (conv : Q -> Z -> Prop) (h k : double)
  (x v x' v' : Z) : Prop :=
  ∃ d1 dk d2,
    conv (SF2Q (fmul h (double_of_int128 v))) d1 ∧
    conv (SF2Q k) dk ∧
    v' = add128 v dk ∧
    conv (SF2Q (fmul h (double_of_int128 v'))) d2 ∧
    x' = add128 (add128 x d1) d2.

(** Every particle of every sub-step takes the step [coordinate_step] in
    each of its three coordinates, with [h = dt / 2] and
    [k = scale * dt * a] for the acceleration [a] of the force
    evaluation. *)
Definition leapfrog_increments (conv : Q -> Z -> Prop)
  (accel : reb_simulation -> nat -> double * double * double) : Prop :=
  ∀ r dt r' i q q',
    leapfrog accel r dt = Some r' ->
    i < Sim.N r ->
    shadow r !! i = Some q ->
    shadow r' !! i = Some q' ->
    ∃ p, Sim.particles r' !! i = Some p ∧
      let h := fdiv dt two in
      let sdt := fmul (Janus.scale (Sim.ri_janus r)) dt in
      coordinate_step conv h (fmul sdt (P.ax p))
        (PI.x q) (PI.vx q) (PI.x q') (PI.vx q') ∧
      coordinate_step conv h (fmul sdt (P.ay p))
        (PI.y q) (PI.vy q) (PI.y q') (PI.vy q') ∧
      coordinate_step conv h (fmul sdt (P.az p))
        (PI.z q) (PI.vz q) (PI.z q') (PI.vz q').

(** The round trip of section 8.1: the coordinates of particle [i] after
    [to_int] and [to_double] with the same count and scale differ from the
    original ones by at most [1/s]. *)
Definition round_trip_within_quantum : Prop :=
  ∀ psi ps N s psi' ps0 ps' i p p',
    to_int psi ps N s = Some psi' ->
    to_double ps0 psi' N s = Some ps' ->
    i < N -> ps !! i = Some p -> ps' !! i = Some p' ->
    Forall2 (fun c c' => (Qabs (SF2Q c' - SF2Q c) <= / SF2Q s)%Q)
      (coords p) (coords p').

(** The two floating-point operations around the stored integer [n] of a
    coordinate [c], the product by the scale and the quotient by it, are
    free of rounding error. *)
Definition exact_round_trip (s c : double) (n : Z) : Prop :=
  (SF2Q (fmul c s) == SF2Q c * SF2Q s)%Q ∧
  (SF2Q (fdiv (double_of_int128 n) s) == inject_Z n / SF2Q s)%Q.

(** What a round trip may lose at most in a coordinate [c] for the scale
    [s]: one unit [1/s] of the grid for the truncation, and for the three
    roundings to nearest (the product, the conversion of the stored
    integer, the quotient) [2^-51] times the magnitude of the coordinate
    plus one unit of the grid, and [2^-1075], half the least subnormal
    number. *)
Definition round_trip_tolerance (s c : double) : Q :=
  / SF2Q s + Qpow2 (-51) * (Qabs (SF2Q c) + / SF2Q s) + Qpow2 (-1075).

(** The normalization sum [2*gamma1 + 2*gamma2 + 2*gamma3 + 2*gamma4 +
    gamma5], evaluated in double arithmetic from left to right. *)
Definition composition_sum : double :=
  fadd (fadd (fadd (fadd (fmul two gamma1) (fmul two gamma2))
                (fmul two gamma3)) (fmul two gamma4)) gamma5.

(** Two simulations with the same clock and timestep and, for each of the
    first [N] particles, the same position and mass. *)
Definition same_positions (r r' : reb_simulation) : Prop :=
  Sim.t r = Sim.t r' ∧ Sim.dt r = Sim.dt r' ∧ Sim.N r = Sim.N r' ∧
  Sim.gravity_ignore_terms r = Sim.gravity_ignore_terms r' ∧
  (fun p => (P.x p, P.y p, P.z p, P.m p)) <$> take (Sim.N r) (Sim.particles r)
  = (fun p => (P.x p, P.y p, P.z p, P.m p))
      <$> take (Sim.N r') (Sim.particles r').

(** A force evaluation whose accelerations are a function of the positions
    and the masses, as for gravity. *)
Definition force_positional
  (accel : reb_simulation -> nat -> double * double * double) : Prop :=
  ∀ r r', same_positions r r' -> ∀ i, i < Sim.N r -> accel r i = accel r' i.

(** A force evaluation that returns identical accelerations at identical
    floating-point particle states: its accelerations are a function of
    the particle count and of the coordinates and masses of the first [N]
    floating-point particles. *)
Definition force_of_particle_states
  (accel : reb_simulation -> nat -> double * double * double) : Prop :=
  ∀ r r',
    Sim.N r = Sim.N r' ->
    (fun p => (coords p, P.m p)) <$> take (Sim.N r) (Sim.particles r)
    = (fun p => (coords p, P.m p)) <$> take (Sim.N r') (Sim.particles r') ->
    ∀ i, i < Sim.N r -> accel r i = accel r' i.

(** Time reversibility for every such force evaluation: a sub-step with
    [dt] followed by a sub-step with [-dt] restores the shadow array. *)
Definition reversible_for_forces_of_particle_states : Prop :=
  ∀ accel r dt r1 r2,
    force_of_particle_states accel ->
    Forall wf_particle_int (shadow r) ->
    leapfrog accel r dt = Some r1 ->
    leapfrog accel r1 (fneg dt) = Some r2 ->
    Janus.p_curr (Sim.ri_janus r2) = Janus.p_curr (Sim.ri_janus r).

(** ** Concrete simulations *)

Module Ex.
Definition zero : double := S754_zero false.
Definition one : double := Eval vm_compute in double_of_decimal false 1 0.
Definition half : double := Eval vm_compute in double_of_decimal false 5 1.
Definition three : double := Eval vm_compute in double_of_decimal false 3 0.
Definition scale30 : double := Eval vm_compute in double_of_int128 (2 ^ 30).

(** No force at all. *)
Definition free (r : reb_simulation) (i : nat) : double * double * double :=
  (zero, zero, zero).

(** A harmonic force field: the acceleration of a particle is the
    opposite of its position. *)
Definition harmonic (r : reb_simulation) (i : nat)
  : double * double * double :=
  match Sim.particles r !! i with
  | Some p => (fneg (P.x p), fneg (P.y p), fneg (P.z p))
  | None => (zero, zero, zero)
  end.

(** A drag: the acceleration of a particle is the opposite of its
    velocity. *)
Definition drag (r : reb_simulation) (i : nat)
  : double * double * double :=
  match Sim.particles r !! i with
  | Some p => (fneg (P.vx p), fneg (P.vy p), fneg (P.vz p))
  | None => (zero, zero, zero)
  end.

(** One particle at (1, 0, 0) with velocity (0, 1/2, 0) and mass 1. *)
Definition p_orbit : reb_particle :=
  P.mk one zero zero zero half zero zero zero zero one.

(** A fresh simulation of that particle, nothing allocated yet; the
    timestep is 1/2 and the scale 2^30. *)
Definition r_fresh : reb_simulation :=
  Sim.mk zero half 1 [p_orbit] 7 (Janus.mk scale30 0 None).

(** The same simulation after the allocation step. *)
Definition r_ready : reb_simulation :=
  Sim.mk zero half 1 [p_orbit] 0
    (Janus.mk scale30 1 (Some [PI.mk 1073741824 0 0 0 536870912 0])).


(** The simulation [r_ready] with other coordinates and accelerations in
    its floating-point particle. *)
Definition r_ready_other_view : reb_simulation :=
  Sim.mk zero half 1 [P.mk three half one one one three half three one one] 0
    (Janus.mk scale30 1 (Some [PI.mk 1073741824 0 0 0 536870912 0])).

(** A particle whose shadow velocity is 3 units in x, with scale 1 and
    [dt = 1/2]: the half-drift product [dt / 2 * 3] is 3/4. *)
Definition r_three_quarters : reb_simulation :=
  Sim.mk zero half 1 [P.mk zero zero zero three zero zero zero zero zero one] 0
    (Janus.mk one 1 (Some [PI.mk 0 0 0 3 0 0])).
End Ex.

(** A round trip at scale 3 from the position 3 * 2^51 + 2. *)
Module ExRoundTrip.
Definition x0 : double :=
  Eval vm_compute in double_of_int128 6755399441055746.
Definition p0 : reb_particle :=
  P.mk x0 Ex.zero Ex.zero Ex.zero Ex.zero Ex.zero Ex.zero Ex.zero Ex.zero Ex.one.
Definition q0 : reb_particle_int := PI.mk 20266198323167240 0 0 0 0 0.
Definition x1 : double :=
  Eval vm_compute in double_of_int128 6755399441055747.
Definition p1 : reb_particle :=
  P.mk x1 Ex.zero Ex.zero Ex.zero Ex.zero Ex.zero Ex.zero Ex.zero Ex.zero Ex.one.

(** A particle at x = 0.1 with velocity 1/2 in y, its shadow at the scales
    2^30 and 3, and what the conversion to doubles makes of each. *)
Definition tenth : double := Eval vm_compute in double_of_decimal false 1 1.
Definition p_tenth : reb_particle :=
  P.mk tenth Ex.zero Ex.zero Ex.zero Ex.half Ex.zero Ex.zero Ex.zero Ex.zero
    Ex.one.
Definition q_tenth : reb_particle_int :=
  Eval vm_compute in
    default PI.indeterminate
      (to_int_particle p_tenth Ex.scale30 PI.indeterminate).
Definition p_tenth_back : reb_particle :=
  Eval vm_compute in to_double_particle q_tenth Ex.scale30 p_tenth.
Definition q_tenth3 : reb_particle_int :=
  Eval vm_compute in
    default PI.indeterminate
      (to_int_particle p_tenth Ex.three PI.indeterminate).
Definition p_tenth_back3 : reb_particle :=
  Eval vm_compute in to_double_particle q_tenth3 Ex.three p_tenth.
End ExRoundTrip.

(** The states those simulations go through under the harmonic force. *)
Module ExRun.
(** [r_ready] after a sub-step of 1/2, and after a second one of -1/2. *)
Definition fwd : reb_simulation :=
  Eval vm_compute in
    default Ex.r_ready (leapfrog Ex.harmonic Ex.r_ready Ex.half).
Definition back : reb_simulation :=
  Eval vm_compute in default Ex.r_ready (leapfrog Ex.harmonic fwd (fneg Ex.half)).

(** [r_fresh] after the first half of a step, and after the second. *)
Definition part1 : reb_simulation :=
  Eval vm_compute in
    default Ex.r_fresh
      (reb_integrator_janus_part1 Ex.harmonic returns_block Ex.r_fresh).
Definition part2 : reb_simulation :=
  Eval vm_compute in default Ex.r_fresh (reb_integrator_janus_part2 part1).

(** [r_ready] under the drag, forth and back. *)
Definition drag_fwd : reb_simulation :=
  Eval vm_compute in
    default Ex.r_ready (leapfrog Ex.drag Ex.r_ready Ex.half).
Definition drag_back : reb_simulation :=
  Eval vm_compute in
    default Ex.r_ready (leapfrog Ex.drag drag_fwd (fneg Ex.half)).
End ExRun.

(** ** Further vocabulary *)

(** The masses of the first [N] particles. *)
Definition masses (r : reb_simulation) : list double :=
  P.m <$> take (Sim.N r) (Sim.particles r).

(** Two simulations with the same particle count, the same integrator
    state and the same masses; clock, timestep, coordinates and
    accelerations of the floating-point particles may differ. *)
Definition same_shadow (r r' : reb_simulation) : Prop :=
  Sim.N r = Sim.N r' ∧ Sim.ri_janus r = Sim.ri_janus r' ∧
  masses r = masses r'.

(** A force evaluation whose accelerations are a function of the particle
    count, the positions and the masses alone, as for Newtonian gravity:
    they depend neither on the velocities nor on the clock or the
    timestep. *)
Definition positions_only
  (accel : reb_simulation -> nat -> double * double * double) : Prop :=
  ∀ r r',
    Sim.N r = Sim.N r' ->
    (fun p => (P.x p, P.y p, P.z p, P.m p)) <$> take (Sim.N r) (Sim.particles r)
    = (fun p => (P.x p, P.y p, P.z p, P.m p))
        <$> take (Sim.N r') (Sim.particles r') ->
    ∀ i, i < Sim.N r -> accel r i = accel r' i.

(** A signed zero. *)
Definition is_zero (f : double) : bool :=
  match f with
  | S754_zero _ => true
  | _ => false
  end.

(** An acceleration whose three components are zero. *)
Definition zero_acceleration (a : double * double * double) : Prop :=
  is_zero a.1.1 = true ∧ is_zero a.1.2 = true ∧ is_zero a.2 = true.

(** A shadow particle at rest. *)
Definition at_rest (q : reb_particle_int) : Prop :=
  PI.vx q = 0%Z ∧ PI.vy q = 0%Z ∧ PI.vz q = 0%Z.

(** What a sub-step does to the floating-point particles: it keeps their
    number and their masses, and the particles from index [N] on. *)
Definition particles_kept (N : nat) (ps ps' : list reb_particle) : Prop :=
  length ps' = length ps ∧
  ∀ i p p', ps !! i = Some p -> ps' !! i = Some p' ->
    P.m p' = P.m p ∧ (N ≤ i -> p' = p).

(** A double that is a signed zero or not a number. *)
Definition zero_or_nan (f : double) : bool :=
  match f with
  | S754_zero _ | S754_nan => true
  | _ => false
  end.

(** The two ways in which a sub-step moves nothing: a duration of zero,
    or particles at rest in a field without force. *)
Definition nothing_moves
  (accel : reb_simulation -> nat -> double * double * double)
  (r : reb_simulation) (dt : double) : Prop :=
  is_zero dt = true
  ∨ (Forall at_rest (take (Sim.N r) (shadow r)) ∧
     ∀ r' i, zero_acceleration (accel r' i)).

(** The three velocity fields of a shadow particle. *)
Definition velocity (q : reb_particle_int) : Z * Z * Z :=
  (PI.vx q, PI.vy q, PI.vz q).

(** The double [2^k], for an exponent [k] of a normal number: the scale is
    [2^30] in the examples. *)
Definition pow2_double (k : Z) : double :=
  S754_finite false 4503599627370496 (k - 52).

(** A shadow particle whose six fields are below 2^53 in magnitude, so
    that each of them is a double. *)
Definition small_particle_int (q : reb_particle_int) : Prop :=
  Forall (fun n => (Z.abs n < 2 ^ 53)%Z) (int_coords q).

(** ** Further concrete simulations *)

Module ExMore.
(** A simulation without particles, nothing allocated. *)
Definition r_empty : reb_simulation :=
  Sim.mk Ex.zero Ex.half 0 [] 7 (Janus.mk Ex.scale30 0 None).

(** [Ex.r_fresh] with a count that tells of an allocation of one element
    behind a null pointer. *)
Definition r_dangling : reb_simulation :=
  Sim.mk Ex.zero Ex.half 1 [Ex.p_orbit] 7 (Janus.mk Ex.scale30 1 None).

(** A stale integrator state: a count of 5 and two elements of an
    earlier run. *)
Definition stale : list reb_particle_int :=
  [PI.mk 1 2 3 4 5 6; PI.mk 7 8 9 10 11 12].

(** [Ex.r_ready] with a timestep of zero, and what the first half of a
    step makes of it. *)
Definition r_frozen : reb_simulation :=
  Sim.mk Ex.zero Ex.zero 1 [Ex.p_orbit] 0
    (Janus.mk Ex.scale30 1 (Some [PI.mk 1073741824 0 0 0 536870912 0])).
Definition frozen_part1 : reb_simulation :=
  Eval vm_compute in
    default r_frozen (reb_integrator_janus_part1 Ex.harmonic returns_block r_frozen).

(** One particle at rest at (1, 0, 0), and the first half of a step
    without force. *)
Definition r_rest : reb_simulation :=
  Sim.mk Ex.zero Ex.half 1
    [P.mk Ex.one Ex.zero Ex.zero Ex.zero Ex.zero Ex.zero Ex.zero Ex.zero
       Ex.zero Ex.one] 0
    (Janus.mk Ex.scale30 1 (Some [PI.mk 1073741824 0 0 0 0 0])).
Definition rest_part1 : reb_simulation :=
  Eval vm_compute in
    default r_rest (reb_integrator_janus_part1 Ex.free returns_block r_rest).

(** [ExRun.part2] with the opposite timestep, and the first half of the
    step back under the harmonic force. *)
Definition turned : reb_simulation :=
  Eval vm_compute in
    Sim.mk (Sim.t ExRun.part2) (fneg (Sim.dt ExRun.part2)) (Sim.N ExRun.part2)
      (Sim.particles ExRun.part2) (Sim.gravity_ignore_terms ExRun.part2)
      (Sim.ri_janus ExRun.part2).
Definition turned_part1 : reb_simulation :=
  Eval vm_compute in
    default turned (reb_integrator_janus_part1 Ex.harmonic returns_block turned).

(** [Ex.r_ready] after a sub-step of 1/2 and after the first half of a
    step, both without force. *)
Definition free_fwd : reb_simulation :=
  Eval vm_compute in default Ex.r_ready (leapfrog Ex.free Ex.r_ready Ex.half).
Definition free_part1 : reb_simulation :=
  Eval vm_compute in
    default Ex.r_ready (reb_integrator_janus_part1 Ex.free returns_block Ex.r_ready).

(** [Ex.r_fresh] with an infinite timestep. *)
Definition r_infinite : reb_simulation :=
  Sim.mk Ex.zero (S754_infinity false) 1 [Ex.p_orbit] 7
    (Janus.mk Ex.scale30 0 None).

(** The floating-point view of the shadow state of [Ex.r_ready]. *)
Definition ready_doubles : list reb_particle :=
  Eval vm_compute in
    default [] (to_double (Sim.particles Ex.r_ready) (shadow Ex.r_ready) 1
                  Ex.scale30).
End ExMore.

(** * Properties *)

(** ** Loops over arrays *)

Section Loops.
Context {A : Type}.
Implicit Types (l : list A) (f : nat -> A -> option A).

Lemma for_loop_0 {S : Type} (body : nat -> S -> option S) (s : S) :
  for_loop 0 body s = Some s.
Proof. reflexivity. Qed.

Lemma for_loop_S {S : Type} (n : nat) (body : nat -> S -> option S) (s : S) :
  for_loop (Datatypes.S n) body s = for_loop n body s ≫= body n.
Proof.
  unfold for_loop. rewrite seq_S, foldl_app. reflexivity.
Qed.

Lemma for_loop_ext {S : Type} (n : nat) (b1 b2 : nat -> S -> option S) (s : S) :
  (∀ i s', i < n -> b1 i s' = b2 i s') ->
  for_loop n b1 s = for_loop n b2 s.
Proof.
  induction n as [|n IH]; intros Hb; [reflexivity|].
  rewrite !for_loop_S, IH by (intros; apply Hb; lia).
  destruct (for_loop n b2 s) as [s'|]; simpl; [apply Hb; lia | reflexivity].
Qed.

Lemma update_at_Some i (g : A -> option A) l l' :
  update_at i g l = Some l' ↔
  ∃ a b, l !! i = Some a ∧ g a = Some b ∧ l' = <[i := b]> l.
Proof.
  unfold update_at. split.
  - destruct (l !! i) as [a|] eqn:Ha; simpl; [|discriminate].
    destruct (g a) as [b|] eqn:Hb; simpl; [|discriminate].
    intros [= <-]. eauto.
  - intros (a & b & -> & Hb & ->). simpl. rewrite Hb. reflexivity.
Qed.

Lemma for_loop_update_at n f l l' :
  for_loop n (fun i => update_at i (f i)) l = Some l' ↔
  prefix_updated n (fun i a b => f i a = Some b) l l'.
Proof.
  revert l'. induction n as [|n IH]; intros l'.
  - rewrite for_loop_0. unfold prefix_updated. split.
    + intros [= <-]. split; [done|]. split; [lia|]. split; [intros; lia | done].
    + intros (Hlen & _ & _ & Hrest). f_equal. symmetry.
      apply list_eq. intros i. apply Hrest. lia.
  - rewrite for_loop_S. split.
    + destruct (for_loop n _ l) as [l1|] eqn:E; simpl; [|discriminate].
      intros (a & b & Ha & Hb & ->)%update_at_Some.
      destruct (proj1 (IH l1) eq_refl) as (Hlen & Hn & Hpre & Hrest).
      pose proof (lookup_lt_Some _ _ _ Ha) as Hlt.
      repeat split.
      * rewrite length_insert. done.
      * lia.
      * intros i a' Hi Hia'. destruct (decide (i = n)) as [->|Hne].
        -- exists b. rewrite list_lookup_insert_eq by done.
           split; [done|]. rewrite Hrest in Ha by lia. congruence.
        -- rewrite list_lookup_insert_ne by done. apply Hpre; [lia | done].
      * intros i Hi. rewrite list_lookup_insert_ne by lia. apply Hrest. lia.
    + intros (Hlen & Hn & Hpre & Hrest).
      destruct (lookup_lt_is_Some_2 l n ltac:(lia)) as [a Ha].
      destruct (Hpre n a ltac:(lia) Ha) as (b & Hb' & Hb).
      assert (Hl1 : for_loop n (fun i => update_at i (f i)) l
                    = Some (<[n := a]> l')).
      { apply IH. repeat split.
        - rewrite length_insert. done.
        - lia.
        - intros i a' Hi Hia'. rewrite list_lookup_insert_ne by lia.
          apply Hpre; [lia | done].
        - intros i Hi. destruct (decide (i = n)) as [->|Hne].
          + rewrite list_lookup_insert_eq by lia. done.
          + rewrite list_lookup_insert_ne by done. apply Hrest. lia. }
      rewrite Hl1. simpl. apply update_at_Some. exists a, b.
      split; [apply list_lookup_insert_eq; lia|]. split; [done|].
      rewrite list_insert_insert_eq. symmetry. apply list_insert_id. done.
Qed.

(** A body that first reads a second array at the same index. *)
Lemma for_loop_read_update_at {B : Type} n (ps : list B)
    (g : B -> A -> option A) l l' :
  for_loop n (fun i l => p ← ps !! i; update_at i (g p) l) l = Some l' ↔
  prefix_updated n (fun i a b => ∃ p, ps !! i = Some p ∧ g p a = Some b) l l'.
Proof.
  trans (prefix_updated n (fun i a b => (p ← ps !! i; g p a) = Some b) l l').
  2:{ unfold prefix_updated. split; intros (H1 & H2 & H3 & H4);
      (split; [done|]; split; [done|]; split; [|done]);
      intros i a Hi Ha; destruct (H3 i a Hi Ha) as (b & Hb & HR); exists b;
      (split; [done|]).
      - destruct (ps !! i) as [p|]; simpl in HR; [eauto | discriminate].
      - destruct HR as (p & -> & HR). done. }
  rewrite <- (for_loop_update_at n (fun i a => p ← ps !! i; g p a)).
  enough (Heq :
      for_loop n (fun i l => p ← ps !! i; update_at i (g p) l) l
      = for_loop n (fun i => update_at i (fun a => p ← ps !! i; g p a)) l)
    by (rewrite Heq; reflexivity).
  apply for_loop_ext. intros i s' _. unfold update_at.
  destruct (ps !! i); simpl; [reflexivity|].
  destruct (s' !! i); reflexivity.
Qed.
End Loops.

Lemma for_loop_update_at_total {A : Type} (n : nat) (f : nat -> A -> option A)
    (l : list A) :
  n ≤ length l ->
  (∀ i a, i < n -> l !! i = Some a -> is_Some (f i a)) ->
  is_Some (for_loop n (fun i => update_at i (f i)) l).
Proof.
  induction n as [|n IH]; intros Hn Hf.
  - rewrite for_loop_0. eauto.
  - rewrite for_loop_S.
    destruct IH as [l1 Hl1]; [lia | intros; apply Hf; [lia|done] |].
    rewrite Hl1. simpl.
    apply for_loop_update_at in Hl1 as (Hlen & _ & _ & Hrest).
    destruct (lookup_lt_is_Some_2 l n ltac:(lia)) as [a Ha].
    destruct (Hf n a ltac:(lia) Ha) as [b Hb].
    exists (<[n := b]> l1). apply update_at_Some. exists a, b.
    rewrite Hrest by lia. done.
Qed.

(** ** Arrays updated on a prefix *)

Section PrefixUpdated.
Context {A : Type}.
Implicit Types (l : list A) (R : nat -> A -> A -> Prop).

Lemma prefix_updated_length n R l l' :
  prefix_updated n R l l' -> length l' = length l.
Proof. intros (H & _). exact H. Qed.

Lemma prefix_updated_lookup n R l l' i a :
  prefix_updated n R l l' -> i < n -> l !! i = Some a ->
  ∃ b, l' !! i = Some b ∧ R i a b.
Proof. intros (_ & _ & H & _). apply H. Qed.

Lemma prefix_updated_lookup_r n R l l' i b :
  prefix_updated n R l l' -> i < n -> l' !! i = Some b ->
  ∃ a, l !! i = Some a ∧ R i a b.
Proof.
  intros (Hlen & Hn & Hpre & _) Hi Hb.
  destruct (lookup_lt_is_Some_2 l i ltac:(lia)) as [a Ha].
  destruct (Hpre i a Hi Ha) as (b' & Hb' & HR).
  exists a. split; [done|]. congruence.
Qed.

Lemma prefix_updated_lookup_ge n R l l' i :
  prefix_updated n R l l' -> n ≤ i -> l' !! i = l !! i.
Proof. intros (_ & _ & _ & H). apply H. Qed.

Lemma prefix_updated_mono n R R' l l' :
  (∀ i a b, i < n -> l !! i = Some a -> R i a b -> R' i a b) ->
  prefix_updated n R l l' -> prefix_updated n R' l l'.
Proof.
  intros HRR' (Hlen & Hn & Hpre & Hrest).
  split; [done|]. split; [done|]. split; [|done].
  intros i a Hi Ha. destruct (Hpre i a Hi Ha) as (b & Hb & HR).
  exists b. split; [done|]. by apply HRR'.
Qed.

Lemma prefix_updated_nil n R l' :
  prefix_updated n R [] l' -> n = 0 ∧ l' = [].
Proof.
  intros (Hlen & Hn & _). simpl in *.
  split; [lia|]. by apply nil_length_inv.
Qed.

(** Two runs whose elements are related by a functional relation end in
    the same array. *)
Lemma prefix_updated_functional n R l l1 l2 :
  (∀ i a b1 b2, i < n -> l !! i = Some a -> R i a b1 -> R i a b2 -> b1 = b2) ->
  prefix_updated n R l l1 -> prefix_updated n R l l2 -> l1 = l2.
Proof.
  intros Hfun (Hlen1 & _ & Hpre1 & Hrest1) (Hlen2 & _ & Hpre2 & Hrest2).
  apply list_eq. intros i. destruct (decide (i < n)) as [Hi|Hi].
  - destruct (l !! i) as [a|] eqn:Ha.
    + destruct (Hpre1 i a Hi Ha) as (b1 & -> & HR1).
      destruct (Hpre2 i a Hi Ha) as (b2 & -> & HR2).
      f_equal. eauto.
    + apply lookup_ge_None in Ha.
      rewrite !(proj2 (lookup_ge_None _ _)) by lia. done.
  - rewrite Hrest1, Hrest2 by lia. done.
Qed.

(** A second pass that undoes the first at every index restores the
    array. *)
Lemma prefix_updated_inverse n R R' l l' l'' :
  (∀ i a b c, i < n -> l !! i = Some a -> R i a b -> R' i b c -> c = a) ->
  prefix_updated n R l l' -> prefix_updated n R' l' l'' -> l'' = l.
Proof.
  intros Hinv (Hlen1 & _ & Hpre1 & Hrest1) (Hlen2 & _ & Hpre2 & Hrest2).
  apply list_eq. intros i. destruct (decide (i < n)) as [Hi|Hi].
  - destruct (l !! i) as [a|] eqn:Ha.
    + destruct (Hpre1 i a Hi Ha) as (b & Hb & HR1).
      destruct (Hpre2 i b Hi Hb) as (c & -> & HR2).
      f_equal. eauto.
    + apply lookup_ge_None in Ha. apply lookup_ge_None. lia.
  - rewrite Hrest2, Hrest1 by lia. done.
Qed.

Lemma deref_store_back (p : option (list A)) l :
  length l = length (deref p) -> deref (store_back p l) = l.
Proof.
  destruct p as [l0|]; simpl; [done|].
  intros H. symmetry. by apply nil_length_inv.
Qed.

Lemma store_back_store_back (p : option (list A)) l1 l2 :
  store_back (store_back p l1) l2 = store_back p l2.
Proof. destruct p; reflexivity. Qed.

Lemma store_back_deref (p : option (list A)) :
  store_back p (deref p) = p.
Proof. destruct p; reflexivity. Qed.
End PrefixUpdated.

Lemma prefix_updated_exists {A : Type} (n : nat) (f : nat -> A -> option A)
    (l : list A) :
  n ≤ length l ->
  (∀ i a, i < n -> l !! i = Some a -> is_Some (f i a)) ->
  ∃ l', prefix_updated n (fun i a b => f i a = Some b) l l'.
Proof.
  intros Hn Hf. destruct (for_loop_update_at_total n f l Hn Hf) as [l' Hl'].
  exists l'. by apply for_loop_update_at.
Qed.

(** Two arrays with the same first [n] elements. *)
Lemma take_eq_lookup {A : Type} (n : nat) (l l' : list A) :
  take n l = take n l' -> ∀ i, i < n -> l !! i = l' !! i.
Proof.
  intros H i Hi. rewrite <- (lookup_take_lt l n i), <- (lookup_take_lt l' n i) by done.
  by rewrite H.
Qed.

Lemma take_eq_of_lookup {A : Type} (n : nat) (l l' : list A) :
  (∀ i, i < n -> l !! i = l' !! i) -> take n l = take n l'.
Proof.
  intros H. apply list_eq. intros i. destruct (decide (i < n)) as [Hi|Hi].
  - rewrite !lookup_take_lt by done. by apply H.
  - rewrite !lookup_take_ge by lia. done.
Qed.

(** ** Sign symmetry of the floating-point operations *)

Lemma binary_round_aux_opp (s : bool) (m e : Z) (l : location) :
  binary_round_aux prec emax (negb s) m e l
  = fneg (binary_round_aux prec emax s m e l).
Proof.
  unfold binary_round_aux.
  destruct (shr_fexp prec emax m e l) as [mrs' e'].
  destruct (shr_fexp prec emax _ e' loc_Exact) as [mrs'' e''].
  destruct (shr_m mrs''); [reflexivity | | reflexivity].
  destruct (Z.leb e'' (emax - prec)); reflexivity.
Qed.

Lemma fneg_involutive (a : double) : fneg (fneg a) = a.
Proof. destruct a; simpl; rewrite ?negb_involutive; reflexivity. Qed.

Lemma xorb_negb_l' (a b : bool) : xorb (negb a) b = negb (xorb a b).
Proof. destruct a, b; reflexivity. Qed.

Lemma xorb_negb_r' (a b : bool) : xorb a (negb b) = negb (xorb a b).
Proof. destruct a, b; reflexivity. Qed.

Lemma fmul_fneg_l (a b : double) : fmul (fneg a) b = fneg (fmul a b).
Proof.
  destruct a as [sa|sa| |sa ma ea], b as [sb|sb| |sb mb eb]; simpl;
    rewrite ?xorb_negb_l'; try reflexivity.
  apply binary_round_aux_opp.
Qed.

Lemma fmul_fneg_r (a b : double) : fmul a (fneg b) = fneg (fmul a b).
Proof.
  destruct a as [sa|sa| |sa ma ea], b as [sb|sb| |sb mb eb]; simpl;
    rewrite ?xorb_negb_r'; try reflexivity.
  apply binary_round_aux_opp.
Qed.

Lemma fdiv_fneg_l (a b : double) : fdiv (fneg a) b = fneg (fdiv a b).
Proof.
  destruct a as [sa|sa| |sa ma ea], b as [sb|sb| |sb mb eb]; simpl;
    rewrite ?xorb_negb_l'; try reflexivity.
  destruct (SFdiv_core_binary prec emax (Z.pos ma) ea (Z.pos mb) eb)
    as [[mz ez] lz].
  apply binary_round_aux_opp.
Qed.

Lemma trunc_double_opp (s : bool) (m : positive) (e : Z) :
  trunc_double (negb s) m e = (- trunc_double s m e)%Z.
Proof. unfold trunc_double. destruct s; simpl; lia. Qed.

(** Negating the operand negates the integral part, as far as both
    conversions are defined. *)
Lemma int128_of_double_fneg (f : double) (d d' : Z) :
  int128_of_double f = Some d ->
  int128_of_double (fneg f) = Some d' ->
  d' = (- d)%Z.
Proof.
  destruct f as [s|s| |s m e]; simpl; try discriminate.
  - intros [= <-] [= <-]. reflexivity.
  - rewrite trunc_double_opp.
    destruct (in_int128 (trunc_double s m e)); [|discriminate].
    destruct (in_int128 (- trunc_double s m e)); [|discriminate].
    intros [= <-] [= <-]. reflexivity.
Qed.

(** The negated conversion is defined unless the integral part is the
    least 128-bit integer. *)
Lemma int128_of_double_fneg_defined (f : double) (d : Z) :
  int128_of_double f = Some d ->
  d ≠ INT128_MIN ->
  int128_of_double (fneg f) = Some (- d)%Z.
Proof.
  destruct f as [s|s| |s m e]; simpl; try discriminate.
  - intros [= <-] _. reflexivity.
  - rewrite trunc_double_opp.
    destruct (in_int128 (trunc_double s m e)) eqn:E; [|discriminate].
    intros [= <-] Hmin.
    replace (in_int128 (- trunc_double s m e)) with true; [reflexivity|].
    symmetry. unfold in_int128, INT128_MIN, INT128_MAX in *.
    apply andb_true_iff in E as [E1 E2].
    apply andb_true_iff. split; apply Z.leb_le;
      apply Z.leb_le in E1, E2; lia.
Qed.

(** ** Wrap-around arithmetic *)

Lemma in_int128_spec (z : Z) :
  in_int128 z = true ↔ (- 2 ^ 127 <= z < 2 ^ 127)%Z.
Proof.
  unfold in_int128, INT128_MIN, INT128_MAX.
  rewrite andb_true_iff, !Z.leb_le. lia.
Qed.

Lemma wrap128_in_range (z : Z) : in_int128 (wrap128 z) = true.
Proof.
  apply in_int128_spec. unfold wrap128.
  pose proof (Z.mod_pos_bound (z + 2 ^ 127) (2 ^ 128) ltac:(lia)).
  change (2 ^ 128)%Z with (2 * 2 ^ 127)%Z in *. lia.
Qed.

Lemma wrap128_id (z : Z) : in_int128 z = true -> wrap128 z = z.
Proof.
  intros H%in_int128_spec. unfold wrap128.
  rewrite Z.mod_small; [lia|].
  change (2 ^ 128)%Z with (2 * 2 ^ 127)%Z. lia.
Qed.

Lemma wrap128_add_l (a b : Z) : wrap128 (wrap128 a + b) = wrap128 (a + b).
Proof.
  unfold wrap128.
  replace ((a + 2 ^ 127) mod 2 ^ 128 - 2 ^ 127 + b + 2 ^ 127)%Z
    with ((a + 2 ^ 127) mod 2 ^ 128 + b)%Z by lia.
  rewrite Zplus_mod_idemp_l. f_equal. f_equal. lia.
Qed.

(** Integer addition is undone by adding the opposite, also across a
    wrap-around. *)
Lemma add128_opp (a d : Z) :
  in_int128 a = true -> add128 (add128 a d) (- d) = a.
Proof.
  intros Ha. unfold add128. rewrite wrap128_add_l.
  replace (a + d + - d)%Z with a by lia. apply wrap128_id, Ha.
Qed.

(** ** The integral part of a double *)

Lemma Qpow2_neg (p : positive) : Qpow2 (Zneg p) = (1 # 2 ^ p)%Q.
Proof. reflexivity. Qed.

Lemma Qpow2_pos (e : Z) : (0 < Qpow2 e)%Q.
Proof.
  destruct e as [|p|p]; simpl; [reflexivity | | reflexivity].
  unfold Qlt. simpl. pose proof (Z.pow_pos_nonneg 2 (Z.pos p)). lia.
Qed.

Lemma trunc_double_magnitude (m : positive) (e : Z) :
  (0 <= trunc_double false m e)%Z ∧
  (inject_Z (trunc_double false m e) <= inject_Z (Zpos m) * Qpow2 e)%Q ∧
  (inject_Z (Zpos m) * Qpow2 e < inject_Z (trunc_double false m e) + 1)%Q.
Proof.
  unfold trunc_double. simpl. destruct e as [|p|p]; simpl.
  - split; [lia|]. unfold Qle, Qlt. simpl. lia.
  - pose proof (Z.pow_pos_nonneg 2 (Z.pos p) ltac:(lia) ltac:(lia)).
    split; [lia|]. unfold Qle, Qlt. simpl. lia.
  - assert (H2 : (0 < 2 ^ Z.pos p)%Z) by (apply Z.pow_pos_nonneg; lia).
    pose proof (Z.div_pos (Z.pos m) (2 ^ Z.pos p) ltac:(lia) H2).
    pose proof (Z.mul_div_le (Z.pos m) (2 ^ Z.pos p) H2).
    pose proof (Z.mul_succ_div_gt (Z.pos m) (2 ^ Z.pos p) H2).
    split; [done|]. unfold Qle, Qlt. simpl.
    rewrite ?Pos.mul_1_l, Pos2Z.inj_pow. lia.
Qed.

Lemma SF2Q_finite (s : bool) (m : positive) (e : Z) :
  (SF2Q (S754_finite s m e)
   == if s then - (inject_Z (Zpos m) * Qpow2 e) else inject_Z (Zpos m) * Qpow2 e)%Q.
Proof.
  destruct s; simpl; [|reflexivity].
  change (Z.neg m) with (- Z.pos m)%Z. rewrite inject_Z_opp. ring.
Qed.

(** The cast to [__int128] takes the integral part: it truncates toward
    zero. *)
Lemma int128_of_double_truncates (f : double) (d : Z) :
  int128_of_double f = Some d ->
  is_finite f = true ∧ in_int128 d = true ∧ truncated_toward_zero (SF2Q f) d.
Proof.
  destruct f as [s|s| |s m e]; simpl; try discriminate.
  - intros [= <-]. split; [done|]. split; [done|].
    unfold truncated_toward_zero.
    split; intros _; split; first [reflexivity | compute; discriminate].
  - destruct (in_int128 (trunc_double s m e)) eqn:Hr; [|discriminate].
    intros [= <-]. split; [done|]. split; [done|].
    pose proof (trunc_double_magnitude m e) as (H0 & Hle & Hlt).
    pose proof (Qpow2_pos e) as Hp.
    assert (Hm : (0 < inject_Z (Z.pos m) * Qpow2 e)%Q).
    { apply Qmult_lt_0_compat; [reflexivity|done]. }
    unfold truncated_toward_zero.
    fold (SF2Q (S754_finite s m e)). rewrite SF2Q_finite.
    destruct s.
    + replace (trunc_double true m e) with (- trunc_double false m e)%Z
        by reflexivity.
      rewrite inject_Z_opp. split; intros ?; split; lra.
    + split; intros ?; split; lra.
Qed.

(** ** One particle *)

Ltac inv_bind H :=
  match type of H with
  | (?m ≫= _) = Some _ =>
      let E := fresh "E" in
      destruct m eqn:E; simpl in H; [|discriminate H]
  end.

Lemma drift_particle_Some (dt : double) (q q' : reb_particle_int) :
  drift_particle dt q = Some q' ↔
  ∃ dx dy dz,
    int128_of_double (fmul (fdiv dt two) (double_of_int128 (PI.vx q))) = Some dx ∧
    int128_of_double (fmul (fdiv dt two) (double_of_int128 (PI.vy q))) = Some dy ∧
    int128_of_double (fmul (fdiv dt two) (double_of_int128 (PI.vz q))) = Some dz ∧
    q' = PI.mk (add128 (PI.x q) dx) (add128 (PI.y q) dy) (add128 (PI.z q) dz)
               (PI.vx q) (PI.vy q) (PI.vz q).
Proof.
  unfold drift_particle. destruct q as [x y z vx vy vz]. simpl. split.
  - intros H. repeat inv_bind H. injection H as <-. eauto 10.
  - intros (dx & dy & dz & -> & -> & -> & ->). reflexivity.
Qed.

Lemma kick_particle_Some (s dt : double) (p : reb_particle)
    (q q' : reb_particle_int) :
  kick_particle s dt p q = Some q' ↔
  ∃ dvx dvy dvz,
    int128_of_double (fmul (fmul s dt) (P.ax p)) = Some dvx ∧
    int128_of_double (fmul (fmul s dt) (P.ay p)) = Some dvy ∧
    int128_of_double (fmul (fmul s dt) (P.az p)) = Some dvz ∧
    q' = PI.mk (PI.x q) (PI.y q) (PI.z q) (add128 (PI.vx q) dvx)
               (add128 (PI.vy q) dvy) (add128 (PI.vz q) dvz).
Proof.
  unfold kick_particle. destruct q as [x y z vx vy vz]. simpl. split.
  - intros H. repeat inv_bind H. injection H as <-. eauto 10.
  - intros (dx & dy & dz & -> & -> & -> & ->). reflexivity.
Qed.

Lemma to_int_particle_Some (p : reb_particle) (s : double)
    (q q' : reb_particle_int) :
  to_int_particle p s q = Some q' ↔
  ∃ x y z vx vy vz,
    int128_of_double (fmul (P.x p) s) = Some x ∧
    int128_of_double (fmul (P.y p) s) = Some y ∧
    int128_of_double (fmul (P.z p) s) = Some z ∧
    int128_of_double (fmul (P.vx p) s) = Some vx ∧
    int128_of_double (fmul (P.vy p) s) = Some vy ∧
    int128_of_double (fmul (P.vz p) s) = Some vz ∧
    q' = PI.mk x y z vx vy vz.
Proof.
  unfold to_int_particle. destruct q as [x y z vx vy vz]. simpl. split.
  - intros H. repeat inv_bind H. injection H as <-. eauto 15.
  - intros (x' & y' & z' & vx' & vy' & vz' & -> & -> & -> & -> & -> & -> & ->).
    reflexivity.
Qed.

(** The conversion overwrites all six fields: the old content of the slot
    does not matter. *)
Lemma to_int_particle_overwrites (p : reb_particle) (s : double)
    (q1 q2 : reb_particle_int) :
  to_int_particle p s q1 = to_int_particle p s q2.
Proof.
  unfold to_int_particle.
  repeat (match goal with |- (?m ≫= _) = _ => destruct m; simpl end);
    reflexivity.
Qed.

Lemma drift_particle_in_range (dt : double) (q q' : reb_particle_int) :
  drift_particle dt q = Some q' ->
  in_int128 (PI.x q') = true ∧ in_int128 (PI.y q') = true ∧
  in_int128 (PI.z q') = true ∧
  PI.vx q' = PI.vx q ∧ PI.vy q' = PI.vy q ∧ PI.vz q' = PI.vz q.
Proof.
  intros (dx & dy & dz & _ & _ & _ & ->)%drift_particle_Some. simpl.
  unfold add128. rewrite !wrap128_in_range. done.
Qed.

Lemma kick_particle_frame (s dt : double) (p : reb_particle)
    (q q' : reb_particle_int) :
  kick_particle s dt p q = Some q' ->
  PI.x q' = PI.x q ∧ PI.y q' = PI.y q ∧ PI.z q' = PI.z q.
Proof.
  intros (dx & dy & dz & _ & _ & _ & ->)%kick_particle_Some. done.
Qed.

(** A half-drift with [-dt] undoes a half-drift with [dt]. *)
Lemma drift_particle_reverse (dt : double) (q q1 q2 : reb_particle_int) :
  in_int128 (PI.x q) = true -> in_int128 (PI.y q) = true ->
  in_int128 (PI.z q) = true ->
  drift_particle dt q = Some q1 ->
  drift_particle (fneg dt) q1 = Some q2 ->
  q2 = q.
Proof.
  intros Hx Hy Hz (dx & dy & dz & Hdx & Hdy & Hdz & ->)%drift_particle_Some.
  intros (dx' & dy' & dz' & Hdx' & Hdy' & Hdz' & ->)%drift_particle_Some.
  simpl in *. rewrite fdiv_fneg_l, fmul_fneg_l in Hdx', Hdy', Hdz'.
  rewrite (int128_of_double_fneg _ _ _ Hdx Hdx'),
    (int128_of_double_fneg _ _ _ Hdy Hdy'),
    (int128_of_double_fneg _ _ _ Hdz Hdz').
  rewrite !add128_opp by done. destruct q; reflexivity.
Qed.

(** A kick with [-dt] undoes a kick with [dt] when both read the same
    accelerations. *)
Lemma kick_particle_reverse (s dt : double) (p p' : reb_particle)
    (q q1 q2 : reb_particle_int) :
  in_int128 (PI.vx q) = true -> in_int128 (PI.vy q) = true ->
  in_int128 (PI.vz q) = true ->
  P.ax p' = P.ax p -> P.ay p' = P.ay p -> P.az p' = P.az p ->
  kick_particle s dt p q = Some q1 ->
  kick_particle s (fneg dt) p' q1 = Some q2 ->
  q2 = q.
Proof.
  intros Hx Hy Hz Hax Hay Haz.
  intros (dx & dy & dz & Hdx & Hdy & Hdz & ->)%kick_particle_Some.
  intros (dx' & dy' & dz' & Hdx' & Hdy' & Hdz' & ->)%kick_particle_Some.
  simpl in *. rewrite Hax in Hdx'. rewrite Hay in Hdy'. rewrite Haz in Hdz'.
  rewrite fmul_fneg_r, fmul_fneg_l in Hdx', Hdy', Hdz'.
  rewrite (int128_of_double_fneg _ _ _ Hdx Hdx'),
    (int128_of_double_fneg _ _ _ Hdy Hdy'),
    (int128_of_double_fneg _ _ _ Hdz Hdz').
  rewrite !add128_opp by done. destruct q; reflexivity.
Qed.

Lemma drift_Some (N : nat) (dt : double) (psi psi' : list reb_particle_int) :
  drift N dt psi = Some psi' ↔ prefix_updated N (drift_rel dt) psi psi'.
Proof. unfold drift. apply for_loop_update_at. Qed.

Lemma kick_Some (N : nat) (s dt : double) (ps : list reb_particle)
    (psi psi' : list reb_particle_int) :
  kick N s dt ps psi = Some psi' ↔ prefix_updated N (kick_rel s dt ps) psi psi'.
Proof. unfold kick. apply for_loop_read_update_at. Qed.

Lemma to_int_Some (psi : list reb_particle_int) (ps : list reb_particle)
    (N : nat) (s : double) (psi' : list reb_particle_int) :
  to_int psi ps N s = Some psi' ↔ prefix_updated N (to_int_rel s ps) psi psi'.
Proof. unfold to_int. apply for_loop_read_update_at. Qed.

Lemma to_double_Some (ps : list reb_particle) (psi : list reb_particle_int)
    (N : nat) (s : double) (ps' : list reb_particle) :
  to_double ps psi N s = Some ps' ↔ prefix_updated N (to_double_rel s psi) ps ps'.
Proof.
  unfold to_double. rewrite for_loop_read_update_at.
  split; apply prefix_updated_mono; intros i a b _ _ (q & Hq & Hb);
    exists q; (split; [done|]); congruence.
Qed.

Lemma reb_update_acceleration_Some
    (accel : reb_simulation -> nat -> double * double * double)
    (r r' : reb_simulation) :
  reb_update_acceleration accel r = Some r' ↔
  ∃ ps, prefix_updated (Sim.N r) (set_acc_rel (accel r)) (Sim.particles r) ps ∧
        r' = Sim.set_particles ps r.
Proof.
  unfold reb_update_acceleration. split.
  - intros H. inv_bind H. injection H as <-.
    apply for_loop_update_at in E. exists l. split; [|done].
    revert E. apply prefix_updated_mono. intros i a b _ _ [= <-]. done.
  - intros (ps & Hps & ->).
    assert (E : for_loop (Sim.N r)
              (fun i ps => update_at i (fun p => Some (P.set_acc (accel r i) p)) ps)
              (Sim.particles r) = Some ps).
    { apply for_loop_update_at. revert Hps. apply prefix_updated_mono.
      intros i a b _ _ ->. done. }
    rewrite E. done.
Qed.

Lemma with_p_curr_Some
    (f : list reb_particle_int -> option (list reb_particle_int))
    (r r' : reb_simulation) :
  with_p_curr f r = Some r' ↔
  ∃ psi, f (shadow r) = Some psi ∧
         r' = Sim.set_ri_janus
                (Janus.set_p_curr
                   (store_back (Janus.p_curr (Sim.ri_janus r)) psi)
                   (Sim.ri_janus r)) r.
Proof.
  unfold with_p_curr, shadow. split.
  - intros H. inv_bind H. injection H as <-. eauto.
  - intros (psi & -> & ->). done.
Qed.

(** ** The sub-step *)

Section Leapfrog.
Variable accel : reb_simulation -> nat -> double * double * double.

Lemma leapfrog_before_force_Some (r : reb_simulation) (dt : double)
    (rf : reb_simulation) :
  leapfrog_before_force r dt = Some rf ↔
  ∃ psi1 ps1,
    prefix_updated (Sim.N r) (drift_rel dt) (shadow r) psi1 ∧
    prefix_updated (Sim.N r)
      (to_double_rel (Janus.scale (Sim.ri_janus r)) psi1) (Sim.particles r) ps1 ∧
    rf = Sim.mk (Sim.t r) (Sim.dt r) (Sim.N r) ps1 0
           (Janus.mk (Janus.scale (Sim.ri_janus r))
              (Janus.allocated_N (Sim.ri_janus r))
              (store_back (Janus.p_curr (Sim.ri_janus r)) psi1)).
Proof.
  unfold leapfrog_before_force. split.
  - intros H. inv_bind H. apply with_p_curr_Some in E as (psi1 & Hd & ->).
    apply drift_Some in Hd. simpl in H.
    rewrite deref_store_back in H by (by apply prefix_updated_length in Hd).
    inv_bind H. injection H as <-. apply to_double_Some in E.
    exists psi1, l. done.
  - intros (psi1 & ps1 & Hd & Hps & ->).
    pose proof (proj2 (drift_Some _ _ _ _) Hd) as Hd'.
    rewrite (proj2 (with_p_curr_Some _ _ _) (ex_intro _ psi1 (conj Hd' eq_refl))).
    simpl.
    rewrite deref_store_back by (by apply prefix_updated_length in Hd).
    rewrite (proj2 (to_double_Some _ _ _ _ _) Hps). done.
Qed.

Lemma leapfrog_from_force_Some (r : reb_simulation) (dt : double)
    (r' : reb_simulation) :
  leapfrog_from_force accel r dt = Some r' ↔
  ∃ ps2 psi2 psi3,
    prefix_updated (Sim.N r) (set_acc_rel (accel r)) (Sim.particles r) ps2 ∧
    prefix_updated (Sim.N r)
      (kick_rel (Janus.scale (Sim.ri_janus r)) dt ps2) (shadow r) psi2 ∧
    prefix_updated (Sim.N r) (drift_rel dt) psi2 psi3 ∧
    r' = Sim.mk (Sim.t r) (Sim.dt r) (Sim.N r) ps2 (Sim.gravity_ignore_terms r)
           (Janus.mk (Janus.scale (Sim.ri_janus r))
              (Janus.allocated_N (Sim.ri_janus r))
              (store_back (Janus.p_curr (Sim.ri_janus r)) psi3)).
Proof.
  unfold leapfrog_from_force. split.
  - intros H. inv_bind H.
    apply reb_update_acceleration_Some in E as (ps2 & Hacc & ->).
    inv_bind H. apply with_p_curr_Some in E as (psi2 & Hk & ->).
    apply with_p_curr_Some in H as (psi3 & Hd & ->).
    unfold shadow in *. simpl in *. apply kick_Some in Hk.
    rewrite deref_store_back in Hd by (by apply prefix_updated_length in Hk).
    apply drift_Some in Hd. rewrite store_back_store_back.
    exists ps2, psi2, psi3. done.
  - intros (ps2 & psi2 & psi3 & Hacc & Hk & Hd & ->).
    rewrite (proj2 (reb_update_acceleration_Some accel r _)
               (ex_intro _ ps2 (conj Hacc eq_refl))). simpl.
    pose proof (proj2 (kick_Some _ _ _ _ _ _) Hk) as Hk'.
    erewrite (proj2 (with_p_curr_Some _ _ _)); last first.
    { exists psi2. split; [exact Hk'|reflexivity]. }
    simpl. apply with_p_curr_Some. exists psi3. unfold shadow. simpl.
    rewrite deref_store_back by (by apply prefix_updated_length in Hk).
    split; [by apply drift_Some|]. by rewrite store_back_store_back.
Qed.

Lemma leapfrog_Some (r : reb_simulation) (dt : double) (r' : reb_simulation) :
  leapfrog accel r dt = Some r' ↔
  ∃ rf, leapfrog_before_force r dt = Some rf ∧
        leapfrog_from_force accel rf dt = Some r'.
Proof.
  unfold leapfrog. split.
  - intros H. inv_bind H. eauto.
  - intros (rf & -> & H). done.
Qed.

(** What a sub-step leaves alone. *)
Lemma leapfrog_frame (r : reb_simulation) (dt : double) (r' : reb_simulation) :
  leapfrog accel r dt = Some r' ->
  Sim.t r' = Sim.t r ∧ Sim.dt r' = Sim.dt r ∧ Sim.N r' = Sim.N r ∧
  Sim.gravity_ignore_terms r' = 0%Z ∧
  Janus.scale (Sim.ri_janus r') = Janus.scale (Sim.ri_janus r) ∧
  Janus.allocated_N (Sim.ri_janus r') = Janus.allocated_N (Sim.ri_janus r) ∧
  length (Sim.particles r') = length (Sim.particles r) ∧
  length (shadow r') = length (shadow r) ∧
  (Janus.p_curr (Sim.ri_janus r') = None ↔
   Janus.p_curr (Sim.ri_janus r) = None).
Proof.
  intros (rf & Hb & Hf)%leapfrog_Some.
  apply leapfrog_before_force_Some in Hb as (psi1 & ps1 & Hd1 & Hps1 & ->).
  apply leapfrog_from_force_Some in Hf
    as (ps2 & psi2 & psi3 & Hacc & Hk & Hd2 & ->).
  unfold shadow in *. simpl in *.
  rewrite deref_store_back in Hk by (by apply prefix_updated_length in Hd1).
  apply prefix_updated_length in Hd1, Hps1, Hacc, Hk, Hd2.
  rewrite store_back_store_back.
  rewrite deref_store_back by congruence.
  repeat split; try congruence.
  - destruct (Janus.p_curr (Sim.ri_janus r)); [discriminate|done].
  - intros ->. done.
Qed.
End Leapfrog.

(** ** Time reversibility *)

Section Reversibility.
Variable accel : reb_simulation -> nat -> double * double * double.

(** The way back, step by step.  At the force evaluation of the way
    back the positions are those of the way there, the velocities are
    not: the hypothesis on the accelerations may use the former. *)
Lemma leapfrog_reverse (r : reb_simulation) (dt : double)
    (r1 r2 : reb_simulation) :
  Forall wf_particle_int (shadow r) ->
  leapfrog accel r dt = Some r1 ->
  leapfrog accel r1 (fneg dt) = Some r2 ->
  (∀ rf rb,
      leapfrog_before_force r dt = Some rf ->
      leapfrog_before_force r1 (fneg dt) = Some rb ->
      same_positions rf rb ->
      ∀ i, i < Sim.N r -> accel rb i = accel rf i) ->
  Janus.p_curr (Sim.ri_janus r2) = Janus.p_curr (Sim.ri_janus r).
Proof.
  intros Hwf (rf & Hrf & Hfwd)%leapfrog_Some (rb & Hrb & Hbwd)%leapfrog_Some
    Hacc.
  specialize (Hacc rf rb Hrf Hrb).
  apply leapfrog_before_force_Some in Hrf as (psi1 & ps1 & Hd1 & Hps1 & ->).
  apply leapfrog_from_force_Some in Hfwd
    as (ps2 & psi2 & psi3 & Ha & Hk & Hd2 & ->).
  apply leapfrog_before_force_Some in Hrb as (psi4 & ps3 & Hd3 & Hps3 & ->).
  apply leapfrog_from_force_Some in Hbwd
    as (ps4 & psi5 & psi6 & Ha' & Hk' & Hd4 & ->).
  unfold shadow in *. simpl in *.
  rewrite !store_back_store_back in *.
  set (p := Janus.p_curr (Sim.ri_janus r)) in *.
  set (s := Janus.scale (Sim.ri_janus r)) in *.
  set (N := Sim.N r) in *.
  pose proof (prefix_updated_length _ _ _ _ Hd1) as L1.
  pose proof (prefix_updated_length _ _ _ _ Hk) as L2.
  rewrite deref_store_back in Hk, L2 by done.
  pose proof (prefix_updated_length _ _ _ _ Hd2) as L3.
  rewrite deref_store_back in Hd3 by congruence.
  pose proof (prefix_updated_length _ _ _ _ Hd3) as L4.
  rewrite deref_store_back in Hk' by congruence.
  (* the first half-drift of the way back undoes the last one *)
  assert (psi4 = psi2) as ->.
  { eapply prefix_updated_inverse; [|exact Hd2|exact Hd3].
    intros i a b c Hi Hia Hab Hbc.
    destruct (prefix_updated_lookup_r _ _ _ _ _ _ Hk Hi Hia)
      as (a1 & Hia1 & p1 & _ & Hkick).
    destruct (prefix_updated_lookup_r _ _ _ _ _ _ Hd1 Hi Hia1)
      as (a0 & _ & Hdrift).
    apply drift_particle_in_range in Hdrift as (Hx & Hy & Hz & _).
    apply kick_particle_frame in Hkick as (Ex & Ey & Ez).
    eapply drift_particle_reverse; [| | |exact Hab|exact Hbc]; congruence. }
  (* so both force evaluations see the same positions *)
  assert (Hpos : ∀ i, i < N ->
            (fun p => (P.x p, P.y p, P.z p, P.m p)) <$> ps1 !! i
            = (fun p => (P.x p, P.y p, P.z p, P.m p)) <$> ps3 !! i).
  { intros i Hi.
    destruct (lookup_lt_is_Some_2 (Sim.particles r) i) as [p0 Hp0].
    { destruct Hps1 as (_ & ? & _). lia. }
    destruct (prefix_updated_lookup _ _ _ _ _ _ Hps1 Hi Hp0)
      as (p1 & Hp1 & q1 & Hq1 & ->).
    destruct (prefix_updated_lookup _ _ _ _ _ _ Ha Hi Hp1)
      as (p2 & Hp2 & ->).
    destruct (prefix_updated_lookup _ _ _ _ _ _ Hps3 Hi Hp2)
      as (p3 & Hp3 & q2 & Hq2 & ->).
    destruct (prefix_updated_lookup _ _ _ _ _ _ Hk Hi Hq1)
      as (q2' & Hq2' & p2' & _ & Hkick).
    assert (q2' = q2) as -> by congruence.
    apply kick_particle_frame in Hkick as (Ex & Ey & Ez).
    rewrite Hp1, Hp3. simpl. rewrite Ex, Ey, Ez. done. }
  assert (Hsame : same_positions
            (Sim.mk (Sim.t r) (Sim.dt r) N ps1 0
               (Janus.mk s (Janus.allocated_N (Sim.ri_janus r))
                  (store_back p psi1)))
            (Sim.mk (Sim.t r) (Sim.dt r) N ps3 0
               (Janus.mk s (Janus.allocated_N (Sim.ri_janus r))
                  (store_back p psi2)))).
  { repeat split. simpl. apply list_eq. intros i.
    rewrite !list_lookup_fmap.
    destruct (decide (i < N)) as [Hi|Hi].
    - rewrite !lookup_take_lt by done. by apply Hpos.
    - rewrite !lookup_take_ge by lia. done. }
  specialize (Hacc Hsame).
  (* the kick of the way back undoes the kick *)
  assert (psi5 = psi1) as ->.
  { eapply prefix_updated_inverse; [|exact Hk|exact Hk'].
    intros i a b c Hi Hia (p2 & Hp2 & Hab) (p4 & Hp4 & Hbc).
    destruct (prefix_updated_lookup_r _ _ _ _ _ _ Hd1 Hi Hia)
      as (a0 & Hia0 & Hdrift).
    apply drift_particle_in_range in Hdrift as (_ & _ & _ & Ex & Ey & Ez).
    pose proof (Forall_lookup_1 _ _ _ _ Hwf Hia0)
      as (_ & _ & _ & Hvx & Hvy & Hvz).
    destruct (prefix_updated_lookup_r _ _ _ _ _ _ Ha Hi Hp2) as (q2 & _ & ->).
    destruct (prefix_updated_lookup_r _ _ _ _ _ _ Ha' Hi Hp4) as (q4 & _ & ->).
    eapply kick_particle_reverse; [| | | | | |exact Hab|exact Hbc];
      simpl; rewrite ?Hacc by done; congruence. }
  (* the last half-drift of the way back undoes the first one *)
  assert (psi6 = deref p) as ->.
  { eapply prefix_updated_inverse; [|exact Hd1|exact Hd4].
    intros i a b c Hi Hia Hab Hbc.
    pose proof (Forall_lookup_1 _ _ _ _ Hwf Hia) as (Hx & Hy & Hz & _).
    eapply drift_particle_reverse; [| | |exact Hab|exact Hbc]; done. }
  apply store_back_deref.
Qed.

(** C1 (amended).  A sub-step with [dt] followed by a sub-step with
    [-dt] restores the shadow array, every wide integer of every particle,
    to its prior value, when the force evaluation returns on the way back
    the accelerations it returned on the way there.  For this it may rely
    on the positions and masses, which are the same at the two
    evaluations, but not on the velocities, which are not.  Both sub-steps
    are taken to be defined, and the fields of the initial shadow state to
    be 128-bit values. *)
Theorem leapfrog_reversible (r : reb_simulation) (dt : double)
    (r1 r2 : reb_simulation) :
  Forall wf_particle_int (shadow r) ->
  leapfrog accel r dt = Some r1 ->
  leapfrog accel r1 (fneg dt) = Some r2 ->
  (∀ rf rb,
      leapfrog_before_force r dt = Some rf ->
      leapfrog_before_force r1 (fneg dt) = Some rb ->
      same_positions rf rb ->
      ∀ i, i < Sim.N r -> accel rb i = accel rf i) ->
  Janus.p_curr (Sim.ri_janus r2) = Janus.p_curr (Sim.ri_janus r).
Proof.
  intros Hwf Hfwd Hbwd Hacc.
  apply (leapfrog_reverse r dt r1 r2 Hwf Hfwd Hbwd).
  intros rf rb Hrf Hrb Hsame. by apply Hacc.
Qed.

(** For a force that reads positions and masses only, the hypothesis on
    the accelerations holds by itself. *)
Lemma leapfrog_reversible_positional (r : reb_simulation) (dt : double)
    (r1 r2 : reb_simulation) :
  force_positional accel ->
  Forall wf_particle_int (shadow r) ->
  leapfrog accel r dt = Some r1 ->
  leapfrog accel r1 (fneg dt) = Some r2 ->
  Janus.p_curr (Sim.ri_janus r2) = Janus.p_curr (Sim.ri_janus r).
Proof.
  intros Hforce Hwf Hfwd Hbwd.
  apply (leapfrog_reverse r dt r1 r2 Hwf Hfwd Hbwd).
  intros rf rb Hrf Hrb Hsame i Hi. symmetry. apply Hforce; [done|].
  apply leapfrog_before_force_Some in Hrf as (? & ? & _ & _ & ->). done.
Qed.
End Reversibility.

(** ** The driver *)

Section Driver.
Variable accel : reb_simulation -> nat -> double * double * double.
(** What [realloc] returns, should the step call it. *)
Variable o : realloc_outcome.

Lemma part1_allocate_frame (r r' : reb_simulation) :
  part1_allocate o r = Some r' ->
  Sim.t r' = Sim.t r ∧ Sim.dt r' = Sim.dt r ∧ Sim.N r' = Sim.N r ∧
  Sim.particles r' = Sim.particles r ∧
  Sim.gravity_ignore_terms r' = 0%Z ∧
  Janus.scale (Sim.ri_janus r') = Janus.scale (Sim.ri_janus r).
Proof.
  unfold part1_allocate. case_decide.
  - intros (psi & _ & ->)%with_p_curr_Some. done.
  - intros [= <-]. done.
Qed.

(** The nine calls of [leapfrog] read [r->dt] anew each time; no
    sub-step changes it, so all nine use the timestep at entry. *)
Lemma part1_unfold (r : reb_simulation) :
  reb_integrator_janus_part1 accel o r
  = part1_allocate o r ≫=
      substeps accel (Sim.dt r)
        [gamma1; gamma2; gamma3; gamma4; gamma5; gamma4; gamma3; gamma2; gamma1].
Proof.
  unfold reb_integrator_janus_part1, substeps.
  destruct (part1_allocate o r) as [r0|] eqn:E0; [|reflexivity].
  apply part1_allocate_frame in E0 as (_ & Hdt & _). simpl.
  rewrite <- Hdt. clear Hdt.
  repeat
    (match goal with
     | |- (leapfrog accel ?a ?d ≫= _) = _ =>
         let r' := fresh "r" in
         let E := fresh "E" in
         destruct (leapfrog accel a d) as [r'|] eqn:E; simpl;
         [apply leapfrog_frame in E as (_ & <- & _)|reflexivity]
     end).
  reflexivity.
Qed.

(** C2.  One call of [reb_integrator_janus_part1] is the allocation step
    followed by nine sub-steps, whose durations are the timestep [r->dt]
    at entry times gamma1, gamma2, gamma3, gamma4, gamma5, gamma4, gamma3,
    gamma2, gamma1, in this order; each coefficient is the double nearest
    to the decimal constant of the source. *)
Theorem part1_nine_substeps (r : reb_simulation) :
  reb_integrator_janus_part1 accel o r
  = part1_allocate o r ≫=
      substeps accel (Sim.dt r)
        [gamma1; gamma2; gamma3; gamma4; gamma5; gamma4; gamma3; gamma2; gamma1]
  ∧ length [gamma1; gamma2; gamma3; gamma4; gamma5; gamma4; gamma3; gamma2; gamma1]
    = 9
  ∧ (Qabs (SF2Q gamma1 - Qdecimal false 39216144400731413928 20) <= 1 # 2 ^ 55)%Q
  ∧ (Qabs (SF2Q gamma2 - Qdecimal false 33259913678935943860 20) <= 1 # 2 ^ 55)%Q
  ∧ (Qabs (SF2Q gamma3 - Qdecimal true 70624617255763935981 20) <= 1 # 2 ^ 54)%Q
  ∧ (Qabs (SF2Q gamma4 - Qdecimal false 82213596293550800230 21) <= 1 # 2 ^ 57)%Q
  ∧ (Qabs (SF2Q gamma5 - Qdecimal false 79854399093482996340 20) <= 1 # 2 ^ 54)%Q.
Proof.
  split; [apply part1_unfold|].
  split; [reflexivity|repeat split; vm_compute; discriminate].
Qed.
End Driver.

(** ** The conversion to doubles and the finalization *)

Lemma to_double_particle_coords (q : reb_particle_int) (s : double)
    (p : reb_particle) :
  coords (to_double_particle q s p) = double_coords q s.
Proof. reflexivity. Qed.

Lemma to_double_particle_frame (q : reb_particle_int) (s : double)
    (p : reb_particle) :
  P.m (to_double_particle q s p) = P.m p ∧
  P.ax (to_double_particle q s p) = P.ax p ∧
  P.ay (to_double_particle q s p) = P.ay p ∧
  P.az (to_double_particle q s p) = P.az p.
Proof. done. Qed.

(** The conversion is defined as soon as both arrays have [N] elements. *)
Lemma to_double_total (ps : list reb_particle) (psi : list reb_particle_int)
    (N : nat) (s : double) :
  N ≤ length ps -> N ≤ length psi -> is_Some (to_double ps psi N s).
Proof.
  intros Hps Hpsi. unfold to_double.
  rewrite (for_loop_ext N _
             (fun i => update_at i (fun p =>
                Some (to_double_particle
                        (default PI.indeterminate (psi !! i)) s p)))).
  - apply for_loop_update_at_total; eauto.
  - intros i l Hi.
    destruct (lookup_lt_is_Some_2 psi i ltac:(lia)) as [q ->]. reflexivity.
Qed.

Lemma part2_Some (r r2 : reb_simulation) :
  reb_integrator_janus_part2 r = Some r2 ↔
  ∃ ps,
    prefix_updated (Sim.N r)
      (to_double_rel (Janus.scale (Sim.ri_janus r)) (shadow r))
      (Sim.particles r) ps ∧
    r2 = Sim.mk (fadd (Sim.t r) (Sim.dt r)) (Sim.dt r) (Sim.N r) ps
           (Sim.gravity_ignore_terms r) (Sim.ri_janus r).
Proof.
  unfold reb_integrator_janus_part2, shadow. split.
  - intros H. inv_bind H. injection H as <-. apply to_double_Some in E. eauto.
  - intros (ps & Hps%to_double_Some & ->). rewrite Hps. done.
Qed.

(** C10.  [to_double] and [reb_integrator_janus_part2] write nothing but
    the coordinates x, y, z, vx, vy, vz of the first [N] particles: the mass
    and the acceleration of every particle, the particles from index [N]
    on, the integrator state (scale, allocated_N, p_curr and its content)
    and [dt] are as before; of the other fields of the simulation only [t]
    changes. *)
Theorem part2_frame (r r2 : reb_simulation) :
  (∀ ps psi N s ps',
      to_double ps psi N s = Some ps' ->
      length ps' = length ps ∧
      ∀ i p p', ps !! i = Some p -> ps' !! i = Some p' ->
        P.m p' = P.m p ∧ P.ax p' = P.ax p ∧ P.ay p' = P.ay p ∧
        P.az p' = P.az p ∧ (N ≤ i -> p' = p))
  ∧ (reb_integrator_janus_part2 r = Some r2 ->
     Sim.ri_janus r2 = Sim.ri_janus r ∧ Sim.dt r2 = Sim.dt r ∧
     Sim.N r2 = Sim.N r ∧
     Sim.gravity_ignore_terms r2 = Sim.gravity_ignore_terms r ∧
     Sim.t r2 = fadd (Sim.t r) (Sim.dt r) ∧
     length (Sim.particles r2) = length (Sim.particles r) ∧
     ∀ i p p', Sim.particles r !! i = Some p ->
       Sim.particles r2 !! i = Some p' ->
       P.m p' = P.m p ∧ P.ax p' = P.ax p ∧ P.ay p' = P.ay p ∧
       P.az p' = P.az p ∧ (Sim.N r ≤ i -> p' = p)).
Proof.
  assert (Hto : ∀ ps psi N s ps',
      to_double ps psi N s = Some ps' ->
      length ps' = length ps ∧
      ∀ i p p', ps !! i = Some p -> ps' !! i = Some p' ->
        P.m p' = P.m p ∧ P.ax p' = P.ax p ∧ P.ay p' = P.ay p ∧
        P.az p' = P.az p ∧ (N ≤ i -> p' = p)).
  { intros ps psi N s ps' H%to_double_Some.
    split; [by eapply prefix_updated_length|].
    intros i p p' Hp Hp'. destruct (decide (i < N)) as [Hi|Hi].
    - destruct (prefix_updated_lookup _ _ _ _ _ _ H Hi Hp)
        as (b & Hb & q & _ & ->).
      assert (p' = to_double_particle q s p) as -> by congruence.
      repeat split; lia.
    - rewrite (prefix_updated_lookup_ge _ _ _ _ _ H) in Hp' by lia.
      assert (p' = p) as -> by congruence. done. }
  split; [exact Hto|].
  unfold reb_integrator_janus_part2. intros H. inv_bind H.
  injection H as <-. simpl. apply Hto in E as (Hlen & Hframe). done.
Qed.

(** ** Allocation and reset *)

(** C7.  [reb_integrator_janus_reset] clears the allocation count and
    leaves the null pointer in [p_curr], touching nothing else; on the
    deallocated state it changes nothing, and a second reset in a row
    changes nothing more. *)
Theorem reset_idempotent (r : reb_simulation) :
  Janus.allocated_N (Sim.ri_janus (reb_integrator_janus_reset r)) = 0 ∧
  Janus.p_curr (Sim.ri_janus (reb_integrator_janus_reset r)) = None ∧
  reb_integrator_janus_reset r
  = Sim.set_ri_janus (Janus.mk (Janus.scale (Sim.ri_janus r)) 0 None) r ∧
  (Janus.allocated_N (Sim.ri_janus r) = 0 ->
   Janus.p_curr (Sim.ri_janus r) = None ->
   reb_integrator_janus_reset r = r) ∧
  reb_integrator_janus_reset (reb_integrator_janus_reset r)
  = reb_integrator_janus_reset r.
Proof.
  destruct r as [t dt N ps g [s n [psi|]]]; unfold reb_integrator_janus_reset;
    simpl; repeat split; try done.
  all: intros -> _; done.
Qed.

Section Lifecycle.
Variable accel : reb_simulation -> nat -> double * double * double.
Variable o : realloc_outcome.

Lemma substeps_nil (dt : double) (r : reb_simulation) :
  substeps accel dt [] r = Some r.
Proof. reflexivity. Qed.

Lemma substeps_cons (dt g : double) (gs : list double) (r : reb_simulation) :
  substeps accel dt (g :: gs) r
  = leapfrog accel r (fmul g dt) ≫= substeps accel dt gs.
Proof.
  unfold substeps. simpl.
  destruct (leapfrog accel r (fmul g dt)) as [r'|]; simpl; [reflexivity|].
  induction gs as [|g' gs IH]; [reflexivity | exact IH].
Qed.

Lemma substeps_snoc (dt g : double) (gs : list double) (r : reb_simulation) :
  substeps accel dt (gs ++ [g]) r
  = substeps accel dt gs r ≫= fun r' => leapfrog accel r' (fmul g dt).
Proof. unfold substeps. rewrite foldl_app. reflexivity. Qed.

(** What every sub-step preserves, the sequence preserves. *)
Lemma substeps_preserve (I : reb_simulation -> Prop) (dt : double)
    (gs : list double) (r r' : reb_simulation) :
  (∀ r d r', I r -> leapfrog accel r d = Some r' -> I r') ->
  I r -> substeps accel dt gs r = Some r' -> I r'.
Proof.
  intros Hstep. revert r. induction gs as [|g gs IH]; intros r Hr.
  - rewrite substeps_nil. intros [= <-]. done.
  - rewrite substeps_cons. intros H. inv_bind H. eauto.
Qed.

Lemma part1_Some (r r1 : reb_simulation) :
  reb_integrator_janus_part1 accel o r = Some r1 ↔
  ∃ r0, part1_allocate o r = Some r0 ∧
        substeps accel (Sim.dt r)
          [gamma1; gamma2; gamma3; gamma4; gamma5; gamma4; gamma3; gamma2; gamma1]
          r0 = Some r1.
Proof.
  rewrite part1_unfold. split.
  - intros H. inv_bind H. eauto.
  - intros (r0 & -> & H). done.
Qed.

Lemma part1_allocate_Some (r r0 : reb_simulation) :
  part1_allocate o r = Some r0 ↔
  (Janus.allocated_N (Sim.ri_janus r) = Sim.N r ∧
   r0 = Sim.set_gravity_ignore_terms 0 r)
  ∨ (Janus.allocated_N (Sim.ri_janus r) ≠ Sim.N r ∧ o = returns_block ∧
     ∃ psi,
       prefix_updated (Sim.N r)
         (to_int_rel (Janus.scale (Sim.ri_janus r)) (Sim.particles r))
         (resize (Sim.N r) PI.indeterminate (shadow r)) psi ∧
       r0 = Sim.mk (Sim.t r) (Sim.dt r) (Sim.N r) (Sim.particles r) 0
              (Janus.mk (Janus.scale (Sim.ri_janus r)) (Sim.N r) (Some psi)))
  ∨ (Janus.allocated_N (Sim.ri_janus r) ≠ Sim.N r ∧ o = returns_null ∧
     Sim.N r = 0 ∧
     r0 = Sim.mk (Sim.t r) (Sim.dt r) (Sim.N r) (Sim.particles r) 0
            (Janus.mk (Janus.scale (Sim.ri_janus r)) (Sim.N r) None)).
Proof.
  unfold part1_allocate. case_decide as Hn; simpl.
  - rewrite with_p_curr_Some. unfold shadow, realloc.
    destruct o; simpl.
    + setoid_rewrite to_int_Some. split.
      * intros (psi & Hpsi & ->). right. left. eauto.
      * intros [[? _]|[(_ & _ & psi & Hpsi & ->)|(_ & ? & _)]];
          [done| |done]. eauto.
    + split.
      * intros (psi & Hpsi%to_int_Some & ->).
        right. right. split; [done|]. split; [done|].
        destruct Hpsi as (_ & Hb & _). simpl in Hb.
        assert (HN : Sim.N r = 0) by lia. split; [done|reflexivity].
      * intros [[? _]|[(_ & ? & _)|(_ & _ & HN & ->)]]; [done|done|].
        exists []. split; [rewrite HN; reflexivity | reflexivity].
  - split.
    + intros [= <-]. left. split; [|done].
      destruct (decide (Janus.allocated_N (Sim.ri_janus r) = Sim.N r)); done.
    + intros [[_ ->]|[[? _]|[? _]]]; done.
Qed.


End Lifecycle.

(** ** What the two halves of a step do *)

Section Halves.
Variable accel : reb_simulation -> nat -> double * double * double.
Variable o : realloc_outcome.

Lemma substeps_frame (dt : double) (gs : list double) (r r' : reb_simulation) :
  substeps accel dt gs r = Some r' ->
  Sim.t r' = Sim.t r ∧ Sim.dt r' = Sim.dt r ∧ Sim.N r' = Sim.N r ∧
  Janus.scale (Sim.ri_janus r') = Janus.scale (Sim.ri_janus r).
Proof.
  apply (substeps_preserve accel
           (fun r' => Sim.t r' = Sim.t r ∧ Sim.dt r' = Sim.dt r ∧
                      Sim.N r' = Sim.N r ∧
                      Janus.scale (Sim.ri_janus r')
                      = Janus.scale (Sim.ri_janus r))); [|done].
  intros r1 d r2 (Ht & Hdt & HN & Hs)
    (Ht' & Hdt' & HN' & _ & Hs' & _)%leapfrog_frame.
  repeat split; congruence.
Qed.

(** After the force evaluation nothing writes the coordinates of the
    floating-point particles: they stay the conversion of the shadow
    state as it was before the kick. *)
Lemma leapfrog_particles (r : reb_simulation) (d : double)
    (rf r' : reb_simulation) :
  leapfrog_before_force r d = Some rf ->
  leapfrog_from_force accel rf d = Some r' ->
  ∀ i p, i < Sim.N r -> Sim.particles r' !! i = Some p ->
    ∃ q, shadow rf !! i = Some q ∧
         coords p = double_coords q (Janus.scale (Sim.ri_janus r)).
Proof.
  intros (psi1 & ps1 & Hd1 & Hps1 & ->)%leapfrog_before_force_Some.
  intros (ps2 & psi2 & psi3 & Ha & _ & _ & ->)%leapfrog_from_force_Some.
  unfold shadow in *. simpl in *.
  rewrite deref_store_back by (by apply prefix_updated_length in Hd1).
  intros i p Hi Hp.
  destruct (prefix_updated_lookup_r _ _ _ _ _ _ Ha Hi Hp) as (p1 & Hp1 & ->).
  destruct (prefix_updated_lookup_r _ _ _ _ _ _ Hps1 Hi Hp1)
    as (p0 & Hp0 & q & Hq & ->).
  exists q. done.
Qed.

(** C4.  [reb_integrator_janus_part1] leaves the clock [t] as it is, and
    its last write to the coordinates of the floating-point particles is
    the conversion before the last kick: they hold the shadow state as it
    was at the last force evaluation, not the final one.
    [reb_integrator_janus_part2] converts the shadow state of the first
    [N] particles, each wide integer divided by the scale, and sets [t] to
    [t + dt]; it is defined whenever both arrays hold [N] elements. *)
Theorem part1_part2_division (r : reb_simulation) :
  (∀ r1, reb_integrator_janus_part1 accel o r = Some r1 ->
     Sim.t r1 = Sim.t r ∧
     ∃ r0 r8 rf,
       part1_allocate o r = Some r0 ∧
       substeps accel (Sim.dt r)
         [gamma1; gamma2; gamma3; gamma4; gamma5; gamma4; gamma3; gamma2] r0
       = Some r8 ∧
       leapfrog_before_force r8 (fmul gamma1 (Sim.dt r)) = Some rf ∧
       leapfrog_from_force accel rf (fmul gamma1 (Sim.dt r)) = Some r1 ∧
       ∀ i p, i < Sim.N r -> Sim.particles r1 !! i = Some p ->
         ∃ q, shadow rf !! i = Some q ∧
              coords p = double_coords q (Janus.scale (Sim.ri_janus r)))
  ∧ (∀ r2, reb_integrator_janus_part2 r = Some r2 ->
       Sim.t r2 = fadd (Sim.t r) (Sim.dt r) ∧
       ∀ i, i < Sim.N r ->
         ∃ q p, shadow r !! i = Some q ∧ Sim.particles r2 !! i = Some p ∧
                coords p = double_coords q (Janus.scale (Sim.ri_janus r)))
  ∧ (Sim.N r ≤ length (Sim.particles r) -> Sim.N r ≤ length (shadow r) ->
     is_Some (reb_integrator_janus_part2 r)).
Proof.
  split; [|split].
  - intros r1 (r0 & H0 & Hsteps)%part1_Some.
    change [gamma1; gamma2; gamma3; gamma4; gamma5; gamma4; gamma3; gamma2; gamma1]
      with ([gamma1; gamma2; gamma3; gamma4; gamma5; gamma4; gamma3; gamma2]
              ++ [gamma1]) in Hsteps.
    rewrite substeps_snoc in Hsteps. inv_bind Hsteps. rename r2 into r8.
    pose proof (part1_allocate_frame _ _ _ H0) as (Ht0 & _ & HN0 & _ & _ & Hs0).
    pose proof (substeps_frame _ _ _ _ E) as (Ht8 & _ & HN8 & Hs8).
    pose proof (leapfrog_frame _ _ _ _ Hsteps) as (Ht1 & _).
    split; [congruence|].
    apply leapfrog_Some in Hsteps as (rf & Hrf & Hr1).
    exists r0, r8, rf. repeat (split; [done|]).
    intros i p Hi Hp.
    destruct (leapfrog_particles _ _ _ _ Hrf Hr1 i p ltac:(lia) Hp)
      as (q & Hq & Hc).
    exists q. split; [done|]. congruence.
  - intros r2 (ps & Hps & ->)%part2_Some. simpl. split; [done|].
    intros i Hi.
    destruct (lookup_lt_is_Some_2 (Sim.particles r) i) as [p Hp].
    { destruct Hps as (_ & Hn & _). lia. }
    destruct (prefix_updated_lookup _ _ _ _ _ _ Hps Hi Hp)
      as (p' & Hp' & q & Hq & ->).
    exists q, (to_double_particle q (Janus.scale (Sim.ri_janus r)) p). done.
  - intros Hps Hpsi.
    destruct (to_double_total (Sim.particles r) (shadow r) (Sim.N r)
                (Janus.scale (Sim.ri_janus r)) Hps Hpsi) as [ps Hto].
    eexists. apply part2_Some. exists ps. split; [|reflexivity].
    by apply to_double_Some.
Qed.
End Halves.

(** ** Independence of the floating-point view *)

Lemma set_acc_congruence (a : double * double * double) (p p' : reb_particle) :
  coords p = coords p' -> P.m p = P.m p' -> P.set_acc a p = P.set_acc a p'.
Proof.
  destruct p, p'. unfold coords, P.set_acc. simpl.
  intros [= -> -> -> -> -> ->] ->. reflexivity.
Qed.

Lemma agree_same_but_coords_acc (r r' : reb_simulation) :
  agree r r' -> same_but_coords_acc r r'.
Proof.
  intros (Ht & Hdt & HN & Hg & Hj & Hps). repeat split; try done.
  by rewrite Hps.
Qed.

Section Independence.
Variable accel : reb_simulation -> nat -> double * double * double.
Variable o : realloc_outcome.
Hypothesis accel_deterministic : force_deterministic accel.

Lemma leapfrog_agree (r r' : reb_simulation) (d : double)
    (r1 : reb_simulation) :
  same_but_coords_acc r r' ->
  leapfrog accel r d = Some r1 ->
  ∃ r1', leapfrog accel r' d = Some r1' ∧ agree r1 r1'.
Proof.
  intros (Ht & Hdt & HN & Hg & Hj & Hm) (rf & Hrf & Hr1)%leapfrog_Some.
  apply leapfrog_before_force_Some in Hrf as (psi1 & ps1 & Hd1 & Hps1 & ->).
  apply leapfrog_from_force_Some in Hr1
    as (ps2 & psi2 & psi3 & Ha & Hk & Hd2 & ->).
  unfold shadow in *. simpl in *.
  set (N := Sim.N r) in *. set (s := Janus.scale (Sim.ri_janus r)) in *.
  assert (HNps : N ≤ length (Sim.particles r)) by (destruct Hps1 as (_ & ? & _); done).
  assert (HNps' : N ≤ length (Sim.particles r')).
  { apply (f_equal length) in Hm.
    rewrite !length_fmap, !length_take, <- HN in Hm. lia. }
  assert (HNpsi : N ≤ length psi1).
  { destruct Hd1 as (-> & ? & _). done. }
  (* the conversion of the second run *)
  destruct (to_double_total (Sim.particles r') psi1 N s HNps' HNpsi)
    as [ps1' Hps1'%to_double_Some].
  assert (Hview : ∀ i, i < N ->
            ∃ q p p', psi1 !! i = Some q ∧
                      Sim.particles r !! i = Some p ∧
                      Sim.particles r' !! i = Some p' ∧
                      P.m p = P.m p' ∧
                      ps1 !! i = Some (to_double_particle q s p) ∧
                      ps1' !! i = Some (to_double_particle q s p')).
  { intros i Hi.
    destruct (lookup_lt_is_Some_2 (Sim.particles r) i ltac:(lia)) as [p Hp].
    destruct (lookup_lt_is_Some_2 (Sim.particles r') i ltac:(lia)) as [p' Hp'].
    destruct (prefix_updated_lookup _ _ _ _ _ _ Hps1 Hi Hp)
      as (b & Hb & q & Hq & ->).
    destruct (prefix_updated_lookup _ _ _ _ _ _ Hps1' Hi Hp')
      as (b' & Hb' & q' & Hq' & ->).
    assert (q' = q) as -> by congruence.
    exists q, p, p'. repeat (split; [done|]). split; [|done].
    apply (f_equal (fun l => l !! i)) in Hm.
    rewrite !list_lookup_fmap, <- HN, !lookup_take_lt, Hp, Hp' in Hm by done.
    simpl in Hm. congruence. }
  set (rf := Sim.mk (Sim.t r) (Sim.dt r) N ps1 0
               (Janus.mk s (Janus.allocated_N (Sim.ri_janus r))
                  (store_back (Janus.p_curr (Sim.ri_janus r)) psi1))) in *.
  set (rf' := Sim.mk (Sim.t r') (Sim.dt r') N ps1' 0
               (Janus.mk s (Janus.allocated_N (Sim.ri_janus r))
                  (store_back (Janus.p_curr (Sim.ri_janus r)) psi1))).
  assert (Hrf' : leapfrog_before_force r' d = Some rf').
  { apply leapfrog_before_force_Some. exists psi1, ps1'.
    unfold shadow. rewrite <- Hj, <- HN. done. }
  (* both force evaluations read the same *)
  assert (Hin : force_inputs rf = force_inputs rf').
  { unfold force_inputs, rf, rf'. simpl. rewrite Ht, Hdt. f_equal.
    apply list_eq. intros i. rewrite !list_lookup_fmap.
    destruct (decide (i < N)) as [Hi|Hi].
    - rewrite !lookup_take_lt by done.
      destruct (Hview i Hi) as (q & p & p' & _ & _ & _ & Hmm & -> & ->).
      simpl. by rewrite Hmm.
    - rewrite !lookup_take_ge by lia. done. }
  pose proof (accel_deterministic rf rf' Hin) as Hacc. simpl in Hacc.
  destruct (prefix_updated_exists N
              (fun i p => Some (P.set_acc (accel rf' i) p)) ps1')
    as [ps2' Ha'].
  { destruct Hps1' as (-> & _). done. }
  { eauto. }
  assert (Ha'' : prefix_updated N (set_acc_rel (accel rf')) ps1' ps2').
  { revert Ha'. apply prefix_updated_mono. intros i a b _ _ [= <-]. done. }
  assert (Hps2 : ∀ i, i < N -> ps2 !! i = ps2' !! i).
  { intros i Hi.
    destruct (Hview i Hi) as (q & p & p' & _ & _ & _ & Hmm & Hp1 & Hp1').
    destruct (prefix_updated_lookup _ _ _ _ _ _ Ha Hi Hp1) as (b & -> & ->).
    destruct (prefix_updated_lookup _ _ _ _ _ _ Ha'' Hi Hp1') as (b' & -> & ->).
    f_equal. rewrite (Hacc i Hi). apply set_acc_congruence; [done|].
    simpl. done. }
  exists (Sim.mk (Sim.t r') (Sim.dt r') N ps2' 0
            (Janus.mk s (Janus.allocated_N (Sim.ri_janus r))
               (store_back (Janus.p_curr (Sim.ri_janus r)) psi3))).
  split.
  - apply leapfrog_Some. exists rf'. split; [done|].
    apply leapfrog_from_force_Some. exists ps2', psi2, psi3.
    unfold shadow, rf'. simpl. rewrite store_back_store_back.
    repeat (split; [done|]). split; [|done].
    revert Hk. apply prefix_updated_mono.
    intros i a b Hi _ (p & Hp & Hkick). exists p.
    rewrite <- Hps2 by done. done.
  - rewrite store_back_store_back. unfold agree. simpl.
    repeat (split; [done|]). by apply take_eq_of_lookup.
Qed.

Lemma substeps_agree (dt g : double) (gs : list double)
    (r r' r1 : reb_simulation) :
  same_but_coords_acc r r' ->
  substeps accel dt (g :: gs) r = Some r1 ->
  ∃ r1', substeps accel dt (g :: gs) r' = Some r1' ∧ agree r1 r1'.
Proof.
  revert g r r'. induction gs as [|g' gs IH]; intros g r r' Hsame;
    rewrite !substeps_cons; intros H; inv_bind H;
    destruct (leapfrog_agree _ _ _ _ Hsame E) as (r2' & -> & Hagree); simpl.
  - rewrite substeps_nil in *. injection H as <-. eauto.
  - apply (IH g' r0 r2'); [by apply agree_same_but_coords_acc | done].
Qed.

(** C9.  With [allocated_N] equal to [N] at entry,
    [reb_integrator_janus_part1] does not depend on the coordinates and
    accelerations that the floating-point particles hold at entry: a
    second simulation with the same shadow state, masses and scalar
    fields, run with the same deterministic force evaluation, also
    completes the step and ends with the same integrator state and the
    same first [N] floating-point particles. *)
Theorem part1_independent_of_float_view (r r' r1 : reb_simulation) :
  Janus.allocated_N (Sim.ri_janus r) = Sim.N r ->
  same_but_coords_acc r r' ->
  reb_integrator_janus_part1 accel o r = Some r1 ->
  ∃ r1', reb_integrator_janus_part1 accel o r' = Some r1' ∧
         Sim.ri_janus r1' = Sim.ri_janus r1 ∧
         take (Sim.N r) (Sim.particles r1')
         = take (Sim.N r) (Sim.particles r1).
Proof.
  intros HaN Hsame (r0 & H0 & Hsteps)%part1_Some.
  apply part1_allocate_Some in H0 as [[_ ->]|[[? _]|[? _]]]; [|done|done].
  pose proof Hsame as (Ht & Hdt & HN & _ & Hj & Hm).
  assert (Hsame0 : same_but_coords_acc (Sim.set_gravity_ignore_terms 0 r)
                     (Sim.set_gravity_ignore_terms 0 r'))
    by (repeat split; done).
  destruct (substeps_agree _ _ _ _ _ _ Hsame0 Hsteps) as (r1' & Hr1' & Hag).
  exists r1'. split.
  - apply part1_Some. exists (Sim.set_gravity_ignore_terms 0 r').
    split; [|by rewrite <- Hdt].
    apply part1_allocate_Some. left. split; [congruence|done].
  - destruct Hag as (_ & _ & HN1 & _ & Hj1 & Hps1).
    apply substeps_frame in Hsteps as (_ & _ & HN0 & _). simpl in HN0.
    split; [done|]. rewrite <- HN0. rewrite HN1 at 1. done.
Qed.
End Independence.

(** ** The increments of a sub-step *)

Lemma nearest_integer_three_quarters (q : Q) (d : Z) :
  (q == 3 # 4)%Q -> nearest_integer q d -> d = 1%Z.
Proof.
  unfold nearest_integer. intros -> [Hlo Hhi]%Qabs_Qle_condition.
  unfold Qle, Qminus, Qplus, Qopp in *. simpl in *. lia.
Qed.

(** At a velocity of 3 units and [dt = 1/2] the half-drift product is
    3/4.  The integer nearest to it is 1, so two half-drifts to the nearest
    integer would move the position by 2; the sub-step leaves it at 0. *)
Lemma leapfrog_increments_not_nearest :
  ¬ leapfrog_increments nearest_integer Ex.free.
Proof.
  intros H.
  destruct (H Ex.r_three_quarters Ex.half Ex.r_three_quarters 0
              (PI.mk 0 0 0 3 0 0) (PI.mk 0 0 0 3 0 0))
    as (p & _ & (d1 & dk & d2 & Hd1 & _ & _ & Hd2 & Hx) & _);
    [vm_compute; reflexivity | simpl; lia | reflexivity | reflexivity |].
  simpl in Hd1, Hd2, Hx.
  apply nearest_integer_three_quarters in Hd1; [|vm_compute; reflexivity].
  apply nearest_integer_three_quarters in Hd2; [|vm_compute; reflexivity].
  subst d1 d2. vm_compute in Hx. discriminate Hx.
Qed.

Section Increments.
Variable accel : reb_simulation -> nat -> double * double * double.

(** C3 (amended).  In every sub-step of duration [dt] and for every
    particle, each position coordinate is incremented, additively, by the
    integral part of [dt/2] times the raw fixed-point velocity converted
    to a double, once before and once after the kick, and each velocity
    coordinate by the integral part of [scale * dt * acceleration]: the
    products are truncated toward zero, not rounded to the nearest
    integer. *)
Theorem leapfrog_increments_truncated :
  leapfrog_increments truncated_toward_zero accel.
Proof.
  intros r dt r' i q q' (rf & Hrf & Hr')%leapfrog_Some Hi Hq Hq'.
  apply leapfrog_before_force_Some in Hrf as (psi1 & ps1 & Hd1 & Hps1 & ->).
  apply leapfrog_from_force_Some in Hr'
    as (ps2 & psi2 & psi3 & Ha & Hk & Hd2 & ->).
  unfold shadow in *. simpl in *.
  rewrite store_back_store_back in Hq'.
  pose proof (prefix_updated_length _ _ _ _ Hd1) as L1.
  rewrite deref_store_back in Hk by done.
  pose proof (prefix_updated_length _ _ _ _ Hk) as L2.
  pose proof (prefix_updated_length _ _ _ _ Hd2) as L3.
  rewrite deref_store_back in Hq' by congruence.
  destruct (prefix_updated_lookup _ _ _ _ _ _ Hd1 Hi Hq) as (q1 & Hq1 & Hdr1).
  destruct (prefix_updated_lookup _ _ _ _ _ _ Hk Hi Hq1)
    as (q2 & Hq2 & p & Hp & Hkick).
  destruct (prefix_updated_lookup _ _ _ _ _ _ Hd2 Hi Hq2) as (q3 & Hq3 & Hdr2).
  assert (q3 = q') as -> by congruence.
  exists p. split; [done|].
  apply drift_particle_Some in Hdr1 as (dx & dy & dz & Hdx & Hdy & Hdz & ->).
  apply kick_particle_Some in Hkick as (kx & ky & kz & Hkx & Hky & Hkz & ->).
  apply drift_particle_Some in Hdr2 as (ex & ey & ez & Hex & Hey & Hez & ->).
  simpl in *.
  apply int128_of_double_truncates in Hdx as (_ & _ & Hdx),
    Hdy as (_ & _ & Hdy), Hdz as (_ & _ & Hdz), Hkx as (_ & _ & Hkx),
    Hky as (_ & _ & Hky), Hkz as (_ & _ & Hkz), Hex as (_ & _ & Hex),
    Hey as (_ & _ & Hey), Hez as (_ & _ & Hez).
  repeat split.
  - exists dx, kx, ex. done.
  - exists dy, ky, ey. done.
  - exists dz, kz, ez. done.
Qed.
End Increments.

(** ** The round trip through the fixed-point state *)

(** The position 3 * 2^51 + 2 at scale 3: the product 3 * x needs 55 bits
    and is rounded up by 2, the quotient by 3 is rounded to x + 1, which is
    off by 1 and not by 1/3. *)
Lemma round_trip_not_within_quantum : ¬ round_trip_within_quantum.
Proof.
  intros H.
  specialize (H [PI.indeterminate] [ExRoundTrip.p0] 1 Ex.three
                [ExRoundTrip.q0] [ExRoundTrip.p0] [ExRoundTrip.p1] 0
                ExRoundTrip.p0 ExRoundTrip.p1).
  assert (Hhead :
    Forall2 (fun c c' => (Qabs (SF2Q c' - SF2Q c) <= / SF2Q Ex.three)%Q)
      (coords ExRoundTrip.p0) (coords ExRoundTrip.p1)).
  { apply H; [vm_compute; reflexivity | vm_compute; reflexivity | lia
              | reflexivity | reflexivity]. }
  apply Forall2_cons_1 in Hhead as [Hx _].
  vm_compute in Hx. apply Hx. reflexivity.
Qed.

Lemma truncated_toward_zero_Qabs (y : Q) (n : Z) :
  truncated_toward_zero y n -> (Qabs (inject_Z n - y) < 1)%Q.
Proof.
  intros [Hpos Hneg]. apply Qabs_Qlt_condition.
  destruct (Qlt_le_dec y 0) as [Hy|Hy].
  - destruct Hneg as [? ?]; [lra|]. split; lra.
  - destruct Hpos as [? ?]; [lra|]. split; lra.
Qed.

(** One coordinate: apart from the rounding of the product and of the
    quotient, the round trip loses less than one unit of the grid. *)
Lemma round_trip_coordinate (s c : double) (n : Z) :
  (0 < SF2Q s)%Q ->
  int128_of_double (fmul c s) = Some n ->
  exact_round_trip s c n ->
  (Qabs (SF2Q (fdiv (double_of_int128 n) s) - SF2Q c) < / SF2Q s)%Q.
Proof.
  intros Hs (_ & _ & Htr%truncated_toward_zero_Qabs)%int128_of_double_truncates
    [Hmul Hdiv].
  rewrite Hmul in Htr. rewrite Hdiv.
  set (S := SF2Q s) in *. set (X := SF2Q c) in *.
  assert (HS : (0 < / S)%Q) by (by apply Qinv_lt_0_compat).
  assert (Heq : (inject_Z n / S - X == (inject_Z n - X * S) * / S)%Q).
  { field. intros E. rewrite E in Hs. by apply Qlt_irrefl in Hs. }
  rewrite Heq, Qabs_Qmult, (Qabs_pos (/ S)) by (by apply Qlt_le_weak).
  apply Qlt_le_trans with (1 * / S)%Q; [by apply Qmult_lt_compat_r|].
  rewrite Qmult_1_l. apply Qle_refl.
Qed.

(** ** A power of two for scale *)

Lemma iter_pos_iter {A : Type} (f : A -> A) (n : positive) (x : A) :
  SpecFloat.iter_pos f n x = Pos.iter f x n.
Proof.
  revert x. induction n as [n IH|n IH|]; intros x; simpl.
  - rewrite !IH. rewrite <- !Pos.iter_swap. reflexivity.
  - rewrite !IH. reflexivity.
  - reflexivity.
Qed.

Lemma iter_shr_1_exact (j M : positive) :
  Pos.iter shr_1 (Build_shr_record (Zpos (Pos.iter xO M j)) false false) j
  = Build_shr_record (Zpos M) false false.
Proof.
  revert M. induction j as [|j IH] using Pos.peano_ind; intros M.
  - reflexivity.
  - rewrite (Pos.iter_succ_r j _ shr_1), (Pos.iter_succ j _ xO). simpl. apply IH.
Qed.

Lemma digits2_pos_shift (j M : positive) :
  digits2_pos (Pos.iter xO M j) = (digits2_pos M + j)%positive.
Proof.
  induction j as [|j IH] using Pos.peano_ind.
  - simpl. lia.
  - rewrite (Pos.iter_succ j _ xO). simpl. rewrite IH. lia.
Qed.

Lemma Zpos_iter_xO (j M : positive) :
  Zpos (Pos.iter xO M j) = (Zpos M * 2 ^ Zpos j)%Z.
Proof.
  induction j as [|j IH] using Pos.peano_ind.
  - simpl. lia.
  - rewrite (Pos.iter_succ j _ xO), (Pos2Z.inj_xO (Pos.iter xO M j)), IH,
      Pos2Z.inj_succ,
      Z.pow_succ_r by lia.
    lia.
Qed.

(** Rounding a 53-bit mantissa that was shifted left by [j] bits. *)
Lemma binary_round_aux_shifted (sg : bool) (M j : positive) (e : Z) :
  digits2_pos M = 53%positive ->
  (-1074 <= e + Zpos j <= 971)%Z ->
  binary_round_aux prec emax sg (Zpos (Pos.iter xO M j)) e loc_Exact
  = S754_finite sg M (e + Zpos j).
Proof.
  intros Hd He. unfold binary_round_aux, shr_fexp. simpl Zdigits2.
  rewrite digits2_pos_shift, Hd.
  replace (fexp prec emax (Zpos (53 + j) + e) - e)%Z with (Zpos j)
    by (unfold fexp, SpecFloat.emin, prec, emax; lia).
  unfold shr at 1. simpl shr_record_of_loc.
  rewrite iter_pos_iter, iter_shr_1_exact. simpl.
  rewrite Hd.
  replace (fexp prec emax (53 + (e + Zpos j)) - (e + Zpos j))%Z with 0%Z
    by (unfold fexp, SpecFloat.emin, prec, emax; lia).
  simpl.
  replace (e + Z.pos j <=? emax - prec)%Z with true; [reflexivity|].
  symmetry. apply Z.leb_le. unfold emax, prec. lia.
Qed.

Lemma binary_round_aux_normal (sg : bool) (M : positive) (e : Z) :
  digits2_pos M = 53%positive ->
  (-1074 <= e <= 971)%Z ->
  binary_round_aux prec emax sg (Zpos M) e loc_Exact = S754_finite sg M e.
Proof.
  intros Hd He. unfold binary_round_aux, shr_fexp. simpl Zdigits2.
  rewrite Hd.
  replace (fexp prec emax (53 + e) - e)%Z with 0%Z
    by (unfold fexp, SpecFloat.emin, prec, emax; lia).
  simpl. rewrite Hd.
  replace (fexp prec emax (53 + e) - e)%Z with 0%Z
    by (unfold fexp, SpecFloat.emin, prec, emax; lia).
  simpl.
  replace (e <=? emax - prec)%Z with true; [reflexivity|].
  symmetry. apply Z.leb_le. unfold emax, prec. lia.
Qed.

Lemma fmul_pow2 (sg : bool) (M : positive) (e k : Z) :
  digits2_pos M = 53%positive ->
  (-1074 <= e + k <= 971)%Z ->
  fmul (S754_finite sg M e) (pow2_double k) = S754_finite sg M (e + k).
Proof.
  intros Hd He. unfold fmul, pow2_double, SFmul.
  rewrite xorb_false_r.
  replace (M * 4503599627370496)%positive with (Pos.iter xO M 52)
    by (rewrite Pos.mul_comm; reflexivity).
  rewrite binary_round_aux_shifted by (done || lia).
  f_equal. lia.
Qed.

Lemma SFdiv_core_pow2_min (M : positive) (e k : Z) :
  digits2_pos M = 53%positive ->
  (e - k = -1074)%Z ->
  SFdiv_core_binary prec emax (Z.pos M) e 4503599627370496 (k - 52)
  = (Z.pos M, (-1074)%Z, loc_Exact).
Proof.
  intros Hd He. unfold SFdiv_core_binary.
  change (Zdigits2 (Z.pos 4503599627370496)) with 53%Z.
  change (Zdigits2 (Z.pos M)) with (Z.pos (digits2_pos M)). rewrite Hd.
  cbv zeta.
  change IntDef.Z.min with Z.min. change IntDef.Z.shiftl with Z.shiftl.
  change IntDef.Z.div_eucl with Z.div_eucl.
  replace (Z.min (fexp prec emax (53 + e - (53 + (k - 52)))) (e - (k - 52)))%Z
    with (-1074)%Z by (unfold fexp, SpecFloat.emin, prec, emax; lia).
  replace (e - (k - 52) - -1074)%Z with 52%Z by lia.
  replace (Z.shiftl (Z.pos M) 52)%Z with (4503599627370496 * Z.pos M)%Z
    by (rewrite Z.shiftl_mul_pow2 by lia; lia).
  pose proof (Z.div_eucl_eq (4503599627370496 * Z.pos M)%Z 4503599627370496%Z
                ltac:(lia)) as Heq.
  pose proof (Z.mod_pos_bound (4503599627370496 * Z.pos M)%Z 4503599627370496%Z
                ltac:(lia)) as Hb.
  unfold Z.modulo in Hb.
  destruct (Z.div_eucl (4503599627370496 * Z.pos M)%Z 4503599627370496%Z)
    as [q r].
  assert (q = Z.pos M ∧ r = 0%Z) as [-> ->] by lia.
  reflexivity.
Qed.

Lemma SFdiv_core_pow2 (M : positive) (e k : Z) :
  digits2_pos M = 53%positive ->
  (-1074 < e - k)%Z ->
  SFdiv_core_binary prec emax (Z.pos M) e 4503599627370496 (k - 52)
  = (Z.pos M~0, (e - k - 1)%Z, loc_Exact).
Proof.
  intros Hd He. unfold SFdiv_core_binary.
  change (Zdigits2 (Z.pos 4503599627370496)) with 53%Z.
  change (Zdigits2 (Z.pos M)) with (Z.pos (digits2_pos M)). rewrite Hd.
  cbv zeta.
  change IntDef.Z.min with Z.min. change IntDef.Z.shiftl with Z.shiftl.
  change IntDef.Z.div_eucl with Z.div_eucl.
  replace (Z.min (fexp prec emax (53 + e - (53 + (k - 52)))) (e - (k - 52)))%Z
    with (e - k - 1)%Z by (unfold fexp, SpecFloat.emin, prec, emax; lia).
  replace (e - (k - 52) - (e - k - 1))%Z with 53%Z by lia.
  replace (Z.shiftl (Z.pos M) 53)%Z with (4503599627370496 * Z.pos M~0)%Z
    by (rewrite Z.shiftl_mul_pow2 by lia; lia).
  pose proof (Z.div_eucl_eq (4503599627370496 * Z.pos M~0)%Z 4503599627370496%Z
                ltac:(lia)) as Heq.
  pose proof (Z.mod_pos_bound (4503599627370496 * Z.pos M~0)%Z
                4503599627370496%Z ltac:(lia)) as Hb.
  unfold Z.modulo in Hb.
  destruct (Z.div_eucl (4503599627370496 * Z.pos M~0)%Z 4503599627370496%Z)
    as [q r].
  assert (q = Z.pos M~0 ∧ r = 0%Z) as [-> ->] by lia.
  reflexivity.
Qed.

Lemma fdiv_pow2 (sg : bool) (M : positive) (e k : Z) :
  digits2_pos M = 53%positive ->
  (-1074 <= e - k <= 971)%Z ->
  fdiv (S754_finite sg M e) (pow2_double k) = S754_finite sg M (e - k).
Proof.
  intros Hd He. unfold fdiv, pow2_double, SFdiv.
  rewrite xorb_false_r.
  destruct (Z.eq_dec (e - k) (-1074))%Z as [Hmin|Hmin].
  - rewrite SFdiv_core_pow2_min by done.
    rewrite binary_round_aux_normal by (done || lia). f_equal. lia.
  - rewrite SFdiv_core_pow2 by (done || lia).
    change (Z.pos M~0) with (Z.pos (Pos.iter xO M 1)).
    rewrite binary_round_aux_shifted by (done || lia). f_equal. lia.
Qed.

Lemma digits2_pos_bound (m : positive) :
  (2 ^ (Zpos (digits2_pos m) - 1) <= Zpos m < 2 ^ Zpos (digits2_pos m))%Z.
Proof.
  induction m as [m IH|m IH|]; simpl digits2_pos.
  - rewrite Pos2Z.inj_succ, (Pos2Z.inj_xI m).
    replace (Z.succ (Z.pos (digits2_pos m)) - 1)%Z
      with (Z.succ (Z.pos (digits2_pos m) - 1)) by lia.
    rewrite !Z.pow_succ_r by lia. lia.
  - rewrite Pos2Z.inj_succ, (Pos2Z.inj_xO m).
    replace (Z.succ (Z.pos (digits2_pos m)) - 1)%Z
      with (Z.succ (Z.pos (digits2_pos m) - 1)) by lia.
    rewrite !Z.pow_succ_r by lia. lia.
  - simpl. lia.
Qed.

Lemma digits2_pos_small (m : positive) :
  (Zpos m < 2 ^ 53)%Z -> (Zpos (digits2_pos m) <= 53)%Z.
Proof.
  intros Hm. pose proof (digits2_pos_bound m) as [Hlo _].
  destruct (Z_le_gt_dec (Zpos (digits2_pos m)) 53) as [?|Hgt]; [done|].
  assert (2 ^ 53 <= 2 ^ (Zpos (digits2_pos m) - 1))%Z
    by (apply Z.pow_le_mono_r; lia).
  lia.
Qed.

(** The double of an integer below 2^53: a 53-bit mantissa with an
    exponent between -52 and 0, of the same value. *)
Lemma binary_round_small (sg : bool) (m : positive) :
  (Zpos m < 2 ^ 53)%Z ->
  ∃ M e, binary_round prec emax sg m 0 = S754_finite sg M e ∧
         digits2_pos M = 53%positive ∧ (-52 <= e <= 0)%Z ∧
         Zpos M = (Zpos m * 2 ^ (- e))%Z.
Proof.
  intros Hm%digits2_pos_small. unfold binary_round, shl_align.
  replace (fexp prec emax (Z.pos (digits2_pos m) + 0) - 0)%Z
    with (Z.pos (digits2_pos m) - 53)%Z
    by (unfold fexp, SpecFloat.emin, prec, emax; lia).
  destruct (Z.pos (digits2_pos m) - 53)%Z as [|d|d] eqn:Hd; [|lia|].
  - assert (Hdig : digits2_pos m = 53%positive) by lia.
    exists m, 0%Z. rewrite binary_round_aux_normal by (done || lia).
    split; [done|]. split; [done|]. split; [lia|]. simpl. lia.
  - assert (Hdig : digits2_pos (Pos.iter xO m d) = 53%positive)
      by (rewrite digits2_pos_shift; lia).
    exists (Pos.iter xO m d), (Z.neg d).
    change (PosDef.Pos.iter xO m d) with (Pos.iter xO m d).
    replace (fexp prec emax (Z.pos (digits2_pos m) + 0)) with (Z.neg d)
      by (unfold fexp, SpecFloat.emin, prec, emax; lia).
    rewrite (binary_round_aux_normal sg _ (Z.neg d) Hdig) by lia.
    split; [reflexivity|]. split; [exact Hdig|].
    split; [lia|]. rewrite Zpos_iter_xO. reflexivity.
Qed.

Lemma int128_of_double_integer (sg : bool) (M : positive) (e a : Z) :
  (e <= 0)%Z -> (0 <= a < 2 ^ 53)%Z -> Zpos M = (a * 2 ^ (- e))%Z ->
  int128_of_double (S754_finite sg M e) = Some (cond_Zopp sg a).
Proof.
  intros He Ha HM. unfold int128_of_double.
  assert (Ht : trunc_double sg M e = cond_Zopp sg a).
  { unfold trunc_double. f_equal. destruct e as [|p|p]; [simpl in HM; lia|lia|].
    rewrite HM. simpl Z.opp. apply Z.div_mul.
    pose proof (Z.pow_pos_nonneg 2 (Z.pos p)). lia. }
  rewrite Ht.
  replace (in_int128 (cond_Zopp sg a)) with true; [reflexivity|].
  symmetry. apply in_int128_spec.
  assert (2 ^ 53 < 2 ^ 127)%Z by (apply Z.pow_lt_mono_r; lia).
  destruct sg; simpl; lia.
Qed.

(** With a power of two for scale, a wide integer below 2^53 in magnitude
    survives the conversion to a double coordinate and back. *)
Lemma pow2_round_trip (k n : Z) :
  (0 <= k <= 1022)%Z -> (Z.abs n < 2 ^ 53)%Z ->
  int128_of_double
    (fmul (fdiv (double_of_int128 n) (pow2_double k)) (pow2_double k))
  = Some n.
Proof.
  intros Hk Hn. unfold double_of_int128, binary_normalize.
  destruct n as [|m|m].
  - reflexivity.
  - destruct (binary_round_small false m) as (M & e & -> & Hd & He & HM);
      [lia|].
    rewrite fdiv_pow2, fmul_pow2 by (done || lia).
    replace (e - k + k)%Z with e by lia.
    apply (int128_of_double_integer false M e (Z.pos m)); lia.
  - destruct (binary_round_small true m) as (M & e & -> & Hd & He & HM);
      [lia|].
    rewrite fdiv_pow2, fmul_pow2 by (done || lia).
    replace (e - k + k)%Z with e by lia.
    apply (int128_of_double_integer true M e (Z.pos m)); lia.
Qed.

(** ** Exact products and quotients by a power of two *)

Lemma Qpow2_Qpower (e : Z) : (Qpow2 e == (2 # 1) ^ e)%Q.
Proof.
  destruct e as [|p|p].
  - reflexivity.
  - unfold Qpow2. rewrite Zpower_Qpower by lia. reflexivity.
  - rewrite Qpow2_neg.
    change ((2 # 1) ^ Z.neg p)%Q with (/ ((2 # 1) ^ Z.pos p))%Q.
    rewrite <- (Zpower_Qpower 2 (Z.pos p)) by lia.
    rewrite <- Pos2Z.inj_pow. reflexivity.
Qed.

Lemma Qpow2_add (a b : Z) : (Qpow2 (a + b) == Qpow2 a * Qpow2 b)%Q.
Proof. rewrite !Qpow2_Qpower. apply Qpower_plus. discriminate. Qed.

Lemma inject_Z_pow2 (t : Z) : (0 <= t)%Z -> (inject_Z (2 ^ t) == Qpow2 t)%Q.
Proof. destruct t as [|p|p]; [reflexivity | reflexivity | lia]. Qed.

Lemma SF2Q_pow2_double (k : Z) : (SF2Q (pow2_double k) == Qpow2 k)%Q.
Proof.
  unfold pow2_double, SF2Q. simpl cond_Zopp.
  change (inject_Z 4503599627370496) with (Qpow2 52).
  rewrite <- Qpow2_add. replace (52 + (k - 52))%Z with k by lia. reflexivity.
Qed.

Lemma digits2_pos_unique (m : positive) (d : Z) :
  (2 ^ (d - 1) <= Zpos m < 2 ^ d)%Z -> Zpos (digits2_pos m) = d.
Proof.
  intros [Hlo Hhi]. pose proof (digits2_pos_bound m) as [Hlo' Hhi'].
  assert (0 < d)%Z.
  { destruct (Z_lt_le_dec 0 d) as [?|Hd]; [done|].
    assert (2 ^ d <= 2 ^ 0)%Z by (destruct d; simpl; try lia;
      rewrite Z.pow_neg_r by lia; lia). simpl in *. lia. }
  destruct (Z.lt_trichotomy (Zpos (digits2_pos m)) d) as [Hlt|[?|Hgt]];
    [|done|].
  - assert (2 ^ Zpos (digits2_pos m) <= 2 ^ (d - 1))%Z
      by (apply Z.pow_le_mono_r; lia). lia.
  - assert (2 ^ d <= 2 ^ (Zpos (digits2_pos m) - 1))%Z
      by (apply Z.pow_le_mono_r; lia). lia.
Qed.

Lemma digits2_pos_mul_pow2 (m M : positive) (t : Z) :
  (0 <= t)%Z -> Zpos M = (Zpos m * 2 ^ t)%Z ->
  Zpos (digits2_pos M) = (Zpos (digits2_pos m) + t)%Z.
Proof.
  intros Ht HM. apply digits2_pos_unique. rewrite HM.
  pose proof (digits2_pos_bound m) as [Hlo Hhi].
  assert (0 < 2 ^ t)%Z by (apply Z.pow_pos_nonneg; lia).
  replace (Zpos (digits2_pos m) + t - 1)%Z
    with (Zpos (digits2_pos m) - 1 + t)%Z by lia.
  rewrite !Z.pow_add_r by lia. nia.
Qed.

(** A mantissa that already has the exponent of its magnitude is not
    rounded. *)
Lemma binary_round_aux_canonical (sg : bool) (M : positive) (E : Z) :
  canonical_mantissa prec emax M E = true ->
  binary_round_aux prec emax sg (Zpos M) E loc_Exact
  = if (E <=? emax - prec)%Z then S754_finite sg M E else S754_infinity sg.
Proof.
  intros Hc%Z.eqb_eq. unfold binary_round_aux, shr_fexp. simpl Zdigits2.
  rewrite Hc, Z.sub_diag. simpl. rewrite Hc, Z.sub_diag. reflexivity.
Qed.

Lemma binary_round_aux_canonical_shifted (sg : bool) (M j : positive) (e : Z) :
  canonical_mantissa prec emax M (e + Zpos j) = true ->
  binary_round_aux prec emax sg (Zpos (Pos.iter xO M j)) e loc_Exact
  = if (e + Zpos j <=? emax - prec)%Z then S754_finite sg M (e + Zpos j)
    else S754_infinity sg.
Proof.
  intros Hc%Z.eqb_eq. unfold binary_round_aux, shr_fexp. simpl Zdigits2.
  rewrite digits2_pos_shift.
  replace (fexp prec emax (Zpos (digits2_pos M + j) + e) - e)%Z with (Zpos j)
    by (rewrite Pos2Z.inj_add, <- Z.add_assoc, (Z.add_comm (Zpos j)), Hc; lia).
  unfold shr at 1. simpl shr_record_of_loc.
  rewrite iter_pos_iter, iter_shr_1_exact. simpl.
  rewrite Hc, Z.sub_diag. reflexivity.
Qed.

Lemma binary_round_aux_exact (sg : bool) (m : positive) (e : Z)
    (M : positive) (E : Z) :
  (e <= E)%Z -> Zpos m = (Zpos M * 2 ^ (E - e))%Z ->
  canonical_mantissa prec emax M E = true ->
  binary_round_aux prec emax sg (Zpos m) e loc_Exact
  = if (E <=? emax - prec)%Z then S754_finite sg M E else S754_infinity sg.
Proof.
  intros He Hm Hc. destruct (E - e)%Z as [|j|j] eqn:Hj; [| |lia].
  - assert (m = M) as -> by lia. assert (e = E) as -> by lia.
    by apply binary_round_aux_canonical.
  - rewrite <- Zpos_iter_xO in Hm. injection Hm as ->.
    replace E with (e + Zpos j)%Z in * by lia.
    by apply binary_round_aux_canonical_shifted.
Qed.

(** The product of a double with [2^k], [0 <= k]: exact unless it
    overflows. *)
Lemma fmul_pow2_exact (sg : bool) (m : positive) (e k : Z) :
  bounded prec emax m e = true -> (0 <= k)%Z ->
  fmul (S754_finite sg m e) (pow2_double k) = S754_infinity sg
  ∨ ∃ M E, fmul (S754_finite sg m e) (pow2_double k) = S754_finite sg M E ∧
           bounded prec emax M E = true ∧
           (inject_Z (Zpos M) * Qpow2 E
            == inject_Z (Zpos m) * Qpow2 (e + k))%Q.
Proof.
  intros [Hc%Z.eqb_eq _]%andb_true_iff Hk.
  unfold fexp, SpecFloat.emin, prec, emax in Hc.
  set (E := fexp prec emax (Zpos (digits2_pos m) + (e + k))).
  assert (HE : (0 <= e + k - E <= 52)%Z)
    by (unfold E, fexp, SpecFloat.emin, prec, emax; lia).
  set (M := Z.to_pos (Zpos m * 2 ^ (e + k - E))).
  assert (HM : Zpos M = (Zpos m * 2 ^ (e + k - E))%Z).
  { unfold M. rewrite Z2Pos.id; [done|].
    pose proof (Z.pow_pos_nonneg 2 (e + k - E)). lia. }
  pose proof (digits2_pos_mul_pow2 m M _ (proj1 HE) HM) as Hdig.
  assert (HcM : canonical_mantissa prec emax M E = true).
  { apply Z.eqb_eq. rewrite Hdig. unfold E. f_equal. lia. }
  assert (Hr : fmul (S754_finite sg m e) (pow2_double k)
               = if (E <=? emax - prec)%Z then S754_finite sg M E
                 else S754_infinity sg).
  { unfold fmul, pow2_double, SFmul. rewrite xorb_false_r.
    apply binary_round_aux_exact; [lia| |done].
    rewrite Pos2Z.inj_mul, HM. change (Zpos 4503599627370496) with (2 ^ 52)%Z.
    rewrite <- Z.mul_assoc, <- Z.pow_add_r by lia. do 2 f_equal. lia. }
  rewrite Hr. destruct (E <=? emax - prec)%Z eqn:Hle; [right|by left].
  exists M, E. split; [done|]. split.
  - unfold bounded. by rewrite HcM, Hle.
  - rewrite HM, inject_Z_mult, inject_Z_pow2 by lia.
    rewrite <- Qmult_assoc, <- Qpow2_add. by replace (e + k - E + E)%Z
      with (e + k)%Z by lia.
Qed.

(** The integral part of a double, converted back to a double. *)
Lemma double_of_trunc_double (sg : bool) (M : positive) (E : Z) :
  bounded prec emax M E = true ->
  trunc_double sg M E = 0%Z
  ∨ ∃ M' E', double_of_int128 (trunc_double sg M E) = S754_finite sg M' E' ∧
             digits2_pos M' = 53%positive ∧ (-52 <= E' <= 971)%Z ∧
             (SF2Q (S754_finite sg M' E')
              == inject_Z (trunc_double sg M E))%Q.
Proof.
  intros [Hc%Z.eqb_eq Hle%Z.leb_le]%andb_true_iff.
  unfold fexp, SpecFloat.emin, prec, emax in Hc, Hle.
  pose proof (digits2_pos_bound M) as [_ HMhi].
  assert (Hsmall : ∀ p : positive, (Zpos p < 2 ^ 53)%Z ->
            ∃ M' E', double_of_int128 (cond_Zopp sg (Zpos p))
                     = S754_finite sg M' E' ∧
                     digits2_pos M' = 53%positive ∧ (-52 <= E' <= 971)%Z ∧
                     (SF2Q (S754_finite sg M' E')
                      == inject_Z (cond_Zopp sg (Zpos p)))%Q).
  { intros p Hp.
    destruct (binary_round_small sg p Hp) as (M' & E' & Hr & Hd & HE' & HM').
    exists M', E'. split; [|split; [done|split; [lia|]]].
    - unfold double_of_int128, binary_normalize. by destruct sg.
    - assert (Hv : (inject_Z (Zpos M') * Qpow2 E' == inject_Z (Zpos p))%Q).
      { rewrite HM', inject_Z_mult, inject_Z_pow2 by lia.
        rewrite <- Qmult_assoc, <- Qpow2_add.
        replace (- E' + E')%Z with 0%Z by lia. simpl. ring. }
      rewrite SF2Q_finite. destruct sg; simpl cond_Zopp.
      + change (Z.neg p) with (- Z.pos p)%Z. rewrite inject_Z_opp, Hv. reflexivity.
      + exact Hv. }
  unfold trunc_double. destruct E as [|j|j].
  - right. apply Hsmall.
    assert (Zpos (digits2_pos M) = 53)%Z by lia.
    replace (Zpos (digits2_pos M)) with 53%Z in HMhi. exact HMhi.
  - right. rewrite <- Zpos_iter_xO.
    assert (Hd : digits2_pos M = 53%positive) by lia.
    exists M, (Zpos j). split; [|split; [done|split; [lia|]]].
    + unfold double_of_int128, binary_normalize.
      assert (Hr : binary_round prec emax sg (Pos.iter xO M j) 0
                   = S754_finite sg M (Zpos j)).
      { unfold binary_round, shl_align. rewrite digits2_pos_shift, Hd.
        replace (fexp prec emax (Zpos (53 + j) + 0)) with (Zpos j)
          by (unfold fexp, SpecFloat.emin, prec, emax; lia).
        change (Zpos j - 0)%Z with (Zpos j).
        apply (binary_round_aux_shifted sg M j 0 Hd). lia. }
      by destruct sg.
    + rewrite SF2Q_finite, Zpos_iter_xO.
      assert (Hv : (inject_Z (Zpos M) * Qpow2 (Zpos j)
                    == inject_Z (Zpos M * 2 ^ Zpos j))%Q)
        by (rewrite inject_Z_mult, inject_Z_pow2 by lia; reflexivity).
      destruct sg; simpl cond_Zopp.
      * rewrite inject_Z_opp, Hv. reflexivity.
      * exact Hv.
  - destruct (Zpos M / 2 ^ Zpos j)%Z as [|p|p] eqn:Hq.
    + left. by destruct sg.
    + right. apply Hsmall.
      assert (0 < 2 ^ Zpos j)%Z by (apply Z.pow_pos_nonneg; lia).
      pose proof (Z.mul_div_le (Zpos M) (2 ^ Zpos j) ltac:(lia)).
      assert (2 ^ Zpos (digits2_pos M) <= 2 ^ 53)%Z
        by (apply Z.pow_le_mono_r; lia).
      nia.
    + assert (0 < 2 ^ Zpos j)%Z by (apply Z.pow_pos_nonneg; lia).
      pose proof (Z.div_pos (Zpos M) (2 ^ Zpos j) ltac:(lia) ltac:(lia)). lia.
Qed.

Lemma fdiv_zero_finite (sz sg : bool) (m : positive) (e : Z) :
  fdiv (S754_zero sz) (S754_finite sg m e) = S754_zero (xorb sz sg).
Proof. reflexivity. Qed.

(** With [2^k] for scale, [0 <= k <= 1022], neither the product of a
    double with the scale nor the quotient of the stored integer by the
    scale is rounded. *)
Lemma exact_round_trip_pow2 (k : Z) (c : double) (n : Z) :
  (0 <= k <= 1022)%Z -> valid_binary prec emax c = true ->
  int128_of_double (fmul c (pow2_double k)) = Some n ->
  exact_round_trip (pow2_double k) c n.
Proof.
  intros Hk Hv Hn. unfold exact_round_trip.
  destruct c as [s|s| |sg m e]; try discriminate Hn.
  - injection Hn as <-. split; [simpl; ring|].
    change (double_of_int128 0) with (S754_zero false).
    unfold pow2_double. rewrite fdiv_zero_finite. simpl SF2Q at 1.
    unfold Qdiv. ring.
  - simpl in Hv.
    destruct (fmul_pow2_exact sg m e k Hv ltac:(lia))
      as [Hinf|(M & E & Hr & Hb & Hval)];
      [rewrite Hinf in Hn; discriminate Hn|].
    rewrite Hr in *. simpl in Hn.
    destruct (in_int128 (trunc_double sg M E)); [|discriminate Hn].
    injection Hn as <-. split.
    + rewrite !SF2Q_finite, SF2Q_pow2_double.
      destruct sg; rewrite Hval, Qpow2_add; ring.
    + destruct (double_of_trunc_double sg M E Hb)
        as [H0|(M' & E' & Hd & Hdig & HE' & Hv')].
      * rewrite H0. change (double_of_int128 0) with (S754_zero false).
        unfold pow2_double. rewrite fdiv_zero_finite. simpl SF2Q at 1.
        unfold Qdiv. simpl inject_Z. ring.
      * rewrite Hd, fdiv_pow2 by (done || lia).
        rewrite <- Hv', !SF2Q_finite, SF2Q_pow2_double.
        replace (E' - k)%Z with (E' + - k)%Z by lia.
        assert (Hinv : (Qpow2 (- k) == / Qpow2 k)%Q).
        { pose proof (Qpow2_pos k) as Hp.
          assert (Hone : (Qpow2 (- k) * Qpow2 k == 1)%Q).
          { rewrite <- Qpow2_add. by replace (- k + k)%Z with 0%Z by lia. }
          apply (Qmult_inj_r _ _ (Qpow2 k)); [lra|].
          rewrite Hone. field. lra. }
        destruct sg; rewrite Qpow2_add, Hinv; unfold Qdiv; ring.
Qed.

(** ** The rounding error of a floating-point operation *)

Lemma loc_ok_bounds (mrs : shr_record) (A D : Z) :
  (0 < D)%Z -> loc_ok mrs A D ->
  (shr_m mrs * D <= A < (shr_m mrs + 1) * D)%Z.
Proof.
  destruct mrs as [m [|] [|]]; unfold loc_ok; cbn [shr_m shr_r shr_s]; lia.
Qed.

Lemma shr_1_ok (mrs : shr_record) (A D : Z) :
  (0 <= shr_m mrs)%Z -> (0 < D)%Z -> loc_ok mrs A D ->
  loc_ok (shr_1 mrs) A (2 * D) ∧ (0 <= shr_m (shr_1 mrs))%Z.
Proof.
  destruct mrs as [m r s]. cbn [shr_m]. intros Hm HD.
  destruct m as [|[p|p|]|p]; [| | | |lia];
    destruct r, s; unfold loc_ok, shr_1; cbn [shr_m shr_r shr_s orb];
    rewrite ?(Pos2Z.inj_xI p), ?(Pos2Z.inj_xO p); intros H; split; lia.
Qed.

Lemma iter_shr_1_ok (j : positive) (mrs : shr_record) (A D : Z) :
  (0 <= shr_m mrs)%Z -> (0 < D)%Z -> loc_ok mrs A D ->
  loc_ok (Pos.iter shr_1 mrs j) A (2 ^ Zpos j * D)
  ∧ (0 <= shr_m (Pos.iter shr_1 mrs j))%Z.
Proof.
  induction j as [|j IH] using Pos.peano_ind; intros Hm HD Hok.
  - cbn [Pos.iter]. change (2 ^ 1)%Z with 2%Z. by apply shr_1_ok.
  - rewrite Pos.iter_succ. destruct (IH Hm HD Hok) as [Hok' Hm'].
    assert (0 < 2 ^ Zpos j * D)%Z
      by (pose proof (Z.pow_pos_nonneg 2 (Zpos j)); nia).
    destruct (shr_1_ok _ _ _ Hm' H Hok') as [Hok'' Hm''].
    split; [|done].
    rewrite Pos2Z.inj_succ, Z.pow_succ_r by lia.
    by rewrite <- Z.mul_assoc.
Qed.

Lemma round_nearest_even_ok (mrs : shr_record) (A D : Z) :
  (0 < D)%Z -> loc_ok mrs A D ->
  (shr_m mrs <= round_nearest_even (shr_m mrs) (loc_of_shr_record mrs)
   <= shr_m mrs + 1)%Z
  ∧ (2 * Z.abs (round_nearest_even (shr_m mrs) (loc_of_shr_record mrs) * D - A)
     <= D)%Z.
Proof.
  destruct mrs as [m [|] [|]]; unfold loc_ok, round_nearest_even;
    cbn [shr_m shr_r shr_s loc_of_shr_record]; intros HD H;
    try destruct (Z.even m); split; lia.
Qed.

Lemma Zdigits2_bound (m : Z) :
  (0 <= m)%Z -> (m < 2 ^ Zdigits2 m)%Z ∧ (0 < m -> 2 ^ (Zdigits2 m - 1) <= m)%Z.
Proof.
  intros Hm. destruct m as [|p|p]; [simpl; lia| |lia].
  pose proof (digits2_pos_bound p). unfold Zdigits2. lia.
Qed.

Lemma Zdigits2_nonneg (m : Z) : (0 <= Zdigits2 m)%Z.
Proof. destruct m; simpl; lia. Qed.

Lemma Zdigits2_le (m k : Z) :
  (0 <= k)%Z -> (0 <= m < 2 ^ k)%Z -> (Zdigits2 m <= k)%Z.
Proof.
  intros Hk [Hm Hlt]. destruct m as [|p|p]; [simpl; lia| |lia].
  unfold Zdigits2. pose proof (digits2_pos_bound p) as [Hlo _].
  destruct (Z_le_gt_dec (Zpos (digits2_pos p)) k) as [?|Hgt]; [done|].
  assert (2 ^ k <= 2 ^ (Zpos (digits2_pos p) - 1))%Z
    by (apply Z.pow_le_mono_r; lia).
  lia.
Qed.

Lemma fexp_ge_emin (e : Z) : (-1074 <= fexp prec emax e)%Z.
Proof. unfold fexp, SpecFloat.emin, prec, emax. lia. Qed.

(** The first normalization: the mantissa is shifted to the exponent of
    its magnitude, the bits shifted out being recorded. *)
Lemma shr_fexp_spec (mx ex : Z) (lx : location) (A D : Z) :
  (0 <= mx)%Z -> (0 < D)%Z -> loc_ok (shr_record_of_loc mx lx) A D ->
  (ex <= fexp prec emax (Zdigits2 mx + ex))%Z ->
  ∃ mrs,
    shr_fexp prec emax mx ex lx = (mrs, fexp prec emax (Zdigits2 mx + ex)) ∧
    loc_ok mrs A (2 ^ (fexp prec emax (Zdigits2 mx + ex) - ex) * D) ∧
    (0 <= shr_m mrs)%Z.
Proof.
  intros Hm HD Hok Hj. unfold shr_fexp, shr.
  assert (Hm0 : (0 <= shr_m (shr_record_of_loc mx lx))%Z)
    by (by destruct lx as [|[| |]]).
  destruct (fexp prec emax (Zdigits2 mx + ex) - ex)%Z as [|j|j] eqn:Ej; [| |lia].
  - exists (shr_record_of_loc mx lx). split; [f_equal; lia|].
    split; [|done]. by rewrite Z.pow_0_r, Z.mul_1_l.
  - exists (Pos.iter shr_1 (shr_record_of_loc mx lx) j).
    rewrite iter_pos_iter. split; [f_equal; lia|].
    by apply iter_shr_1_ok.
Qed.

(** The second normalization: a rounded mantissa of 54 bits, which is
    [2^53], is shifted once more; nothing is lost. *)
Lemma shr_fexp_rounded (m E : Z) :
  (0 <= m <= 2 ^ 53)%Z -> (-1074 <= E)%Z ->
  ∃ m' E', shr_fexp prec emax m E loc_Exact
           = (Build_shr_record m' false false, E') ∧
           (0 <= m')%Z ∧ (E <= E')%Z ∧ (m' * 2 ^ (E' - E) = m)%Z.
Proof.
  intros [Hm Hle] HE. unfold shr_fexp, shr. cbn [shr_record_of_loc].
  destruct (Z.eq_dec m (2 ^ 53)%Z) as [->|Hne].
  - exists (2 ^ 52)%Z, (E + 1)%Z.
    change (Zdigits2 (2 ^ 53)) with 54%Z.
    replace (fexp prec emax (54 + E) - E)%Z with 1%Z
      by (unfold fexp, SpecFloat.emin, prec, emax; lia).
    split; [reflexivity|]. split; [lia|]. split; [lia|].
    replace (E + 1 - E)%Z with 1%Z by lia. reflexivity.
  - exists m, E.
    assert (Hd : (Zdigits2 m <= 53)%Z) by (apply Zdigits2_le; lia).
    pose proof (Zdigits2_nonneg m).
    destruct (fexp prec emax (Zdigits2 m + E) - E)%Z as [|j|j] eqn:Ej;
      [|unfold fexp, SpecFloat.emin, prec, emax in Ej; lia|];
      (split; [reflexivity|]); (split; [lia|]); (split; [lia|]);
      rewrite Z.sub_diag; lia.
Qed.

Lemma SF2Q_zero (s : bool) : SF2Q (S754_zero s) = 0%Q.
Proof. reflexivity. Qed.

(** Rounding to nearest: the value of the result, when it is finite, is
    that of an integer [m'] at the exponent [E] of the magnitude, and
    [m'] is within one half of the exact mantissa [A / D] at this exponent. *)
Lemma binary_round_aux_spec (sx : bool) (mx ex : Z) (lx : location) (A D : Z) :
  (0 <= mx)%Z -> (0 < D)%Z -> loc_ok (shr_record_of_loc mx lx) A D ->
  (ex <= fexp prec emax (Zdigits2 mx + ex))%Z ->
  ∃ m', (0 <= m')%Z ∧
    (2 * Z.abs (m' * (2 ^ (fexp prec emax (Zdigits2 mx + ex) - ex) * D) - A)
     <= 2 ^ (fexp prec emax (Zdigits2 mx + ex) - ex) * D)%Z ∧
    (is_finite (binary_round_aux prec emax sx mx ex lx) = true ->
     (SF2Q (binary_round_aux prec emax sx mx ex lx)
      == inject_Z (cond_Zopp sx m')
         * Qpow2 (fexp prec emax (Zdigits2 mx + ex)))%Q).
Proof.
  intros Hm HD Hok Hj.
  set (E := fexp prec emax (Zdigits2 mx + ex)) in *.
  destruct (shr_fexp_spec mx ex lx A D Hm HD Hok Hj) as (mrs & Hs & Hok' & Hm1).
  fold E in Hs, Hok'.
  assert (HDj : (0 < 2 ^ (E - ex) * D)%Z)
    by (pose proof (Z.pow_pos_nonneg 2 (E - ex)); nia).
  destruct (round_nearest_even_ok mrs A _ HDj Hok') as [Hr Hnear].
  set (m' := round_nearest_even (shr_m mrs) (loc_of_shr_record mrs)) in *.
  (* the shifted mantissa has at most 53 bits *)
  assert (Hm53 : (shr_m mrs < 2 ^ 53)%Z).
  { pose proof (loc_ok_bounds _ _ _ HDj Hok') as [Hlo _].
    pose proof (loc_ok_bounds _ _ _ HD Hok) as [_ Hhi].
    assert (shr_m (shr_record_of_loc mx lx) = mx) as Hmx
      by (by destruct lx as [|[| |]]).
    rewrite Hmx in Hhi.
    pose proof (Zdigits2_bound mx Hm) as [Hd _].
    pose proof (Zdigits2_nonneg mx).
    assert (Hjd : (Zdigits2 mx <= E - ex + 53)%Z)
      by (unfold E, fexp, SpecFloat.emin, prec, emax; lia).
    assert (2 ^ Zdigits2 mx <= 2 ^ (E - ex + 53))%Z
      by (apply Z.pow_le_mono_r; lia).
    rewrite Z.pow_add_r in * by lia.
    assert (0 < 2 ^ (E - ex))%Z by (apply Z.pow_pos_nonneg; lia).
    nia. }
  exists m'. split; [lia|]. split; [exact Hnear|].
  unfold binary_round_aux. rewrite Hs. fold m'.
  destruct (shr_fexp_rounded m' E ltac:(lia) (fexp_ge_emin _))
    as (m2 & E2 & -> & Hm2 & HE2 & Hval).
  cbn [shr_m].
  destruct m2 as [|p|p]; [| |lia].
  - intros _. rewrite SF2Q_zero.
    assert (Hz : (m' = 0)%Z) by lia. rewrite Hz.
    destruct sx; cbn [cond_Zopp]; change (inject_Z (- 0)) with 0%Q;
      change (inject_Z 0) with 0%Q; ring.
  - destruct (E2 <=? emax - prec)%Z; [|discriminate].
    intros _. rewrite SF2Q_finite, <- Hval.
    assert (Hv : (inject_Z (Z.pos p) * Qpow2 E2
                  == inject_Z (Z.pos p * 2 ^ (E2 - E)) * Qpow2 E)%Q).
    { rewrite inject_Z_mult, inject_Z_pow2 by lia.
      rewrite <- Qmult_assoc, <- Qpow2_add.
      by replace (E2 - E + E)%Z with E2 by lia. }
    destruct sx; cbn [cond_Zopp].
    + rewrite inject_Z_opp, Hv. ring.
    + exact Hv.
Qed.

Lemma Qabs_inject_Z (z : Z) : Qabs (inject_Z z) = inject_Z (Z.abs z).
Proof. reflexivity. Qed.

Lemma Qpow2_half (E : Z) : (Qpow2 E * (1 # 2) == Qpow2 (E - 1))%Q.
Proof.
  replace (E - 1)%Z with (E + -1)%Z by lia. rewrite Qpow2_add. reflexivity.
Qed.

Lemma Qpow2_le (a b : Z) : (a <= b)%Z -> (Qpow2 a <= Qpow2 b)%Q.
Proof.
  intros Hab. replace b with (a + (b - a))%Z by lia. rewrite Qpow2_add.
  pose proof (Qpow2_pos a) as Ha.
  assert (H1 : (1 <= Qpow2 (b - a))%Q).
  { rewrite <- inject_Z_pow2 by lia. change 1%Q with (inject_Z 1).
    rewrite <- Zle_Qle. pose proof (Z.pow_pos_nonneg 2 (b - a)). lia. }
  rewrite <- (Qmult_1_r (Qpow2 a)) at 1.
  apply Qmult_le_l; done.
Qed.

(** The mantissa [m'] chosen by the rounding is within half a unit of the
    exponent [E] of the exact value. *)
Lemma nearest_mantissa_error (m' A D ex E : Z) :
  (0 < D)%Z -> (ex <= E)%Z ->
  (2 * Z.abs (m' * (2 ^ (E - ex) * D) - A) <= 2 ^ (E - ex) * D)%Z ->
  (Qabs (inject_Z m' * Qpow2 E - inject_Z A / inject_Z D * Qpow2 ex)
   <= Qpow2 (E - 1))%Q.
Proof.
  intros HD Hex Hnear.
  assert (HJ : (0 < 2 ^ (E - ex))%Z) by (apply Z.pow_pos_nonneg; lia).
  assert (HDq : (0 < inject_Z D)%Q)
    by (change 0%Q with (inject_Z 0); by rewrite <- Zlt_Qlt).
  assert (Hne : ¬ (inject_Z D == 0)%Q) by lra.
  assert (HE : (Qpow2 E == inject_Z (2 ^ (E - ex)) * Qpow2 ex)%Q).
  { rewrite inject_Z_pow2 by lia. rewrite <- Qpow2_add.
    by replace (E - ex + ex)%Z with E by lia. }
  assert (Heq : (inject_Z m' * Qpow2 E - inject_Z A / inject_Z D * Qpow2 ex
                 == inject_Z (m' * (2 ^ (E - ex) * D) - A)
                    * (Qpow2 ex / inject_Z D))%Q).
  { rewrite HE. unfold Z.sub at 2. rewrite inject_Z_plus, inject_Z_opp.
    rewrite !inject_Z_mult. field. done. }
  rewrite Heq, Qabs_Qmult, Qabs_inject_Z.
  pose proof (Qpow2_pos ex) as Hpex.
  assert (Hpos : (0 < Qpow2 ex / inject_Z D)%Q)
    by (apply Qlt_shift_div_l; lra).
  rewrite (Qabs_pos (Qpow2 ex / inject_Z D)) by lra.
  rewrite <- Qpow2_half, HE.
  rewrite Zle_Qle, !inject_Z_mult in Hnear.
  set (a := inject_Z (Z.abs (m' * (2 ^ (E - ex) * D) - A))) in *.
  set (J := inject_Z (2 ^ (E - ex))) in *.
  change (inject_Z 2) with 2%Q in Hnear.
  assert (H2 : (a * (Qpow2 ex / inject_Z D)
                <= (J * inject_Z D * (1 # 2)) * (Qpow2 ex / inject_Z D))%Q).
  { apply Qmult_le_compat_r; lra. }
  eapply Qle_trans; [exact H2|]. apply Qle_lteq. right. field. done.
Qed.

(** Half a unit of the exponent of the magnitude is at most the unit
    roundoff times the value, or half the least subnormal number. *)
Lemma half_ulp_bound (mx ex A D : Z) :
  (0 <= mx)%Z -> (0 < D)%Z -> (mx * D <= A)%Z ->
  (ex <= fexp prec emax (Zdigits2 mx + ex))%Z ->
  (Qpow2 (fexp prec emax (Zdigits2 mx + ex) - 1)
   <= unit_roundoff * (inject_Z A / inject_Z D * Qpow2 ex) + half_least)%Q.
Proof.
  intros Hm HD HA Hj.
  assert (HDq : (0 < inject_Z D)%Q)
    by (change 0%Q with (inject_Z 0); by rewrite <- Zlt_Qlt).
  pose proof (Qpow2_pos ex) as Hpex.
  assert (HV : (inject_Z mx * Qpow2 ex
                <= inject_Z A / inject_Z D * Qpow2 ex)%Q).
  { apply Qmult_le_compat_r; [|lra].
    apply Qle_shift_div_l; [done|].
    rewrite <- inject_Z_mult, <- Zle_Qle. done. }
  assert (HV0 : (0 <= inject_Z mx * Qpow2 ex)%Q).
  { apply Qmult_le_0_compat; [|lra].
    change 0%Q with (inject_Z 0). by rewrite <- Zle_Qle. }
  destruct (Z_le_gt_dec (Zdigits2 mx + ex - 53) (-1074)) as [Hsub|Hnorm].
  - replace (fexp prec emax (Zdigits2 mx + ex)) with (-1074)%Z
      by (unfold fexp, SpecFloat.emin, prec, emax; lia).
    change (Qpow2 (-1074 - 1)) with half_least.
    assert (0 <= unit_roundoff * (inject_Z A / inject_Z D * Qpow2 ex))%Q
      by (apply Qmult_le_0_compat; [done | lra]).
    lra.
  - replace (fexp prec emax (Zdigits2 mx + ex)) with (Zdigits2 mx + ex - 53)%Z
      by (unfold fexp, SpecFloat.emin, prec, emax; lia).
    assert (Hmx : (0 < mx)%Z).
    { destruct mx as [|p|p]; [|lia|lia]. simpl in *.
      unfold fexp, SpecFloat.emin, prec, emax in Hj. lia. }
    pose proof (Zdigits2_bound mx Hm) as [_ Hlo]. specialize (Hlo Hmx).
    pose proof (Zdigits2_nonneg mx) as Hd0.
    assert (Hd1 : (1 <= Zdigits2 mx)%Z) by (destruct mx; simpl in *; lia).
    assert (Hlow : (Qpow2 (Zdigits2 mx - 1) * Qpow2 ex
                    <= inject_Z mx * Qpow2 ex)%Q).
    { apply Qmult_le_compat_r; [|lra].
      rewrite <- inject_Z_pow2 by lia. by rewrite <- Zle_Qle. }
    assert (Hu : (Qpow2 (Zdigits2 mx + ex - 53 - 1)
                  == unit_roundoff * (Qpow2 (Zdigits2 mx - 1) * Qpow2 ex))%Q).
    { rewrite <- Qpow2_add.
      replace (Zdigits2 mx + ex - 53 - 1)%Z
        with (-53 + (Zdigits2 mx - 1 + ex))%Z by lia.
      rewrite Qpow2_add. reflexivity. }
    rewrite Hu.
    assert (0 <= half_least)%Q by (vm_compute; discriminate).
    assert (Huu : (0 <= unit_roundoff)%Q) by (vm_compute; discriminate).
    assert (unit_roundoff * (Qpow2 (Zdigits2 mx - 1) * Qpow2 ex)
            <= unit_roundoff * (inject_Z A / inject_Z D * Qpow2 ex))%Q.
    { rewrite !(Qmult_comm unit_roundoff).
      apply Qmult_le_compat_r; [lra | done]. }
    lra.
Qed.

Lemma inject_Z_cond_Zopp (s : bool) (z : Z) :
  (inject_Z (cond_Zopp s z) == Qsign s * inject_Z z)%Q.
Proof.
  destruct s; cbn [cond_Zopp Qsign]; [rewrite inject_Z_opp|]; ring.
Qed.

Lemma SF2Q_finite_sign (s : bool) (m : positive) (e : Z) :
  (SF2Q (S754_finite s m e) == Qsign s * (inject_Z (Zpos m) * Qpow2 e))%Q.
Proof. rewrite SF2Q_finite. destruct s; cbn [Qsign]; ring. Qed.

Lemma Qsign_xorb (a b : bool) : (Qsign (xorb a b) == Qsign a * Qsign b)%Q.
Proof. destruct a, b; reflexivity. Qed.

Lemma Qabs_Qsign (s : bool) (v : Q) : (Qabs (Qsign s * v) == Qabs v)%Q.
Proof.
  destruct s; cbn [Qsign].
  - assert (H : (- (1) * v == - v)%Q) by ring. rewrite H. apply Qabs_opp.
  - by rewrite Qmult_1_l.
Qed.

(** The error of a rounding to nearest, when the result is finite: at
    most the unit roundoff times the exact value [V], or half the least
    subnormal number. *)
Lemma binary_round_aux_error (sx : bool) (mx ex : Z) (lx : location)
    (A D : Z) :
  (0 <= mx)%Z -> (0 < D)%Z -> loc_ok (shr_record_of_loc mx lx) A D ->
  (ex <= fexp prec emax (Zdigits2 mx + ex))%Z ->
  is_finite (binary_round_aux prec emax sx mx ex lx) = true ->
  (Qabs (SF2Q (binary_round_aux prec emax sx mx ex lx)
         - Qsign sx * (inject_Z A / inject_Z D * Qpow2 ex))
   <= unit_roundoff * (inject_Z A / inject_Z D * Qpow2 ex) + half_least)%Q.
Proof.
  intros Hm HD Hok Hj Hfin.
  destruct (binary_round_aux_spec sx mx ex lx A D Hm HD Hok Hj)
    as (m' & Hm' & Hnear & Hval).
  rewrite (Hval Hfin), inject_Z_cond_Zopp.
  set (E := fexp prec emax (Zdigits2 mx + ex)) in *.
  set (V := (inject_Z A / inject_Z D * Qpow2 ex)%Q).
  assert (Hfac : (Qsign sx * inject_Z m' * Qpow2 E - Qsign sx * V
                  == Qsign sx * (inject_Z m' * Qpow2 E - V))%Q) by ring.
  rewrite Hfac, Qabs_Qsign.
  eapply Qle_trans; [by apply nearest_mantissa_error|].
  apply half_ulp_bound; [done | done | | done].
  pose proof (loc_ok_bounds _ _ _ HD Hok) as [Hlo _].
  by destruct lx as [|[| |]].
Qed.

(** A mantissa of fewer bits than its exponent allows is left as it is. *)
Lemma binary_round_aux_short (sx : bool) (p : positive) (ex : Z) :
  (fexp prec emax (Zpos (digits2_pos p) + ex) < ex)%Z ->
  binary_round_aux prec emax sx (Zpos p) ex loc_Exact
  = if (ex <=? emax - prec)%Z then S754_finite sx p ex else S754_infinity sx.
Proof.
  intros Hlt. unfold binary_round_aux, shr_fexp, shr.
  cbn [Zdigits2 shr_record_of_loc].
  destruct (fexp prec emax (Zpos (digits2_pos p) + ex) - ex)%Z eqn:Ej;
    [lia|lia|].
  cbn [shr_m loc_of_shr_record round_nearest_even Zdigits2 shr_record_of_loc].
  rewrite Ej. reflexivity.
Qed.

Lemma is_finite_if (b : bool) (sx : bool) (p : positive) (e : Z) :
  is_finite (if b then S754_finite sx p e else S754_infinity sx) = true ->
  b = true.
Proof. by destruct b. Qed.

Lemma half_least_nonneg : (0 <= half_least)%Q.
Proof. vm_compute. discriminate. Qed.

Lemma unit_roundoff_nonneg : (0 <= unit_roundoff)%Q.
Proof. vm_compute. discriminate. Qed.

(** The rounding error of a product. *)
Lemma fmul_error (x y : double) :
  is_finite (fmul x y) = true ->
  (Qabs (SF2Q (fmul x y) - SF2Q x * SF2Q y)
   <= unit_roundoff * Qabs (SF2Q x * SF2Q y) + half_least)%Q.
Proof.
  pose proof half_least_nonneg as Hh. pose proof unit_roundoff_nonneg as Hu.
  assert (Hzero : ∀ a b : Q, (a == 0)%Q ∨ (b == 0)%Q ->
            (Qabs (0 - a * b) <= unit_roundoff * Qabs (a * b) + half_least)%Q).
  { intros a b Hab.
    assert (Hp : (a * b == 0)%Q) by (destruct Hab as [-> | ->]; ring).
    rewrite Hp. change (Qabs (0 - 0)) with 0%Q. change (Qabs 0) with 0%Q. lra. }
  destruct x as [sx|sx| |sx mx ex], y as [sy|sy| |sy my ey];
    try discriminate; intros Hfin;
    try (apply Hzero; (by left) || (by right)).
  unfold fmul, SFmul in *.
  set (V := (inject_Z (Zpos (mx * my)) / inject_Z 1 * Qpow2 (ex + ey))%Q).
  assert (HV : (SF2Q (S754_finite sx mx ex) * SF2Q (S754_finite sy my ey)
                == Qsign (xorb sx sy) * V)%Q).
  { rewrite !SF2Q_finite_sign, Qsign_xorb. unfold V.
    rewrite Pos2Z.inj_mul, inject_Z_mult, Qpow2_add.
    change (inject_Z 1) with 1%Q. field. }
  assert (HV0 : (0 <= V)%Q).
  { unfold V. pose proof (Qpow2_pos (ex + ey)).
    change (inject_Z 1) with 1%Q. unfold Qdiv.
    repeat apply Qmult_le_0_compat; try lra; try (unfold Qle; simpl; lia). }
  rewrite HV, Qabs_Qsign, (Qabs_pos V) by done.
  destruct (Z_le_gt_dec (ex + ey)
              (fexp prec emax (Zdigits2 (Zpos (mx * my)) + (ex + ey))))
    as [Hj|Hj].
  - apply binary_round_aux_error; [lia | lia | | done | done].
    unfold loc_ok. cbn [shr_record_of_loc shr_r shr_s shr_m]. lia.
  - rewrite binary_round_aux_short in * by (cbn [Zdigits2] in Hj; lia).
    rewrite (is_finite_if _ _ _ _ Hfin), SF2Q_finite_sign.
    assert (Hex : (Qsign (xorb sx sy)
                   * (inject_Z (Zpos (mx * my)) * Qpow2 (ex + ey))
                   - Qsign (xorb sx sy) * V == 0)%Q)
      by (unfold V; change (inject_Z 1) with 1%Q; field).
    rewrite Hex. change (Qabs 0) with 0%Q.
    assert (0 <= unit_roundoff * V)%Q by (by apply Qmult_le_0_compat).
    lra.
Qed.

(** The rounding error of the conversion of an integer. *)
Lemma binary_round_error (sg : bool) (p : positive) :
  is_finite (binary_round prec emax sg p 0) = true ->
  (Qabs (SF2Q (binary_round prec emax sg p 0) - Qsign sg * inject_Z (Zpos p))
   <= unit_roundoff * inject_Z (Zpos p) + half_least)%Q.
Proof.
  unfold binary_round, shl_align.
  set (F := fexp prec emax (Zpos (digits2_pos p) + 0)).
  destruct (F - 0)%Z as [|k|k] eqn:EF.
  - intros Hfin.
    assert (HV : (inject_Z (Zpos p) / inject_Z 1 * Qpow2 0
                  == inject_Z (Zpos p))%Q)
      by (change (inject_Z 1) with 1%Q; change (Qpow2 0) with 1%Q; field).
    rewrite <- HV.
    apply binary_round_aux_error; [lia | lia | | | done].
    + unfold loc_ok. cbn [shr_record_of_loc shr_r shr_s shr_m]. lia.
    + cbn [Zdigits2]. fold F. lia.
  - intros Hfin.
    assert (HV : (inject_Z (Zpos p) / inject_Z 1 * Qpow2 0
                  == inject_Z (Zpos p))%Q)
      by (change (inject_Z 1) with 1%Q; change (Qpow2 0) with 1%Q; field).
    rewrite <- HV.
    apply binary_round_aux_error; [lia | lia | | | done].
    + unfold loc_ok. cbn [shr_record_of_loc shr_r shr_s shr_m]. lia.
    + cbn [Zdigits2]. fold F. lia.
  - change (PosDef.Pos.iter xO p k) with (Pos.iter xO p k).
    intros Hfin.
    assert (HF : F = Z.neg k) by lia.
    assert (HV : (inject_Z (Zpos (Pos.iter xO p k)) / inject_Z 1 * Qpow2 F
                  == inject_Z (Zpos p))%Q).
    { rewrite Zpos_iter_xO, inject_Z_mult, inject_Z_pow2 by lia.
      change (inject_Z 1) with 1%Q.
      assert (H1 : (Qpow2 (Zpos k) * Qpow2 F == 1)%Q).
      { rewrite <- Qpow2_add, HF. by replace (Zpos k + Z.neg k)%Z with 0%Z by lia. }
      assert (H2 : (inject_Z (Zpos p) * Qpow2 (Zpos k) / 1 * Qpow2 F
                    == inject_Z (Zpos p) * (Qpow2 (Zpos k) * Qpow2 F))%Q)
        by field.
      rewrite H2, H1. ring. }
    rewrite <- HV.
    apply binary_round_aux_error; [lia | lia | | | done].
    + unfold loc_ok. cbn [shr_record_of_loc shr_r shr_s shr_m]. lia.
    + cbn [Zdigits2]. rewrite digits2_pos_shift.
      unfold F, fexp, SpecFloat.emin, prec, emax in *. lia.
Qed.

Lemma double_of_int128_error (n : Z) :
  is_finite (double_of_int128 n) = true ->
  (Qabs (SF2Q (double_of_int128 n) - inject_Z n)
   <= unit_roundoff * Qabs (inject_Z n) + half_least)%Q.
Proof.
  pose proof half_least_nonneg as Hh.
  unfold double_of_int128, binary_normalize. destruct n as [|p|p].
  - intros _. vm_compute. discriminate.
  - intros Hfin. pose proof (binary_round_error false p Hfin) as H.
    cbn [Qsign] in H. rewrite Qmult_1_l in H.
    rewrite (Qabs_pos (inject_Z (Zpos p))) by (unfold Qle; simpl; lia).
    exact H.
  - intros Hfin. pose proof (binary_round_error true p Hfin) as H.
    cbn [Qsign] in H.
    assert (Hn : (inject_Z (Z.neg p) == - (1) * inject_Z (Zpos p))%Q)
      by (change (Z.neg p) with (- Zpos p)%Z; rewrite inject_Z_opp; ring).
    rewrite Hn, (Qabs_Qsign true). 
    rewrite (Qabs_pos (inject_Z (Zpos p))) by (unfold Qle; simpl; lia).
    exact H.
Qed.

(** The location of a quotient from its remainder. *)
Lemma new_location_ok (d q r : Z) :
  (0 < d)%Z -> (0 <= r < d)%Z ->
  loc_ok (shr_record_of_loc q (new_location d r)) (q * d + r) d.
Proof.
  intros Hd Hr. unfold new_location, new_location_even, new_location_odd.
  destruct (Z.even d) eqn:Hev.
  - destruct (Z.eqb_spec r 0) as [->|Hr0].
    + unfold loc_ok. cbn [shr_record_of_loc shr_r shr_s shr_m]. lia.
    + destruct (Z.compare_spec (2 * r) d);
        unfold loc_ok; cbn [shr_record_of_loc shr_r shr_s shr_m]; lia.
  - destruct (Z.eqb_spec r 0) as [->|Hr0].
    + unfold loc_ok. cbn [shr_record_of_loc shr_r shr_s shr_m]. lia.
    + assert (Hodd : Z.odd d = true) by (by rewrite <- Z.negb_even, Hev).
      apply Z.odd_spec in Hodd as [c Hc].
      destruct (Z.compare_spec (2 * r + 1) d);
        unfold loc_ok; cbn [shr_record_of_loc shr_r shr_s shr_m]; lia.
Qed.

Lemma Zdigits2_ge (q k : Z) :
  (0 <= q)%Z -> (2 ^ (k - 1) <= q)%Z -> (1 <= k)%Z -> (k <= Zdigits2 q)%Z.
Proof.
  intros Hq Hk Hk1. pose proof (Zdigits2_bound q Hq) as [Hhi _].
  pose proof (Zdigits2_nonneg q).
  destruct (Z_le_gt_dec k (Zdigits2 q)) as [?|Hgt]; [done|].
  assert (2 ^ Zdigits2 q <= 2 ^ (k - 1))%Z by (apply Z.pow_le_mono_r; lia).
  lia.
Qed.

Lemma fexp_mono (a b : Z) :
  (a <= b)%Z -> (fexp prec emax a <= fexp prec emax b)%Z.
Proof. unfold fexp, SpecFloat.emin, prec, emax. lia. Qed.

(** The quotient of two mantissas as the division computes it: the
    integer quotient [q] at the exponent [e'], with the location of the
    exact quotient between [q] and [q + 1]. *)
Lemma SFdiv_core_binary_spec (m1 m2 : positive) (e1 e2 : Z) :
  ∃ q e' l A,
    SFdiv_core_binary prec emax (Zpos m1) e1 (Zpos m2) e2 = (q, e', l) ∧
    (0 <= q)%Z ∧
    loc_ok (shr_record_of_loc q l) A (Zpos m2) ∧
    (e' <= fexp prec emax (Zdigits2 q + e'))%Z ∧
    (inject_Z A / inject_Z (Zpos m2) * Qpow2 e'
     == (inject_Z (Zpos m1) * Qpow2 e1) / (inject_Z (Zpos m2) * Qpow2 e2))%Q.
Proof.
  unfold SFdiv_core_binary.
  change IntDef.Z.min with Z.min. change IntDef.Z.shiftl with Z.shiftl.
  change IntDef.Z.div_eucl with Z.div_eucl.
  set (d1 := Zdigits2 (Zpos m1)). set (d2 := Zdigits2 (Zpos m2)).
  set (e' := Z.min (fexp prec emax (d1 + e1 - (d2 + e2))) (e1 - e2)).
  set (s := (e1 - e2 - e')%Z).
  assert (Hs : (0 <= s)%Z) by (unfold s, e'; lia).
  set (m' := match s with
             | 0%Z => Zpos m1
             | Zpos _ => Z.shiftl (Zpos m1) s
             | Zneg _ => 0%Z
             end).
  assert (Hm' : m' = (Zpos m1 * 2 ^ s)%Z).
  { unfold m'. destruct s as [|p|p]; [simpl; lia| |lia].
    by rewrite Z.shiftl_mul_pow2 by lia. }
  assert (H2s : (0 < 2 ^ s)%Z) by (apply Z.pow_pos_nonneg; lia).
  pose proof (Z.div_eucl_eq m' (Zpos m2) ltac:(lia)) as Heq.
  pose proof (Z.mod_pos_bound m' (Zpos m2) ltac:(lia)) as Hr.
  pose proof (Z.div_pos m' (Zpos m2) ltac:(nia) ltac:(lia)) as Hq.
  unfold Z.modulo, Z.div in Hr, Hq.
  destruct (Z.div_eucl m' (Zpos m2)) as [q r].
  exists q, e', (new_location (Zpos m2) r), m'.
  split; [reflexivity|]. split; [done|]. split; [|split].
  - rewrite Heq, (Z.mul_comm (Zpos m2) q). by apply new_location_ok.
  - unfold e' at 1.
    eapply Z.le_trans; [apply Z.le_min_l|]. apply fexp_mono.
    assert (Hk : (d1 - d2 + s <= Zdigits2 q)%Z).
    { destruct (Z_le_gt_dec (d1 - d2 + s) 0) as [?|Hpos];
        [pose proof (Zdigits2_nonneg q); lia|].
      apply Zdigits2_ge; [done| |lia].
      pose proof (digits2_pos_bound m1) as [Hlo1 _].
      pose proof (digits2_pos_bound m2) as [_ Hhi2].
      fold (Zdigits2 (Zpos m1)) in Hlo1. fold d1 in Hlo1.
      fold (Zdigits2 (Zpos m2)) in Hhi2. fold d2 in Hhi2.
      assert (Hd1 : (1 <= d1)%Z) by (unfold d1; simpl; lia).
      assert (Hd2 : (1 <= d2)%Z) by (unfold d2; simpl; lia).
      assert (Hlow : (2 ^ (d1 - 1) * 2 ^ s <= m')%Z) by nia.
      rewrite <- Z.pow_add_r in Hlow by lia.
      replace (d1 - 1 + s)%Z with (d1 - d2 + s - 1 + d2)%Z in Hlow by lia.
      rewrite Z.pow_add_r in Hlow by lia.
      assert (0 < 2 ^ (d1 - d2 + s - 1))%Z by (apply Z.pow_pos_nonneg; lia).
      assert (Hlt : (2 ^ (d1 - d2 + s - 1) * 2 ^ d2 < (q + 1) * 2 ^ d2)%Z)
        by nia.
      assert (0 < 2 ^ d2)%Z by (apply Z.pow_pos_nonneg; lia).
      nia. }
    unfold s in Hk. lia.
  - rewrite Hm', inject_Z_mult, inject_Z_pow2 by lia.
    assert (He : (Qpow2 e1 == Qpow2 s * Qpow2 e' * Qpow2 e2)%Q).
    { rewrite <- !Qpow2_add. by replace (s + e' + e2)%Z with e1
        by (unfold s; lia). }
    rewrite He.
    pose proof (Qpow2_pos e2). 
    assert (0 < inject_Z (Zpos m2))%Q by (unfold Qlt; simpl; lia).
    field. split; lra.
Qed.

Lemma Qsign_div (a b : bool) (x y : Q) :
  ¬ (y == 0)%Q ->
  ((Qsign a * x) / (Qsign b * y) == Qsign (xorb a b) * (x / y))%Q.
Proof. intros Hy. destruct a, b; cbn [Qsign xorb]; field; done. Qed.

(** The rounding error of a quotient by a positive double. *)
Lemma fdiv_error (x y : double) :
  is_finite (fdiv x y) = true -> (0 < SF2Q y)%Q ->
  (Qabs (SF2Q (fdiv x y) - SF2Q x / SF2Q y)
   <= unit_roundoff * Qabs (SF2Q x / SF2Q y) + half_least)%Q.
Proof.
  pose proof half_least_nonneg as Hh. pose proof unit_roundoff_nonneg as Hu.
  intros Hfin Hy.
  destruct y as [sy|sy| |sy my ey];
    try (exfalso; vm_compute in Hy; discriminate Hy).
  destruct x as [sx|sx| |sx mx ex]; try discriminate Hfin.
  - unfold fdiv, SFdiv. rewrite !SF2Q_zero.
    assert (Hz : (0 - 0 / SF2Q (S754_finite sy my ey) == 0)%Q)
      by (unfold Qdiv; ring).
    assert (Hz' : (0 / SF2Q (S754_finite sy my ey) == 0)%Q)
      by (unfold Qdiv; ring).
    rewrite Hz, Hz'. change (Qabs 0) with 0%Q. lra.
  - unfold fdiv, SFdiv in *.
    destruct (SFdiv_core_binary_spec mx my ex ey)
      as (q & e' & l & A & Hcore & Hq & Hok & Hj & Hval).
    rewrite Hcore in *.
    assert (Hmy : (0 < inject_Z (Zpos my) * Qpow2 ey)%Q).
    { pose proof (Qpow2_pos ey).
      assert (0 < inject_Z (Zpos my))%Q by (unfold Qlt; simpl; lia).
      by apply Qmult_lt_0_compat. }
    assert (HV : (SF2Q (S754_finite sx mx ex) / SF2Q (S754_finite sy my ey)
                  == Qsign (xorb sx sy)
                     * (inject_Z A / inject_Z (Zpos my) * Qpow2 e'))%Q).
    { rewrite !SF2Q_finite_sign, Hval. apply Qsign_div. lra. }
    assert (HV0 : (0 <= inject_Z A / inject_Z (Zpos my) * Qpow2 e')%Q).
    { rewrite Hval. apply Qle_shift_div_l; [done|].
      rewrite Qmult_0_l. pose proof (Qpow2_pos ex).
      apply Qmult_le_0_compat; [unfold Qle; simpl; lia | lra]. }
    rewrite HV, Qabs_Qsign.
    rewrite (Qabs_pos (inject_Z A / inject_Z (Zpos my) * Qpow2 e')) by done.
    apply binary_round_aux_error; [done | lia | done | done | done].
Qed.

Lemma fdiv_finite_l (a b : double) :
  is_finite (fdiv a b) = true -> (0 < SF2Q b)%Q -> is_finite a = true.
Proof.
  destruct b as [sb|sb| |sb mb eb]; intros H Hb;
    try (exfalso; vm_compute in Hb; discriminate Hb).
  by destruct a.
Qed.

(** One coordinate of a round trip, for every positive scale: the
    truncation loses less than one unit [1/s] of the grid; the product by
    the scale, the conversion of the stored integer and the quotient by
    the scale are each rounded to nearest. *)
Lemma round_trip_coordinate_tolerance (s c : double) (n : Z) :
  (0 < SF2Q s)%Q ->
  int128_of_double (fmul c s) = Some n ->
  is_finite (fdiv (double_of_int128 n) s) = true ->
  (Qabs (SF2Q (fdiv (double_of_int128 n) s) - SF2Q c)
   < round_trip_tolerance s c)%Q.
Proof.
  intros Hs Hn Hfin.
  pose proof (int128_of_double_truncates _ _ Hn)
    as (HfinP & _ & Htr%truncated_toward_zero_Qabs).
  pose proof (fmul_error c s HfinP) as H1.
  pose proof (double_of_int128_error n (fdiv_finite_l _ _ Hfin Hs)) as H2.
  pose proof (fdiv_error _ _ Hfin Hs) as H3.
  unfold round_trip_tolerance.
  set (S := SF2Q s) in *. set (X := SF2Q c) in *.
  set (P := SF2Q (fmul c s)) in *.
  set (Dn := SF2Q (double_of_int128 n)) in *.
  set (X' := SF2Q (fdiv (double_of_int128 n) s)) in *.
  set (Zn := inject_Z n) in *.
  set (T := (/ S)%Q).
  assert (HT : (0 < T)%Q) by (by apply Qinv_lt_0_compat).
  assert (Hne : ¬ (S == 0)%Q) by lra.
  assert (HST : (S * T == 1)%Q) by (unfold T; field; done).
  assert (HabsT : ∀ a : Q, (Qabs (a * T) == Qabs a * T)%Q).
  { intros a. rewrite Qabs_Qmult, (Qabs_pos T) by lra. reflexivity. }
  assert (HabsS : ∀ a : Q, (Qabs (a * S) == Qabs a * S)%Q).
  { intros a. rewrite Qabs_Qmult, (Qabs_pos S) by lra. reflexivity. }
  (* the quantities in units of the coordinate *)
  set (Xa := Qabs X) in *.
  set (a1 := (Qabs (P - X * S) * T)%Q).
  set (tn := (Qabs (Zn - P) * T)%Q).
  set (Na := (Qabs Zn * T)%Q).
  set (a2 := (Qabs (Dn - Zn) * T)%Q).
  set (Da := (Qabs Dn * T)%Q).
  set (a3 := Qabs (X' - Dn / S)).
  assert (HXa : (0 <= Xa)%Q) by apply Qabs_nonneg.
  assert (F1 : (a1 <= unit_roundoff * Xa + half_least * T)%Q).
  { unfold a1. rewrite HabsS in H1.
    eapply Qle_trans; [apply Qmult_le_compat_r; [exact H1 | lra]|].
    apply Qle_lteq. right.
    assert (Heq : ((unit_roundoff * (Qabs X * S) + half_least) * T
                   == unit_roundoff * Qabs X * (S * T) + half_least * T)%Q)
      by ring.
    rewrite Heq, HST. unfold Xa. ring. }
  assert (F2 : (tn < T)%Q).
  { unfold tn. rewrite <- (Qmult_1_l T) at 2.
    by apply Qmult_lt_compat_r. }
  assert (F3 : (Na <= tn + a1 + Xa)%Q).
  { unfold Na, tn, a1.
    assert (Htri : (Qabs Zn <= Qabs (Zn - P) + Qabs (P - X * S) + Qabs X * S)%Q).
    { rewrite <- HabsS.
      assert (Heq : (Zn == (Zn - P) + (P - X * S) + X * S)%Q) by ring.
      rewrite Heq at 1.
      eapply Qle_trans; [apply Qabs_triangle|].
      apply Qplus_le_compat; [apply Qabs_triangle | apply Qle_refl]. }
    eapply Qle_trans; [apply Qmult_le_compat_r; [exact Htri | lra]|].
    apply Qle_lteq. right.
    assert (Heq : ((Qabs (Zn - P) + Qabs (P - X * S) + Qabs X * S) * T
                   == Qabs (Zn - P) * T + Qabs (P - X * S) * T
                      + Qabs X * (S * T))%Q) by ring.
    rewrite Heq, HST. unfold Xa. ring. }
  assert (F4 : (a2 <= unit_roundoff * Na + half_least * T)%Q).
  { unfold a2, Na.
    eapply Qle_trans; [apply Qmult_le_compat_r; [exact H2 | lra]|].
    apply Qle_lteq. right. ring. }
  assert (F5 : (Da <= Na + a2)%Q).
  { unfold Da, Na, a2.
    assert (Htri : (Qabs Dn <= Qabs Zn + Qabs (Dn - Zn))%Q).
    { assert (Heq : (Dn == Zn + (Dn - Zn))%Q) by ring.
      rewrite Heq at 1. apply Qabs_triangle. }
    eapply Qle_trans; [apply Qmult_le_compat_r; [exact Htri | lra]|].
    apply Qle_lteq. right. ring. }
  assert (F6 : (a3 <= unit_roundoff * Da + half_least)%Q).
  { unfold a3, Da. rewrite <- HabsT. exact H3. }
  assert (F7 : (Qabs (X' - X) <= a3 + a2 + tn + a1)%Q).
  { unfold a3, a2, tn, a1. rewrite <- !HabsT.
    assert (Heq : (X' - X == (X' - Dn / S) + (Dn - Zn) * T + (Zn - P) * T
                             + (P - X * S) * T)%Q)
      by (unfold T; field; done).
    rewrite Heq at 1.
    eapply Qle_trans; [apply Qabs_triangle|].
    apply Qplus_le_compat; [|apply Qle_refl].
    eapply Qle_trans; [apply Qabs_triangle|].
    apply Qplus_le_compat; [|apply Qle_refl].
    apply Qabs_triangle. }
  assert (Ha1 : (0 <= a1)%Q)
    by (unfold a1; apply Qmult_le_0_compat; [apply Qabs_nonneg | lra]).
  assert (Htn : (0 <= tn)%Q)
    by (unfold tn; apply Qmult_le_0_compat; [apply Qabs_nonneg | lra]).
  clearbody a1 tn Na a2 Da a3 Xa T.
  change (Qpow2 (-51)) with (1 # 2251799813685248)%Q.
  change (Qpow2 (-1075)) with half_least.
  unfold unit_roundoff, half_least in *.
  lra.
Qed.

(** C6 (amended).  Converting a particle to fixed point and back, with the
    same count and a positive scale [s], gives coordinates that differ from
    the original ones by less than [1/s] plus what three roundings to
    nearest can add, [2^-51 * (|x| + 1/s) + 2^-1075], wherever the result
    is finite: the truncation loses less than one unit of the grid, and
    the product of the coordinate with [s], the conversion of the stored
    integer to a double and the quotient by [s] are rounded.  Where the
    product and the quotient are not rounded the difference is less than
    [1/s]; this is so for every double when the scale is [2^k] with
    [0 <= k <= 1022]. *)
Theorem round_trip_quantization
    (psi : list reb_particle_int) (ps : list reb_particle) (N : nat)
    (s : double) (psi' : list reb_particle_int) (ps0 ps' : list reb_particle)
    (i : nat) (p : reb_particle) (q : reb_particle_int) (p' : reb_particle) :
  to_int psi ps N s = Some psi' ->
  to_double ps0 psi' N s = Some ps' ->
  i < N -> ps !! i = Some p -> psi' !! i = Some q -> ps' !! i = Some p' ->
  (0 < SF2Q s)%Q ->
  (Forall (fun c' => is_finite c' = true) (coords p') ->
   Forall2 (fun c c' =>
              (Qabs (SF2Q c' - SF2Q c) < round_trip_tolerance s c)%Q)
     (coords p) (coords p'))
  ∧ (Forall2 (exact_round_trip s) (coords p) (int_coords q) ->
     Forall2 (fun c c' => (Qabs (SF2Q c' - SF2Q c) < / SF2Q s)%Q)
       (coords p) (coords p'))
  ∧ (∀ k, (0 <= k <= 1022)%Z -> s = pow2_double k ->
       Forall (fun c => valid_binary prec emax c = true) (coords p) ->
       Forall2 (fun c c' => (Qabs (SF2Q c' - SF2Q c) < / SF2Q s)%Q)
         (coords p) (coords p')).
Proof.
  intros Hti%to_int_Some Htd%to_double_Some Hi Hp Hq Hp' Hs.
  destruct (prefix_updated_lookup_r _ _ _ _ _ _ Hti Hi Hq)
    as (q0 & _ & p2 & Hp2 & Hconv).
  assert (p2 = p) as -> by congruence.
  destruct (prefix_updated_lookup_r _ _ _ _ _ _ Htd Hi Hp')
    as (p0 & _ & q2 & Hq2 & ->).
  assert (q2 = q) as -> by congruence.
  apply to_int_particle_Some in Hconv
    as (x & y & z & vx & vy & vz & Hx & Hy & Hz & Hvx & Hvy & Hvz & ->).
  rewrite to_double_particle_coords.
  change (double_coords (PI.mk x y z vx vy vz) s)
    with [fdiv (double_of_int128 x) s; fdiv (double_of_int128 y) s;
          fdiv (double_of_int128 z) s; fdiv (double_of_int128 vx) s;
          fdiv (double_of_int128 vy) s; fdiv (double_of_int128 vz) s].
  assert (Hexact :
    Forall2 (exact_round_trip s) (coords p) (int_coords (PI.mk x y z vx vy vz)) ->
    Forall2 (fun c c' => (Qabs (SF2Q c' - SF2Q c) < / SF2Q s)%Q) (coords p)
      [fdiv (double_of_int128 x) s; fdiv (double_of_int128 y) s;
       fdiv (double_of_int128 z) s; fdiv (double_of_int128 vx) s;
       fdiv (double_of_int128 vy) s; fdiv (double_of_int128 vz) s]).
  { unfold coords, int_coords. simpl. intros Hex.
    repeat match goal with
           | H : Forall2 _ (_ :: _) (_ :: _) |- _ =>
               apply Forall2_cons_1 in H as [? H]
           end.
    repeat (constructor; [by apply round_trip_coordinate|]).
    constructor. }
  split; [|split; [exact Hexact|]].
  - unfold coords. intros Hfin.
    repeat match goal with
           | H : Forall _ (_ :: _) |- _ => apply Forall_cons_1 in H as [? H]
           end.
    repeat (constructor; [by apply round_trip_coordinate_tolerance|]).
    constructor.
  - intros k Hk -> Hvalid. apply Hexact.
    unfold coords, int_coords in *. simpl.
    repeat match goal with
           | H : Forall _ (_ :: _) |- _ => apply Forall_cons_1 in H as [? H]
           end.
    repeat (constructor; [by apply exact_round_trip_pow2|]).
    constructor.
Qed.

(** ** The composition coefficients *)

(** C8.  The coefficients are normalized: the decimal constants of the
    source satisfy [2*gamma1 + 2*gamma2 + 2*gamma3 + 2*gamma4 + gamma5 = 1]
    exactly, so do the values of the five doubles, and the sum evaluated
    in double arithmetic is within one unit in the last place, [2^-52], of
    1. *)
Theorem composition_normalization :
  (2 * Qdecimal false 39216144400731413928 20
   + 2 * Qdecimal false 33259913678935943860 20
   + 2 * Qdecimal true 70624617255763935981 20
   + 2 * Qdecimal false 82213596293550800230 21
   + Qdecimal false 79854399093482996340 20 == 1)%Q
  ∧ (2 * SF2Q gamma1 + 2 * SF2Q gamma2 + 2 * SF2Q gamma3 + 2 * SF2Q gamma4
     + SF2Q gamma5 == 1)%Q
  ∧ is_finite composition_sum = true
  ∧ (Qabs (SF2Q composition_sum - 1) <= 1 # 2 ^ 52)%Q.
Proof.
  split; [vm_compute; reflexivity|].
  split; [vm_compute; reflexivity|].
  split; [vm_compute; reflexivity|].
  vm_compute. discriminate.
Qed.

Example gamma_literals :
  gamma1 = double_of_decimal false 39216144400731413928 20 ∧
  gamma2 = double_of_decimal false 33259913678935943860 20 ∧
  gamma3 = double_of_decimal true 70624617255763935981 20 ∧
  gamma4 = double_of_decimal false 82213596293550800230 21 ∧
  gamma5 = double_of_decimal false 79854399093482996340 20 ∧
  two = double_of_decimal false 2 0.
Proof. repeat split; vm_compute; reflexivity. Qed.

(** ** The theorems at concrete simulations *)

Lemma harmonic_positional : force_positional Ex.harmonic.
Proof.
  intros r r' (_ & _ & HN & _ & Hps) i Hi. unfold Ex.harmonic.
  apply (f_equal (fun l => l !! i)) in Hps.
  rewrite !list_lookup_fmap, <- HN, !lookup_take_lt in Hps by done.
  destruct (Sim.particles r !! i) as [p|], (Sim.particles r' !! i) as [p'|];
    simpl in Hps; try discriminate; [|reflexivity].
  injection Hps as -> -> -> _. reflexivity.
Qed.

Lemma harmonic_deterministic : force_deterministic Ex.harmonic.
Proof.
  intros r r' Hin i Hi. unfold Ex.harmonic.
  injection Hin as _ _ HN _ _ Hps.
  apply (f_equal (fun l => l !! i)) in Hps.
  rewrite !list_lookup_fmap, <- HN, !lookup_take_lt in Hps by done.
  destruct (Sim.particles r !! i) as [p|], (Sim.particles r' !! i) as [p'|];
    simpl in Hps; try discriminate; [|reflexivity].
  injection Hps as -> -> -> _. reflexivity.
Qed.

(** Under a drag the way back does not restore the shadow state: a force
    that reads the velocities sees other velocities on the way back. *)
Example drag_not_restored :
  leapfrog Ex.drag Ex.r_ready Ex.half = Some ExRun.drag_fwd ∧
  leapfrog Ex.drag ExRun.drag_fwd (fneg Ex.half) = Some ExRun.drag_back ∧
  Janus.p_curr (Sim.ri_janus ExRun.drag_back)
  ≠ Janus.p_curr (Sim.ri_janus Ex.r_ready).
Proof.
  split; [vm_compute; reflexivity|]. split; [vm_compute; reflexivity|].
  vm_compute. discriminate.
Qed.

Lemma drag_of_particle_states : force_of_particle_states Ex.drag.
Proof.
  intros r r' HN Hps i Hi. unfold Ex.drag.
  apply (f_equal (fun l => l !! i)) in Hps.
  rewrite !list_lookup_fmap, <- HN, !lookup_take_lt in Hps by done.
  destruct (Sim.particles r !! i) as [p|], (Sim.particles r' !! i) as [p'|];
    simpl in Hps; try discriminate; [|reflexivity].
  injection Hps as _ _ _ -> -> -> _. reflexivity.
Qed.

(** A drag returns identical accelerations at identical floating-point
    particle states, and the way back under it does not restore the
    shadow state: at the force evaluation of the way back the velocities
    are not those of the way there. *)
Lemma drag_not_reversible : ¬ reversible_for_forces_of_particle_states.
Proof.
  intros H.
  assert (Hfwd : leapfrog Ex.drag Ex.r_ready Ex.half = Some ExRun.drag_fwd)
    by (vm_compute; reflexivity).
  assert (Hback : leapfrog Ex.drag ExRun.drag_fwd (fneg Ex.half)
                  = Some ExRun.drag_back) by (vm_compute; reflexivity).
  assert (Hwf : Forall wf_particle_int (shadow Ex.r_ready))
    by (repeat constructor).
  specialize (H Ex.drag Ex.r_ready Ex.half ExRun.drag_fwd ExRun.drag_back
                drag_of_particle_states Hwf Hfwd Hback).
  vm_compute in H. discriminate H.
Qed.

Lemma leapfrog_reversible_witness :
  (Forall wf_particle_int (shadow Ex.r_ready) ∧
   leapfrog Ex.harmonic Ex.r_ready Ex.half = Some ExRun.fwd ∧
   leapfrog Ex.harmonic ExRun.fwd (fneg Ex.half) = Some ExRun.back ∧
   (∀ rf rb,
       leapfrog_before_force Ex.r_ready Ex.half = Some rf ->
       leapfrog_before_force ExRun.fwd (fneg Ex.half) = Some rb ->
       same_positions rf rb ->
       ∀ i, i < Sim.N Ex.r_ready -> Ex.harmonic rb i = Ex.harmonic rf i)) ∧
  Janus.p_curr (Sim.ri_janus ExRun.back)
  = Janus.p_curr (Sim.ri_janus Ex.r_ready).
Proof.
  assert (Hwf : Forall wf_particle_int (shadow Ex.r_ready)).
  { repeat constructor. }
  assert (Hfwd : leapfrog Ex.harmonic Ex.r_ready Ex.half = Some ExRun.fwd).
  { vm_compute. reflexivity. }
  assert (Hback : leapfrog Ex.harmonic ExRun.fwd (fneg Ex.half)
                  = Some ExRun.back).
  { vm_compute. reflexivity. }
  assert (Hacc : ∀ rf rb,
       leapfrog_before_force Ex.r_ready Ex.half = Some rf ->
       leapfrog_before_force ExRun.fwd (fneg Ex.half) = Some rb ->
       same_positions rf rb ->
       ∀ i, i < Sim.N Ex.r_ready -> Ex.harmonic rb i = Ex.harmonic rf i).
  { intros rf rb Hrf Hrb Hsame i Hi. symmetry.
    apply harmonic_positional; [exact Hsame|].
    vm_compute in Hrf. injection Hrf as <-. exact Hi. }
  split; [exact (conj Hwf (conj Hfwd (conj Hback Hacc)))|].
  exact (leapfrog_reversible Ex.harmonic Ex.r_ready Ex.half ExRun.fwd
           ExRun.back Hwf Hfwd Hback Hacc).
Defined.

Lemma leapfrog_increments_truncated_witness :
  (leapfrog Ex.harmonic Ex.r_ready Ex.half = Some ExRun.fwd ∧
   0 < Sim.N Ex.r_ready ∧
   shadow Ex.r_ready !! 0 = Some (PI.mk 1073741824 0 0 0 536870912 0) ∧
   shadow ExRun.fwd !! 0
   = Some (PI.mk 939524096 251658240 0 (-536870912) 469762048 0)) ∧
  ∃ p, Sim.particles ExRun.fwd !! 0 = Some p ∧
    coordinate_step truncated_toward_zero (fdiv Ex.half two)
      (fmul (fmul Ex.scale30 Ex.half) (P.ax p))
      1073741824 0 939524096 (-536870912) ∧
    coordinate_step truncated_toward_zero (fdiv Ex.half two)
      (fmul (fmul Ex.scale30 Ex.half) (P.ay p))
      0 536870912 251658240 469762048 ∧
    coordinate_step truncated_toward_zero (fdiv Ex.half two)
      (fmul (fmul Ex.scale30 Ex.half) (P.az p))
      0 0 0 0.
Proof.
  assert (Hfwd : leapfrog Ex.harmonic Ex.r_ready Ex.half = Some ExRun.fwd).
  { vm_compute. reflexivity. }
  assert (HN : 0 < Sim.N Ex.r_ready) by (simpl; lia).
  assert (Hq : shadow Ex.r_ready !! 0
               = Some (PI.mk 1073741824 0 0 0 536870912 0)) by reflexivity.
  assert (Hq' : shadow ExRun.fwd !! 0
                = Some (PI.mk 939524096 251658240 0 (-536870912) 469762048 0))
    by reflexivity.
  split; [exact (conj Hfwd (conj HN (conj Hq Hq')))|].
  exact (leapfrog_increments_truncated Ex.harmonic Ex.r_ready Ex.half ExRun.fwd
           0 _ _ Hfwd HN Hq Hq').
Defined.

Lemma part1_part2_division_witness :
  (reb_integrator_janus_part1 Ex.harmonic returns_block Ex.r_fresh
   = Some ExRun.part1 ∧
   reb_integrator_janus_part2 ExRun.part1 = Some ExRun.part2 ∧
   Sim.N ExRun.part1 ≤ length (Sim.particles ExRun.part1) ∧
   Sim.N ExRun.part1 ≤ length (shadow ExRun.part1)) ∧
  Sim.t ExRun.part1 = Sim.t Ex.r_fresh ∧
  Sim.t ExRun.part2 = fadd (Sim.t ExRun.part1) (Sim.dt ExRun.part1) ∧
  is_Some (reb_integrator_janus_part2 ExRun.part1) ∧
  Sim.particles ExRun.part1 ≠ Sim.particles ExRun.part2.
Proof.
  assert (H1 : reb_integrator_janus_part1 Ex.harmonic returns_block Ex.r_fresh
               = Some ExRun.part1) by (vm_compute; reflexivity).
  assert (H2 : reb_integrator_janus_part2 ExRun.part1 = Some ExRun.part2)
    by (vm_compute; reflexivity).
  assert (H3 : Sim.N ExRun.part1 ≤ length (Sim.particles ExRun.part1))
    by (simpl; lia).
  assert (H4 : Sim.N ExRun.part1 ≤ length (shadow ExRun.part1))
    by (simpl; lia).
  split; [exact (conj H1 (conj H2 (conj H3 H4)))|].
  destruct (part1_part2_division Ex.harmonic returns_block Ex.r_fresh)
    as (Hp1 & _ & _).
  destruct (part1_part2_division Ex.harmonic returns_block ExRun.part1)
    as (_ & Hp2 & Htot).
  split; [exact (proj1 (Hp1 _ H1))|].
  split; [exact (proj1 (Hp2 _ H2))|].
  split; [exact (Htot H3 H4)|].
  vm_compute. discriminate.
Defined.


Lemma reset_idempotent_witness :
  (Janus.allocated_N (Sim.ri_janus Ex.r_fresh) = 0 ∧
   Janus.p_curr (Sim.ri_janus Ex.r_fresh) = None) ∧
  reb_integrator_janus_reset Ex.r_fresh = Ex.r_fresh ∧
  reb_integrator_janus_reset (reb_integrator_janus_reset ExRun.part2)
  = reb_integrator_janus_reset ExRun.part2.
Proof.
  assert (H0 : Janus.allocated_N (Sim.ri_janus Ex.r_fresh) = 0) by reflexivity.
  assert (H1 : Janus.p_curr (Sim.ri_janus Ex.r_fresh) = None) by reflexivity.
  split; [exact (conj H0 H1)|].
  destruct (reset_idempotent Ex.r_fresh) as (_ & _ & _ & Hid & _).
  destruct (reset_idempotent ExRun.part2) as (_ & _ & _ & _ & Htwice).
  split; [exact (Hid H0 H1) | exact Htwice].
Defined.

Lemma part1_independent_of_float_view_witness :
  (Janus.allocated_N (Sim.ri_janus Ex.r_ready) = Sim.N Ex.r_ready ∧
   same_but_coords_acc Ex.r_ready Ex.r_ready_other_view ∧
   reb_integrator_janus_part1 Ex.harmonic returns_block Ex.r_ready
   = Some ExRun.part1) ∧
  ∃ r1', reb_integrator_janus_part1 Ex.harmonic returns_block
           Ex.r_ready_other_view = Some r1' ∧
         Sim.ri_janus r1' = Sim.ri_janus ExRun.part1 ∧
         take (Sim.N Ex.r_ready) (Sim.particles r1')
         = take (Sim.N Ex.r_ready) (Sim.particles ExRun.part1).
Proof.
  assert (H0 : Janus.allocated_N (Sim.ri_janus Ex.r_ready) = Sim.N Ex.r_ready)
    by reflexivity.
  assert (H1 : same_but_coords_acc Ex.r_ready Ex.r_ready_other_view)
    by (repeat split; reflexivity).
  assert (H2 : reb_integrator_janus_part1 Ex.harmonic returns_block Ex.r_ready
               = Some ExRun.part1) by (vm_compute; reflexivity).
  split; [exact (conj H0 (conj H1 H2))|].
  exact (part1_independent_of_float_view Ex.harmonic returns_block
           harmonic_deterministic
           Ex.r_ready Ex.r_ready_other_view ExRun.part1 H0 H1 H2).
Defined.

Lemma part2_frame_witness :
  (to_double (Sim.particles ExRun.part1) (shadow ExRun.part1) 1 Ex.scale30
   = Some (Sim.particles ExRun.part2) ∧
   reb_integrator_janus_part2 ExRun.part1 = Some ExRun.part2) ∧
  length (Sim.particles ExRun.part2) = length (Sim.particles ExRun.part1) ∧
  Sim.ri_janus ExRun.part2 = Sim.ri_janus ExRun.part1 ∧
  Sim.dt ExRun.part2 = Sim.dt ExRun.part1 ∧
  Sim.t ExRun.part2 = fadd (Sim.t ExRun.part1) (Sim.dt ExRun.part1).
Proof.
  assert (H0 : to_double (Sim.particles ExRun.part1) (shadow ExRun.part1) 1
                 Ex.scale30 = Some (Sim.particles ExRun.part2))
    by (vm_compute; reflexivity).
  assert (H1 : reb_integrator_janus_part2 ExRun.part1 = Some ExRun.part2)
    by (vm_compute; reflexivity).
  split; [exact (conj H0 H1)|].
  destruct (part2_frame ExRun.part1 ExRun.part2) as (Hto & Hp2).
  destruct (Hp2 H1) as (Hj & Hdt & _ & _ & Ht & _).
  split; [exact (proj1 (Hto _ _ _ _ _ H0))|].
  split; [exact Hj|]. split; [exact Hdt | exact Ht].
Defined.

Lemma round_trip_quantization_witness :
  (to_int [PI.indeterminate] [ExRoundTrip.p_tenth] 1 Ex.scale30
   = Some [ExRoundTrip.q_tenth] ∧
   to_double [ExRoundTrip.p_tenth] [ExRoundTrip.q_tenth] 1 Ex.scale30
   = Some [ExRoundTrip.p_tenth_back] ∧
   0 < 1 ∧
   (0 < SF2Q Ex.scale30)%Q ∧
   (0 <= 30 <= 1022)%Z ∧
   Ex.scale30 = pow2_double 30 ∧
   Forall (fun c => valid_binary prec emax c = true)
     (coords ExRoundTrip.p_tenth) ∧
   to_int [PI.indeterminate] [ExRoundTrip.p_tenth] 1 Ex.three
   = Some [ExRoundTrip.q_tenth3] ∧
   to_double [ExRoundTrip.p_tenth] [ExRoundTrip.q_tenth3] 1 Ex.three
   = Some [ExRoundTrip.p_tenth_back3] ∧
   (0 < SF2Q Ex.three)%Q ∧
   Forall (fun c' => is_finite c' = true)
     (coords ExRoundTrip.p_tenth_back3) ∧
   to_int [PI.indeterminate] [ExRoundTrip.p0] 1 Ex.three
   = Some [ExRoundTrip.q0] ∧
   to_double [ExRoundTrip.p0] [ExRoundTrip.q0] 1 Ex.three
   = Some [ExRoundTrip.p1] ∧
   Forall (fun c' => is_finite c' = true) (coords ExRoundTrip.p1)) ∧
  Forall2 (fun c c' => (Qabs (SF2Q c' - SF2Q c) < / SF2Q Ex.scale30)%Q)
    (coords ExRoundTrip.p_tenth) (coords ExRoundTrip.p_tenth_back) ∧
  P.x ExRoundTrip.p_tenth_back ≠ P.x ExRoundTrip.p_tenth ∧
  Forall2 (fun c c' =>
             (Qabs (SF2Q c' - SF2Q c) < round_trip_tolerance Ex.three c)%Q)
    (coords ExRoundTrip.p_tenth) (coords ExRoundTrip.p_tenth_back3) ∧
  ¬ exact_round_trip Ex.three (P.x ExRoundTrip.p_tenth)
      (PI.x ExRoundTrip.q_tenth3) ∧
  Forall2 (fun c c' =>
             (Qabs (SF2Q c' - SF2Q c) < round_trip_tolerance Ex.three c)%Q)
    (coords ExRoundTrip.p0) (coords ExRoundTrip.p1).
Proof.
  assert (H0 : to_int [PI.indeterminate] [ExRoundTrip.p_tenth] 1 Ex.scale30
               = Some [ExRoundTrip.q_tenth]) by (vm_compute; reflexivity).
  assert (H1 : to_double [ExRoundTrip.p_tenth] [ExRoundTrip.q_tenth] 1
                 Ex.scale30 = Some [ExRoundTrip.p_tenth_back])
    by (vm_compute; reflexivity).
  assert (H2 : 0 < 1) by lia.
  assert (H3 : (0 < SF2Q Ex.scale30)%Q) by (vm_compute; reflexivity).
  assert (H4 : (0 <= 30 <= 1022)%Z) by lia.
  assert (H5 : Ex.scale30 = pow2_double 30) by reflexivity.
  assert (H6 : Forall (fun c => valid_binary prec emax c = true)
                 (coords ExRoundTrip.p_tenth)) by (repeat constructor).
  assert (H7 : to_int [PI.indeterminate] [ExRoundTrip.p_tenth] 1 Ex.three
               = Some [ExRoundTrip.q_tenth3]) by (vm_compute; reflexivity).
  assert (H8 : to_double [ExRoundTrip.p_tenth] [ExRoundTrip.q_tenth3] 1
                 Ex.three = Some [ExRoundTrip.p_tenth_back3])
    by (vm_compute; reflexivity).
  assert (H9 : (0 < SF2Q Ex.three)%Q) by (vm_compute; reflexivity).
  assert (H10 : Forall (fun c' => is_finite c' = true)
                  (coords ExRoundTrip.p_tenth_back3)) by (repeat constructor).
  assert (H11 : to_int [PI.indeterminate] [ExRoundTrip.p0] 1 Ex.three
                = Some [ExRoundTrip.q0]) by (vm_compute; reflexivity).
  assert (H12 : to_double [ExRoundTrip.p0] [ExRoundTrip.q0] 1 Ex.three
                = Some [ExRoundTrip.p1]) by (vm_compute; reflexivity).
  assert (H13 : Forall (fun c' => is_finite c' = true) (coords ExRoundTrip.p1))
    by (repeat constructor).
  split;
    [exact (conj H0 (conj H1 (conj H2 (conj H3 (conj H4 (conj H5 (conj H6
              (conj H7 (conj H8 (conj H9 (conj H10 (conj H11
              (conj H12 H13)))))))))))))|].
  destruct (round_trip_quantization _ _ _ _ _ _ _ 0 _ _ _ H0 H1 H2
              eq_refl eq_refl eq_refl H3) as (_ & _ & Hpow2).
  destruct (round_trip_quantization _ _ _ _ _ _ _ 0 _ _ _ H7 H8 H2
              eq_refl eq_refl eq_refl H9) as (Htol & _ & _).
  destruct (round_trip_quantization _ _ _ _ _ _ _ 0 _ _ _ H11 H12 H2
              eq_refl eq_refl eq_refl H9) as (Htol0 & _ & _).
  split; [exact (Hpow2 30%Z H4 H5 H6)|].
  split; [vm_compute; discriminate|].
  split; [exact (Htol H10)|].
  split; [|exact (Htol0 H13)].
  intros [Hmul _]. vm_compute in Hmul. discriminate Hmul.
Defined.

(** * Further properties of the integrator *)

(** ** Bounds of the arrays *)

Lemma prefix_updated_bound {A : Type} (n : nat) (R : nat -> A -> A -> Prop)
    (l l' : list A) :
  prefix_updated n R l l' -> n ≤ length l.
Proof. intros (_ & H & _). exact H. Qed.

(** [to_double] is defined exactly when both arrays hold [N] elements. *)
Lemma to_double_defined (ps : list reb_particle) (psi : list reb_particle_int)
    (N : nat) (s : double) :
  is_Some (to_double ps psi N s) ↔ N ≤ length ps ∧ N ≤ length psi.
Proof.
  split; [|intros [? ?]; by apply to_double_total].
  intros [ps' H%to_double_Some].
  pose proof (prefix_updated_bound _ _ _ _ H) as Hps. split; [done|].
  destruct N as [|n]; [lia|].
  destruct (lookup_lt_is_Some_2 ps n ltac:(lia)) as [p Hp].
  destruct (prefix_updated_lookup _ _ _ _ _ _ H (Nat.lt_succ_diag_r n) Hp)
    as (p' & _ & q & Hq%lookup_lt_Some & _). lia.
Qed.

(** X1.  [reb_integrator_janus_part2] is defined exactly when the particle
    array and the shadow array hold at least [N] elements; with a null
    shadow pointer that is when there is no particle. *)
Theorem part2_defined_iff (r : reb_simulation) :
  (is_Some (reb_integrator_janus_part2 r) ↔
   Sim.N r ≤ length (Sim.particles r) ∧ Sim.N r ≤ length (shadow r))
  ∧ (Janus.p_curr (Sim.ri_janus r) = None ->
     (is_Some (reb_integrator_janus_part2 r) ↔ Sim.N r = 0)).
Proof.
  assert (Hiff : is_Some (reb_integrator_janus_part2 r) ↔
            Sim.N r ≤ length (Sim.particles r) ∧ Sim.N r ≤ length (shadow r)).
  { split.
    - intros [r2 (ps & Hps%to_double_Some & _)%part2_Some].
      apply (to_double_defined _ _ _ (Janus.scale (Sim.ri_janus r))). eauto.
    - intros H.
      apply (to_double_defined _ _ _ (Janus.scale (Sim.ri_janus r))) in H
        as [ps Hps].
      eexists. apply part2_Some. exists ps.
      split; [by apply to_double_Some | reflexivity]. }
  split; [exact Hiff|].
  intros Hnull. rewrite Hiff. unfold shadow. rewrite Hnull. simpl. lia.
Qed.

Section Bounds.
Variable accel : reb_simulation -> nat -> double * double * double.
Variable o : realloc_outcome.

(** X2.  A sub-step, and so the first half of a step, is undefined when
    the shadow array or the particle array holds fewer than [N] elements;
    in particular with a null shadow pointer and a particle. *)
Theorem leapfrog_out_of_bounds (r : reb_simulation) (dt : double) :
  (length (shadow r) < Sim.N r ∨ length (Sim.particles r) < Sim.N r ->
   leapfrog accel r dt = None)
  ∧ (Janus.p_curr (Sim.ri_janus r) = None -> 0 < Sim.N r ->
     leapfrog accel r dt = None)
  ∧ (Janus.allocated_N (Sim.ri_janus r) = Sim.N r ->
     length (shadow r) < Sim.N r ∨ length (Sim.particles r) < Sim.N r ->
     reb_integrator_janus_part1 accel o r = None).
Proof.
  assert (Hlf : ∀ r' d,
            length (shadow r') < Sim.N r' ∨
            length (Sim.particles r') < Sim.N r' ->
            leapfrog accel r' d = None).
  { intros r' d Hshort.
    destruct (leapfrog accel r' d) as [r1|] eqn:E; [|reflexivity].
    apply leapfrog_Some in E as (rf & Hrf & _).
    apply leapfrog_before_force_Some in Hrf as (psi1 & ps1 & Hd & Hps & _).
    apply prefix_updated_bound in Hd, Hps. lia. }
  split; [apply Hlf|]. split.
  - intros Hnull HN. apply Hlf. left. unfold shadow. rewrite Hnull. simpl. lia.
  - intros HaN Hshort. rewrite part1_unfold.
    rewrite (proj2 (part1_allocate_Some o r _) (or_introl (conj HaN eq_refl))).
    simpl. rewrite substeps_cons. rewrite Hlf; [reflexivity|]. exact Hshort.
Qed.
End Bounds.

(** ** The conversion to fixed point *)

Lemma to_int_particle_Forall2 (p : reb_particle) (s : double)
    (q0 q : reb_particle_int) :
  to_int_particle p s q0 = Some q ↔
  Forall2 (fun c n => int128_of_double (fmul c s) = Some n)
    (coords p) (int_coords q).
Proof.
  rewrite to_int_particle_Some. unfold coords, int_coords. split.
  - intros (x & y & z & vx & vy & vz & ? & ? & ? & ? & ? & ? & ->). simpl.
    repeat (constructor; [done|]). constructor.
  - intros H.
    repeat match goal with
           | H : Forall2 _ (_ :: _) (_ :: _) |- _ =>
               apply Forall2_cons_1 in H as [? H]
           end.
    destruct q as [x y z vx vy vz]. simpl in *. eauto 15.
Qed.

(** X3.  [to_int] is defined exactly when both arrays hold [N] elements and
    the product of every coordinate of the first [N] particles with the
    scale has an integral part that fits 128 bits; it then stores these
    integral parts, truncated toward zero, in all six fields of the first
    [N] elements, whatever they held, and leaves the other elements. *)
Theorem to_int_spec (psi : list reb_particle_int) (ps : list reb_particle)
    (N : nat) (s : double) (psi' : list reb_particle_int) :
  (to_int psi ps N s = Some psi' ↔
   length psi' = length psi ∧ N ≤ length psi ∧ N ≤ length ps ∧
   (∀ i p, i < N -> ps !! i = Some p ->
      ∃ q, psi' !! i = Some q ∧
           Forall2 (fun c n => int128_of_double (fmul c s) = Some n)
             (coords p) (int_coords q)) ∧
   (∀ i, N ≤ i -> psi' !! i = psi !! i))
  ∧ (to_int psi ps N s = Some psi' ->
     ∀ i p q, i < N -> ps !! i = Some p -> psi' !! i = Some q ->
       Forall2 (fun c n =>
                  is_finite (fmul c s) = true ∧ in_int128 n = true ∧
                  truncated_toward_zero (SF2Q (fmul c s)) n)
         (coords p) (int_coords q)).
Proof.
  assert (Hiff : to_int psi ps N s = Some psi' ↔
   length psi' = length psi ∧ N ≤ length psi ∧ N ≤ length ps ∧
   (∀ i p, i < N -> ps !! i = Some p ->
      ∃ q, psi' !! i = Some q ∧
           Forall2 (fun c n => int128_of_double (fmul c s) = Some n)
             (coords p) (int_coords q)) ∧
   (∀ i, N ≤ i -> psi' !! i = psi !! i)).
  { rewrite to_int_Some. split.
    - intros H. pose proof H as (Hlen & HN & Hpre & Hrest).
      split; [done|]. split; [done|].
      assert (HNps : N ≤ length ps).
      { destruct N as [|n]; [lia|].
        destruct (lookup_lt_is_Some_2 psi n ltac:(lia)) as [a Ha].
        destruct (Hpre n a ltac:(lia) Ha) as (b & _ & p & Hp%lookup_lt_Some & _).
        lia. }
      split; [done|]. split; [|done].
      intros i p Hi Hp.
      destruct (lookup_lt_is_Some_2 psi i ltac:(lia)) as [a Ha].
      destruct (Hpre i a Hi Ha) as (q & Hq & p' & Hp' & Hconv).
      exists q. split; [done|].
      assert (p' = p) as -> by congruence.
      by apply to_int_particle_Forall2 in Hconv.
    - intros (Hlen & HN & HNps & Hpre & Hrest).
      split; [done|]. split; [done|]. split; [|done].
      intros i a Hi Ha.
      destruct (lookup_lt_is_Some_2 ps i ltac:(lia)) as [p Hp].
      destruct (Hpre i p Hi Hp) as (q & Hq & Hconv).
      exists q. split; [done|]. exists p. split; [done|].
      by apply to_int_particle_Forall2. }
  split; [exact Hiff|].
  intros (_ & _ & _ & Hpre & _)%Hiff i p q Hi Hp Hq.
  destruct (Hpre i p Hi Hp) as (q' & Hq' & Hconv).
  assert (q' = q) as -> by congruence.
  eapply Forall2_impl; [exact Hconv|].
  intros c n Hc. by apply int128_of_double_truncates.
Qed.

(** ** The first half of a step *)

Section Part1.
Variable accel : reb_simulation -> nat -> double * double * double.
Variable o : realloc_outcome.

Lemma particles_kept_refl (N : nat) (ps : list reb_particle) :
  particles_kept N ps ps.
Proof. split; [done|]. intros i p p' Hp Hp'. split; congruence. Qed.

Lemma particles_kept_trans (N : nat) (ps1 ps2 ps3 : list reb_particle) :
  particles_kept N ps1 ps2 -> particles_kept N ps2 ps3 ->
  particles_kept N ps1 ps3.
Proof.
  intros [L12 H12] [L23 H23]. split; [congruence|].
  intros i p1 p3 Hp1 Hp3.
  destruct (lookup_lt_is_Some_2 ps2 i) as [p2 Hp2].
  { apply lookup_lt_Some in Hp1. lia. }
  destruct (H12 _ _ _ Hp1 Hp2) as [Hm12 Ht12].
  destruct (H23 _ _ _ Hp2 Hp3) as [Hm23 Ht23].
  split; [congruence|]. intros Hi. rewrite Ht23, Ht12 by done. done.
Qed.

Lemma leapfrog_particles_kept (r : reb_simulation) (d : double)
    (r' : reb_simulation) :
  leapfrog accel r d = Some r' ->
  particles_kept (Sim.N r) (Sim.particles r) (Sim.particles r').
Proof.
  intros (rf & Hrf & Hr')%leapfrog_Some.
  apply leapfrog_before_force_Some in Hrf as (psi1 & ps1 & _ & Hps1 & ->).
  apply leapfrog_from_force_Some in Hr' as (ps2 & psi2 & psi3 & Ha & _ & _ & ->).
  simpl in *.
  apply particles_kept_trans with ps1.
  - split; [by eapply prefix_updated_length|].
    intros i p p' Hp Hp'. destruct (decide (i < Sim.N r)) as [Hi|Hi].
    + destruct (prefix_updated_lookup _ _ _ _ _ _ Hps1 Hi Hp)
        as (b & Hb & q & _ & ->).
      assert (p' = to_double_particle q (Janus.scale (Sim.ri_janus r)) p)
        as -> by congruence.
      split; [reflexivity | lia].
    + rewrite (prefix_updated_lookup_ge _ _ _ _ _ Hps1) in Hp' by lia.
      split; congruence.
  - split; [by eapply prefix_updated_length|].
    intros i p p' Hp Hp'. destruct (decide (i < Sim.N r)) as [Hi|Hi].
    + destruct (prefix_updated_lookup _ _ _ _ _ _ Ha Hi Hp) as (b & Hb & ->).
      assert (p' = P.set_acc
                     (accel (Sim.mk (Sim.t r) (Sim.dt r) (Sim.N r) ps1 0
                               (Janus.mk (Janus.scale (Sim.ri_janus r))
                                  (Janus.allocated_N (Sim.ri_janus r))
                                  (store_back (Janus.p_curr (Sim.ri_janus r))
                                     psi1))) i) p) as -> by congruence.
      split; [reflexivity | lia].
    + rewrite (prefix_updated_lookup_ge _ _ _ _ _ Ha) in Hp' by lia.
      split; congruence.
Qed.

Lemma part1_counts (r r1 : reb_simulation) :
  reb_integrator_janus_part1 accel o r = Some r1 ->
  Sim.N r1 = Sim.N r ∧ Janus.allocated_N (Sim.ri_janus r1) = Sim.N r.
Proof.
  intros (r0 & H0 & Hsteps)%part1_Some.
  pose proof (part1_allocate_frame _ _ _ H0) as (_ & _ & HN0 & _).
  assert (HaN0 : Janus.allocated_N (Sim.ri_janus r0) = Sim.N r).
  { apply part1_allocate_Some in H0
      as [[? ->]|[(_ & _ & psi & _ & ->)|(_ & _ & _ & ->)]]; done. }
  revert Hsteps.
  apply (substeps_preserve accel
           (fun r' => Sim.N r' = Sim.N r ∧
                      Janus.allocated_N (Sim.ri_janus r') = Sim.N r));
    [|done].
  intros ra d rb [HNa HaN] (_ & _ & HNb & _ & _ & HaNb & _)%leapfrog_frame.
  split; congruence.
Qed.

(** X4.  [reb_integrator_janus_part1] changes neither the clock, the
    timestep, the particle count nor the scale; it leaves
    [gravity_ignore_terms] at 0 and [allocated_N] at [N]; and of the
    floating-point particles it keeps the number, every mass, and every
    particle from index [N] on. *)
Theorem part1_frame (r r1 : reb_simulation) :
  reb_integrator_janus_part1 accel o r = Some r1 ->
  Sim.t r1 = Sim.t r ∧ Sim.dt r1 = Sim.dt r ∧ Sim.N r1 = Sim.N r ∧
  Janus.scale (Sim.ri_janus r1) = Janus.scale (Sim.ri_janus r) ∧
  Sim.gravity_ignore_terms r1 = 0%Z ∧
  Janus.allocated_N (Sim.ri_janus r1) = Sim.N r ∧
  length (Sim.particles r1) = length (Sim.particles r) ∧
  ∀ i p p', Sim.particles r !! i = Some p -> Sim.particles r1 !! i = Some p' ->
    P.m p' = P.m p ∧ (Sim.N r ≤ i -> p' = p).
Proof.
  intros (r0 & H0 & Hsteps)%part1_Some.
  pose proof (part1_allocate_frame _ _ _ H0) as (Ht0 & Hdt0 & HN0 & Hps0 & _ & Hs0).
  pose proof (substeps_frame _ _ _ _ _ Hsteps) as (Ht & Hdt & HN & Hs).
  assert (HaN0 : Janus.allocated_N (Sim.ri_janus r0) = Sim.N r).
  { apply part1_allocate_Some in H0
      as [[? ->]|[(_ & _ & psi & _ & ->)|(_ & _ & _ & ->)]]; done. }
  assert (Hinv :
    Sim.gravity_ignore_terms r1 = 0%Z ∧
    Janus.allocated_N (Sim.ri_janus r1) = Sim.N r ∧
    Sim.N r1 = Sim.N r ∧
    particles_kept (Sim.N r) (Sim.particles r) (Sim.particles r1)).
  { revert Hsteps.
    apply (substeps_preserve accel
             (fun r' => Sim.gravity_ignore_terms r' = 0%Z ∧
                        Janus.allocated_N (Sim.ri_janus r') = Sim.N r ∧
                        Sim.N r' = Sim.N r ∧
                        particles_kept (Sim.N r) (Sim.particles r)
                          (Sim.particles r'))).
    - intros ra d rb (_ & HaN & HNa & Hk) Hlf.
      pose proof (leapfrog_frame _ _ _ _ Hlf) as (_ & _ & HNb & Hg & _ & HaNb & _).
      apply leapfrog_particles_kept in Hlf. rewrite HNa in Hlf.
      split; [done|]. split; [congruence|]. split; [congruence|].
      by eapply particles_kept_trans.
    - apply part1_allocate_frame in H0 as (_ & _ & _ & -> & Hg & _).
      split; [done|]. split; [done|]. split; [done|].
      apply particles_kept_refl. }
  destruct Hinv as (Hg & HaN & _ & Hlen & Hkept).
  repeat (split; [congruence|]). exact Hkept.
Qed.
End Part1.

(** ** A simulation without particles *)

Section Empty.
Variable accel : reb_simulation -> nat -> double * double * double.
Variable o : realloc_outcome.

Lemma leapfrog_empty (r : reb_simulation) (dt : double) :
  Sim.N r = 0 ->
  leapfrog accel r dt = Some (Sim.set_gravity_ignore_terms 0 r).
Proof.
  destruct r as [t dt0 N ps g [s aN [psi|]]]; simpl; intros ->; reflexivity.
Qed.

Lemma substeps_empty (dt : double) (gs : list double) (r : reb_simulation) :
  Sim.N r = 0 -> Sim.gravity_ignore_terms r = 0%Z ->
  substeps accel dt gs r = Some r.
Proof.
  intros HN Hg. induction gs as [|g gs IH]; [reflexivity|].
  rewrite substeps_cons, leapfrog_empty by done. simpl.
  replace (Sim.set_gravity_ignore_terms 0 r) with r; [exact IH|].
  destruct r. simpl in Hg. subst. reflexivity.
Qed.

(** X5.  With no particle, every operation is defined, also with a null
    shadow pointer: a sub-step only clears [gravity_ignore_terms]; so does
    the first half of a step when [allocated_N] is 0, and no array is
    touched; the second half only advances the clock. *)
Theorem empty_simulation (r : reb_simulation) (dt : double) :
  Sim.N r = 0 ->
  leapfrog accel r dt = Some (Sim.set_gravity_ignore_terms 0 r) ∧
  (Janus.allocated_N (Sim.ri_janus r) = 0 ->
   reb_integrator_janus_part1 accel o r
   = Some (Sim.set_gravity_ignore_terms 0 r)) ∧
  reb_integrator_janus_part2 r
  = Some (Sim.set_t (fadd (Sim.t r) (Sim.dt r)) r).
Proof.
  intros HN. split; [by apply leapfrog_empty|]. split.
  - intros HaN. rewrite part1_unfold.
    rewrite (proj2 (part1_allocate_Some o r _)
               (or_introl (conj (eq_trans HaN (eq_sym HN)) eq_refl))).
    simpl. by apply substeps_empty.
  - destruct r as [t dt0 N ps g j]. simpl in *. subst N. reflexivity.
Qed.
End Empty.

(** ** Reinitialization *)

Lemma to_int_rel_overwrites (N : nat) (s : double) (ps : list reb_particle)
    (l1 l2 psi : list reb_particle_int) :
  length l1 = N -> length l2 = N ->
  prefix_updated N (to_int_rel s ps) l1 psi ->
  prefix_updated N (to_int_rel s ps) l2 psi.
Proof.
  intros L1 L2 (Hlen & HN & Hpre & Hrest).
  split; [congruence|]. split; [lia|]. split.
  - intros i a Hi Ha.
    destruct (lookup_lt_is_Some_2 l1 i ltac:(lia)) as [a1 Ha1].
    destruct (Hpre i a1 Hi Ha1) as (b & Hb & p & Hp & Hconv).
    exists b. split; [done|]. exists p. split; [done|].
    rewrite <- Hconv. apply to_int_particle_overwrites.
  - intros i Hi. rewrite !(proj2 (lookup_ge_None _ _)) by lia. done.
Qed.

(** X6.  When [allocated_N] differs from [N], the allocation step builds
    the shadow state from the floating-point particles alone: whatever
    count and array the integrator held before leave no trace, for one
    and the same outcome of [realloc].  The particle count is taken to be
    positive: what [realloc] returns for a size of 0 is left to the
    implementation and may depend on the pointer it is given. *)
Theorem reinitialization_ignores_stale_state (o : realloc_outcome)
    (r : reb_simulation) (aN : nat) (p : option (list reb_particle_int)) :
  0 < Sim.N r ->
  Janus.allocated_N (Sim.ri_janus r) ≠ Sim.N r ->
  aN ≠ Sim.N r ->
  part1_allocate o
    (Sim.set_ri_janus (Janus.mk (Janus.scale (Sim.ri_janus r)) aN p) r)
  = part1_allocate o r.
Proof.
  intros _ Hne Hne'.
  set (r' := Sim.set_ri_janus (Janus.mk (Janus.scale (Sim.ri_janus r)) aN p) r).
  assert (Hiff : ∀ r0, part1_allocate o r' = Some r0
                       ↔ part1_allocate o r = Some r0).
  { intros r0. rewrite !part1_allocate_Some. unfold r', shadow. simpl.
    split;
      (intros [[? _]|[(_ & Ho & psi & Hpsi & ->)|(_ & Ho & HN & ->)]];
       [done| |by right; right]);
      right; left; (split; [done|]); (split; [done|]); exists psi;
      (split; [|done]); revert Hpsi; apply to_int_rel_overwrites;
      apply length_resize. }
  destruct (part1_allocate o r') as [r0|].
  - symmetry. exact (proj1 (Hiff r0) eq_refl).
  - destruct (part1_allocate o r) as [r0|]; [|done].
    discriminate (proj2 (Hiff r0) eq_refl).
Qed.

(** ** Sub-steps that move nothing *)

Lemma zero_or_nan_of_zero (f : double) : is_zero f = true -> zero_or_nan f = true.
Proof. destruct f; done. Qed.

Lemma fmul_zero_or_nan_l (a b : double) :
  zero_or_nan a = true -> zero_or_nan (fmul a b) = true.
Proof. destruct a, b; done. Qed.

Lemma fmul_zero_or_nan_r (a b : double) :
  zero_or_nan b = true -> zero_or_nan (fmul a b) = true.
Proof. destruct a, b; done. Qed.

Lemma fdiv_two_zero (a : double) :
  is_zero a = true -> is_zero (fdiv a two) = true.
Proof. destruct a; done. Qed.

Lemma int128_of_zero_or_nan (f : double) (d : Z) :
  zero_or_nan f = true -> int128_of_double f = Some d -> d = 0%Z.
Proof. destruct f; simpl; try discriminate; congruence. Qed.

Lemma add128_0 (a : Z) : in_int128 a = true -> add128 a 0 = a.
Proof. intros H. unfold add128. rewrite Z.add_0_r. by apply wrap128_id. Qed.

Lemma drift_particle_still (dt : double) (q q' : reb_particle_int) :
  is_zero dt = true ∨ at_rest q ->
  wf_particle_int q ->
  drift_particle dt q = Some q' -> q' = q.
Proof.
  intros Hcase (Hx & Hy & Hz & _)
    (dx & dy & dz & Hdx & Hdy & Hdz & ->)%drift_particle_Some.
  assert (dx = 0%Z ∧ dy = 0%Z ∧ dz = 0%Z) as (-> & -> & ->).
  { destruct Hcase as [Hdt|(Hvx & Hvy & Hvz)].
    - apply fdiv_two_zero, zero_or_nan_of_zero in Hdt.
      pose proof (fun b => fmul_zero_or_nan_l _ b Hdt) as Hzn.
      split; [|split].
      + exact (int128_of_zero_or_nan _ _ (Hzn _) Hdx).
      + exact (int128_of_zero_or_nan _ _ (Hzn _) Hdy).
      + exact (int128_of_zero_or_nan _ _ (Hzn _) Hdz).
    - rewrite Hvx in Hdx. rewrite Hvy in Hdy. rewrite Hvz in Hdz.
      pose proof (fun a => fmul_zero_or_nan_r a (double_of_int128 0) eq_refl)
        as Hzn.
      split; [|split].
      + exact (int128_of_zero_or_nan _ _ (Hzn _) Hdx).
      + exact (int128_of_zero_or_nan _ _ (Hzn _) Hdy).
      + exact (int128_of_zero_or_nan _ _ (Hzn _) Hdz). }
  rewrite !add128_0 by done. by destruct q.
Qed.

Lemma kick_particle_still (s dt : double) (p : reb_particle)
    (q q' : reb_particle_int) :
  is_zero dt = true ∨ zero_acceleration (P.ax p, P.ay p, P.az p) ->
  wf_particle_int q ->
  kick_particle s dt p q = Some q' -> q' = q.
Proof.
  intros Hcase (_ & _ & _ & Hx & Hy & Hz)
    (dx & dy & dz & Hdx & Hdy & Hdz & ->)%kick_particle_Some.
  assert (dx = 0%Z ∧ dy = 0%Z ∧ dz = 0%Z) as (-> & -> & ->).
  { destruct Hcase as [Hdt|(Hax & Hay & Haz)].
    - apply zero_or_nan_of_zero in Hdt.
      pose proof (fun b => fmul_zero_or_nan_l _ b (fmul_zero_or_nan_r s _ Hdt))
        as Hzn.
      split; [|split].
      + exact (int128_of_zero_or_nan _ _ (Hzn _) Hdx).
      + exact (int128_of_zero_or_nan _ _ (Hzn _) Hdy).
      + exact (int128_of_zero_or_nan _ _ (Hzn _) Hdz).
    - simpl in *. apply zero_or_nan_of_zero in Hax, Hay, Haz.
      split; [|split].
      + exact (int128_of_zero_or_nan _ _ (fmul_zero_or_nan_r _ _ Hax) Hdx).
      + exact (int128_of_zero_or_nan _ _ (fmul_zero_or_nan_r _ _ Hay) Hdy).
      + exact (int128_of_zero_or_nan _ _ (fmul_zero_or_nan_r _ _ Haz) Hdz). }
  rewrite !add128_0 by done. by destruct q.
Qed.

Lemma prefix_updated_id {A : Type} (n : nat) (R : nat -> A -> A -> Prop)
    (l l' : list A) :
  (∀ i a b, i < n -> l !! i = Some a -> R i a b -> b = a) ->
  prefix_updated n R l l' -> l' = l.
Proof.
  intros Hid (Hlen & _ & Hpre & Hrest). apply list_eq. intros i.
  destruct (decide (i < n)) as [Hi|Hi]; [|apply Hrest; lia].
  destruct (l !! i) as [a|] eqn:Ha.
  - destruct (Hpre i a Hi Ha) as (b & -> & HR). f_equal. eauto.
  - apply lookup_ge_None in Ha. apply lookup_ge_None. lia.
Qed.

Section Still.
Variable accel : reb_simulation -> nat -> double * double * double.
Variable o : realloc_outcome.

Lemma leapfrog_still (r : reb_simulation) (dt : double) (r' : reb_simulation) :
  Forall wf_particle_int (shadow r) ->
  nothing_moves accel r dt ->
  leapfrog accel r dt = Some r' ->
  Sim.ri_janus r' = Sim.ri_janus r.
Proof.
  intros Hwf Hcase (rf & Hrf & Hr')%leapfrog_Some.
  apply leapfrog_before_force_Some in Hrf as (psi1 & ps1 & Hd1 & Hps1 & ->).
  apply leapfrog_from_force_Some in Hr'
    as (ps2 & psi2 & psi3 & Ha & Hk & Hd2 & ->).
  unfold shadow in *. simpl in *.
  rewrite store_back_store_back.
  assert (Hrest : ∀ i a, i < Sim.N r ->
            deref (Janus.p_curr (Sim.ri_janus r)) !! i = Some a ->
            is_zero dt = true ∨ at_rest a).
  { intros i a Hi Hia. destruct Hcase as [?|[Hrest _]]; [by left|right].
    eapply Forall_lookup_1; [exact Hrest|]. by rewrite lookup_take_lt. }
  assert (psi1 = deref (Janus.p_curr (Sim.ri_janus r))) as ->.
  { eapply prefix_updated_id; [|exact Hd1].
    intros i a b Hi Hia Hab. eapply drift_particle_still; [| |exact Hab].
    - by eapply Hrest.
    - eapply Forall_lookup_1; [exact Hwf|exact Hia]. }
  rewrite store_back_deref in Hk.
  assert (psi2 = deref (Janus.p_curr (Sim.ri_janus r))) as ->.
  { eapply prefix_updated_id; [|exact Hk].
    intros i a b Hi Hia (p & Hp & Hab).
    eapply kick_particle_still; [| |exact Hab].
    - destruct Hcase as [?|[_ Hacc]]; [by left|right].
      destruct (prefix_updated_lookup_r _ _ _ _ _ _ Ha Hi Hp) as (p1 & _ & ->).
      apply Hacc.
    - eapply Forall_lookup_1; [exact Hwf|exact Hia]. }
  assert (psi3 = deref (Janus.p_curr (Sim.ri_janus r))) as ->.
  { eapply prefix_updated_id; [|exact Hd2].
    intros i a b Hi Hia Hab. eapply drift_particle_still; [| |exact Hab].
    - by eapply Hrest.
    - eapply Forall_lookup_1; [exact Hwf|exact Hia]. }
  rewrite store_back_deref. by destruct (Sim.ri_janus r).
Qed.

Lemma substeps_still (dt : double) (gs : list double) (r r' : reb_simulation) :
  Forall wf_particle_int (shadow r) ->
  (∀ g, g ∈ gs -> nothing_moves accel r (fmul g dt)) ->
  substeps accel dt gs r = Some r' ->
  Sim.ri_janus r' = Sim.ri_janus r.
Proof.
  revert r. induction gs as [|g gs IH]; intros r Hwf Hcase.
  - rewrite substeps_nil. by intros [= <-].
  - rewrite substeps_cons. intros H. inv_bind H. rename r0 into ra.
    pose proof (leapfrog_still r (fmul g dt) ra Hwf
                  (Hcase g ltac:(by left)) E) as Hj.
    pose proof (leapfrog_frame _ _ _ _ E) as (_ & _ & HN & _).
    rewrite <- Hj. apply IH; [by unfold shadow in *; rewrite Hj | | done].
    intros g' Hg'. specialize (Hcase g' ltac:(by right)).
    unfold nothing_moves, shadow in *. by rewrite Hj, HN.
Qed.

(** X7.  A step with a timestep of zero leaves the integrator state as it
    is, when it is defined: every sub-step has the duration zero and
    adds 0 to every coordinate. *)
Theorem part1_zero_timestep (r r1 : reb_simulation) :
  is_zero (Sim.dt r) = true ->
  Janus.allocated_N (Sim.ri_janus r) = Sim.N r ->
  Forall wf_particle_int (shadow r) ->
  reb_integrator_janus_part1 accel o r = Some r1 ->
  Sim.ri_janus r1 = Sim.ri_janus r.
Proof.
  intros Hdt HaN Hwf (r0 & H0 & Hsteps)%part1_Some.
  apply part1_allocate_Some in H0 as [[_ ->]|[[? _]|[? _]]]; [|done|done].
  apply substeps_still in Hsteps; [done | done |].
  intros g Hg. left.
  destruct (Sim.dt r); try discriminate.
  repeat (apply elem_of_cons in Hg as [->|Hg]; [reflexivity|]).
  by apply elem_of_nil in Hg.
Qed.

(** X8.  Particles at rest in a field without force stay where they are:
    when all shadow velocities are 0 and the force evaluation returns
    zero accelerations, a step leaves the integrator state as it is, for
    every timestep for which it is defined. *)
Theorem part1_at_rest (r r1 : reb_simulation) :
  Forall at_rest (take (Sim.N r) (shadow r)) ->
  (∀ r' i, zero_acceleration (accel r' i)) ->
  Janus.allocated_N (Sim.ri_janus r) = Sim.N r ->
  Forall wf_particle_int (shadow r) ->
  reb_integrator_janus_part1 accel o r = Some r1 ->
  Sim.ri_janus r1 = Sim.ri_janus r.
Proof.
  intros Hrest Hacc HaN Hwf (r0 & H0 & Hsteps)%part1_Some.
  apply part1_allocate_Some in H0 as [[_ ->]|[[? _]|[? _]]]; [|done|done].
  apply substeps_still in Hsteps; [done | done |].
  intros g _. right. done.
Qed.
End Still.

(** ** Reversibility of a whole step *)

Lemma same_shadow_sym (r r' : reb_simulation) :
  same_shadow r r' -> same_shadow r' r.
Proof. intros (? & ? & ?). by repeat split. Qed.

Lemma same_shadow_trans (r1 r2 r3 : reb_simulation) :
  same_shadow r1 r2 -> same_shadow r2 r3 -> same_shadow r1 r3.
Proof. intros (? & ? & ?) (? & ? & ?). repeat split; congruence. Qed.

Lemma positions_only_positional
    (accel : reb_simulation -> nat -> double * double * double) :
  positions_only accel -> force_positional accel.
Proof. intros H r r' (_ & _ & HN & _ & Hps). by apply H. Qed.

Lemma kick_particle_in_range (s dt : double) (p : reb_particle)
    (q q' : reb_particle_int) :
  kick_particle s dt p q = Some q' ->
  in_int128 (PI.vx q') = true ∧ in_int128 (PI.vy q') = true ∧
  in_int128 (PI.vz q') = true.
Proof.
  intros (dx & dy & dz & _ & _ & _ & ->)%kick_particle_Some. simpl.
  unfold add128. rewrite !wrap128_in_range. done.
Qed.

Section WholeStep.
Variable accel : reb_simulation -> nat -> double * double * double.
Variables o o' : realloc_outcome.

(** The fields of the shadow state stay 128-bit values. *)
Lemma leapfrog_wf (r : reb_simulation) (d : double) (r' : reb_simulation) :
  Forall wf_particle_int (shadow r) ->
  leapfrog accel r d = Some r' ->
  Forall wf_particle_int (shadow r').
Proof.
  intros Hwf (rf & Hrf & Hr')%leapfrog_Some.
  apply leapfrog_before_force_Some in Hrf as (psi1 & ps1 & Hd1 & Hps1 & ->).
  apply leapfrog_from_force_Some in Hr'
    as (ps2 & psi2 & psi3 & Ha & Hk & Hd2 & ->).
  unfold shadow in *. simpl in *.
  rewrite store_back_store_back.
  pose proof (prefix_updated_length _ _ _ _ Hd1) as L1.
  rewrite deref_store_back in Hk by done.
  pose proof (prefix_updated_length _ _ _ _ Hk) as L2.
  pose proof (prefix_updated_length _ _ _ _ Hd2) as L3.
  rewrite deref_store_back by congruence.
  apply Forall_lookup_2. intros i q3 Hq3.
  destruct (decide (i < Sim.N r)) as [Hi|Hi].
  - destruct (prefix_updated_lookup_r _ _ _ _ _ _ Hd2 Hi Hq3)
      as (q2 & Hq2 & Hdr).
    destruct (prefix_updated_lookup_r _ _ _ _ _ _ Hk Hi Hq2)
      as (q1 & _ & p & _ & Hkick).
    apply drift_particle_in_range in Hdr as (Hx & Hy & Hz & Evx & Evy & Evz).
    apply kick_particle_in_range in Hkick as (Hvx & Hvy & Hvz).
    unfold wf_particle_int. rewrite Evx, Evy, Evz. done.
  - rewrite (prefix_updated_lookup_ge _ _ _ _ _ Hd2),
      (prefix_updated_lookup_ge _ _ _ _ _ Hk),
      (prefix_updated_lookup_ge _ _ _ _ _ Hd1) in Hq3 by lia.
    eapply Forall_lookup_1; [exact Hwf|exact Hq3].
Qed.

Lemma leapfrog_masses (r : reb_simulation) (d : double) (r' : reb_simulation) :
  leapfrog accel r d = Some r' -> masses r' = masses r.
Proof.
  intros H. pose proof (leapfrog_frame _ _ _ _ H) as (_ & _ & HN & _).
  apply leapfrog_particles_kept in H as [Hlen Hkept].
  unfold masses. rewrite HN. apply list_eq. intros i.
  rewrite !list_lookup_fmap.
  destruct (decide (i < Sim.N r)) as [Hi|Hi].
  - rewrite !lookup_take_lt by done.
    destruct (Sim.particles r !! i) as [p|] eqn:Hp.
    + destruct (lookup_lt_is_Some_2 (Sim.particles r') i) as [p' Hp'].
      { apply lookup_lt_Some in Hp. lia. }
      rewrite Hp'. simpl. f_equal. by apply (Hkept i p p').
    + apply lookup_ge_None in Hp.
      rewrite (proj2 (lookup_ge_None _ _)) by lia. done.
  - rewrite !lookup_take_ge by lia. done.
Qed.

Hypothesis accel_positions_only : positions_only accel.

(** A sub-step sees of a simulation nothing but the particle count, the
    integrator state and the masses. *)
Lemma leapfrog_cong (r r' : reb_simulation) (d : double)
    (r1 : reb_simulation) :
  same_shadow r r' ->
  leapfrog accel r d = Some r1 ->
  ∃ r1', leapfrog accel r' d = Some r1' ∧ same_shadow r1 r1'.
Proof.
  intros (HN & Hj & Hm) (rf & Hrf & Hr1)%leapfrog_Some.
  apply leapfrog_before_force_Some in Hrf as (psi1 & ps1 & Hd1 & Hps1 & ->).
  apply leapfrog_from_force_Some in Hr1
    as (ps2 & psi2 & psi3 & Ha & Hk & Hd2 & ->).
  unfold shadow, masses in *. simpl in *.
  set (N := Sim.N r) in *. set (s := Janus.scale (Sim.ri_janus r)) in *.
  assert (HNps : N ≤ length (Sim.particles r))
    by (by apply prefix_updated_bound in Hps1).
  assert (HNps' : N ≤ length (Sim.particles r')).
  { apply (f_equal length) in Hm.
    rewrite !length_fmap, !length_take, <- HN in Hm. lia. }
  assert (HNpsi : N ≤ length psi1).
  { destruct Hd1 as (-> & ? & _). done. }
  destruct (to_double_total (Sim.particles r') psi1 N s HNps' HNpsi)
    as [ps1' Hps1'%to_double_Some].
  assert (Hview : ∀ i, i < N ->
            ∃ q p p', P.m p = P.m p' ∧
                      ps1 !! i = Some (to_double_particle q s p) ∧
                      ps1' !! i = Some (to_double_particle q s p')).
  { intros i Hi.
    destruct (lookup_lt_is_Some_2 (Sim.particles r) i ltac:(lia)) as [p Hp].
    destruct (lookup_lt_is_Some_2 (Sim.particles r') i ltac:(lia)) as [p' Hp'].
    destruct (prefix_updated_lookup _ _ _ _ _ _ Hps1 Hi Hp)
      as (b & Hb & q & Hq & ->).
    destruct (prefix_updated_lookup _ _ _ _ _ _ Hps1' Hi Hp')
      as (b' & Hb' & q' & Hq' & ->).
    assert (q' = q) as -> by congruence.
    exists q, p, p'. split; [|done].
    apply (f_equal (fun l => l !! i)) in Hm.
    rewrite !list_lookup_fmap, <- HN, !lookup_take_lt, Hp, Hp' in Hm by done.
    simpl in Hm. congruence. }
  set (rf := Sim.mk (Sim.t r) (Sim.dt r) N ps1 0
               (Janus.mk s (Janus.allocated_N (Sim.ri_janus r))
                  (store_back (Janus.p_curr (Sim.ri_janus r)) psi1))) in *.
  set (rf' := Sim.mk (Sim.t r') (Sim.dt r') N ps1' 0
               (Janus.mk s (Janus.allocated_N (Sim.ri_janus r))
                  (store_back (Janus.p_curr (Sim.ri_janus r)) psi1))).
  assert (Hrf' : leapfrog_before_force r' d = Some rf').
  { apply leapfrog_before_force_Some. exists psi1, ps1'.
    unfold shadow. rewrite <- Hj, <- HN. done. }
  assert (Hacc : ∀ i, i < N -> accel rf i = accel rf' i).
  { apply (accel_positions_only rf rf' eq_refl). simpl.
    apply list_eq. intros i. rewrite !list_lookup_fmap.
    destruct (decide (i < N)) as [Hi|Hi].
    - rewrite !lookup_take_lt by done.
      destruct (Hview i Hi) as (q & p & p' & Hmm & -> & ->).
      simpl. by rewrite Hmm.
    - rewrite !lookup_take_ge by lia. done. }
  destruct (prefix_updated_exists N
              (fun i p => Some (P.set_acc (accel rf' i) p)) ps1')
    as [ps2' Ha'].
  { destruct Hps1' as (-> & _). done. }
  { eauto. }
  assert (Ha'' : prefix_updated N (set_acc_rel (accel rf')) ps1' ps2').
  { revert Ha'. apply prefix_updated_mono. intros i a b _ _ [= <-]. done. }
  assert (Hps2 : ∀ i, i < N -> ps2 !! i = ps2' !! i).
  { intros i Hi.
    destruct (Hview i Hi) as (q & p & p' & Hmm & Hp1 & Hp1').
    destruct (prefix_updated_lookup _ _ _ _ _ _ Ha Hi Hp1) as (b & -> & ->).
    destruct (prefix_updated_lookup _ _ _ _ _ _ Ha'' Hi Hp1') as (b' & -> & ->).
    f_equal. rewrite (Hacc i Hi). apply set_acc_congruence; [done|].
    simpl. done. }
  exists (Sim.mk (Sim.t r') (Sim.dt r') N ps2' 0
            (Janus.mk s (Janus.allocated_N (Sim.ri_janus r))
               (store_back (Janus.p_curr (Sim.ri_janus r)) psi3))).
  split.
  - apply leapfrog_Some. exists rf'. split; [done|].
    apply leapfrog_from_force_Some. exists ps2', psi2, psi3.
    unfold shadow, rf'. simpl. rewrite store_back_store_back.
    repeat (split; [done|]). split; [|done].
    revert Hk. apply prefix_updated_mono.
    intros i a b Hi _ (p & Hp & Hkick). exists p.
    rewrite <- Hps2 by done. done.
  - rewrite store_back_store_back. unfold same_shadow, masses. simpl.
    split; [done|]. split; [done|]. f_equal. by apply take_eq_of_lookup.
Qed.

(** A sub-step with the opposite duration, started from any simulation
    with the shadow state that a sub-step has left, leads back to the
    shadow state before that sub-step. *)
Lemma leapfrog_undo (r r1 r1' r2 : reb_simulation) (d : double) :
  Forall wf_particle_int (shadow r) ->
  leapfrog accel r d = Some r1 ->
  same_shadow r1 r1' ->
  leapfrog accel r1' (fneg d) = Some r2 ->
  same_shadow r r2.
Proof.
  intros Hwf Hfwd Hsame Hback.
  destruct (leapfrog_cong r1' r1 (fneg d) r2 (same_shadow_sym _ _ Hsame) Hback)
    as (r2' & Hback' & Hsame2).
  apply same_shadow_trans with r2'; [|by apply same_shadow_sym].
  pose proof (leapfrog_reversible_positional accel r d r1 r2'
                (positions_only_positional _ accel_positions_only)
                Hwf Hfwd Hback') as Hp.
  pose proof (leapfrog_frame _ _ _ _ Hfwd) as (_ & _ & HN1 & _ & Hs1 & Ha1 & _).
  pose proof (leapfrog_frame _ _ _ _ Hback') as (_ & _ & HN2 & _ & Hs2 & Ha2 & _).
  pose proof (leapfrog_masses _ _ _ Hfwd) as Hm1.
  pose proof (leapfrog_masses _ _ _ Hback') as Hm2.
  split; [congruence|]. split; [|congruence].
  destruct (Sim.ri_janus r), (Sim.ri_janus r2'). simpl in *. congruence.
Qed.

Lemma substeps_undo (dt : double) (gs : list double)
    (r r1 r1' r2 : reb_simulation) :
  Forall wf_particle_int (shadow r) ->
  substeps accel dt gs r = Some r1 ->
  same_shadow r1 r1' ->
  substeps accel (fneg dt) (rev gs) r1' = Some r2 ->
  same_shadow r r2.
Proof.
  revert r r2. induction gs as [|g gs IH]; intros r r2 Hwf.
  - simpl. rewrite !substeps_nil. intros [= <-] Hsame [= <-]. done.
  - rewrite substeps_cons. intros H Hsame. inv_bind H. rename r0 into ra.
    simpl. rewrite substeps_snoc. intros Hb. inv_bind Hb. rename r0 into rb.
    assert (Hab : same_shadow ra rb).
    { apply (IH ra rb); [by eapply leapfrog_wf | done | done | done]. }
    rewrite fmul_fneg_r in Hb.
    by apply (leapfrog_undo r ra rb r2 (fmul g dt)).
Qed.

(** X9.  With [allocated_N] equal to [N] at entry and 128-bit shadow
    fields, a whole step is undone by a step with the opposite timestep,
    for a force that reads positions and masses only: after [part1],
    continue from any simulation [r1'] that has the particle count, the
    integrator state and the masses reached (as after [part2], whatever
    the clock and the floating-point coordinates) and the timestep [-dt];
    then [part1], if defined, leads back to the integrator state before
    the first step, bit for bit.  The nine coefficients being a
    palindrome, the second step undoes the sub-steps of the first one in
    reverse order.  Without the hypothesis on [allocated_N] the first step
    allocates, and the way back ends in the allocated state. *)
Theorem part1_reversible (r r1 r1' r2 : reb_simulation) :
  Janus.allocated_N (Sim.ri_janus r) = Sim.N r ->
  Forall wf_particle_int (shadow r) ->
  reb_integrator_janus_part1 accel o r = Some r1 ->
  same_shadow r1 r1' ->
  Sim.dt r1' = fneg (Sim.dt r) ->
  reb_integrator_janus_part1 accel o' r1' = Some r2 ->
  Sim.ri_janus r2 = Sim.ri_janus r.
Proof.
  intros HaN Hwf Hfwd Hsame Hdt Hback.
  pose proof (part1_counts accel o r r1 Hfwd) as [HN1 HaN1].
  apply part1_Some in Hfwd as (r0 & H0 & Hfwd).
  apply part1_Some in Hback as (r0' & H0' & Hback).
  apply part1_allocate_Some in H0 as [[_ ->]|[[? _]|[? _]]]; [|done|done].
  destruct Hsame as (HN & Hj & Hm).
  apply part1_allocate_Some in H0' as [[_ ->]|[[Hne _]|[Hne _]]];
    [|rewrite <- Hj, <- HN in Hne; congruence..].
  rewrite Hdt in Hback.
  change [gamma1; gamma2; gamma3; gamma4; gamma5; gamma4; gamma3; gamma2; gamma1]
    with (rev [gamma1; gamma2; gamma3; gamma4; gamma5; gamma4; gamma3; gamma2;
               gamma1]) in Hback.
  symmetry.
  eapply (substeps_undo _ _ (Sim.set_gravity_ignore_terms 0 r) r1
            (Sim.set_gravity_ignore_terms 0 r1') r2); [done | done | | done].
  done.
Qed.
End WholeStep.

(** ** Motion without force *)

Section FreeMotion.
Variable accel : reb_simulation -> nat -> double * double * double.
Variable o : realloc_outcome.
Hypothesis accel_free : ∀ r i, zero_acceleration (accel r i).

Lemma kick_particle_free (s dt : double) (p : reb_particle)
    (q q' : reb_particle_int) :
  zero_acceleration (P.ax p, P.ay p, P.az p) ->
  in_int128 (PI.vx q) = true -> in_int128 (PI.vy q) = true ->
  in_int128 (PI.vz q) = true ->
  kick_particle s dt p q = Some q' -> q' = q.
Proof.
  intros (Hax & Hay & Haz) Hx Hy Hz
    (dx & dy & dz & Hdx & Hdy & Hdz & ->)%kick_particle_Some.
  simpl in *. apply zero_or_nan_of_zero in Hax, Hay, Haz.
  rewrite (int128_of_zero_or_nan _ _ (fmul_zero_or_nan_r _ _ Hax) Hdx),
    (int128_of_zero_or_nan _ _ (fmul_zero_or_nan_r _ _ Hay) Hdy),
    (int128_of_zero_or_nan _ _ (fmul_zero_or_nan_r _ _ Haz) Hdz).
  rewrite !add128_0 by done. by destruct q.
Qed.

Lemma leapfrog_free (r : reb_simulation) (dt : double) (r' : reb_simulation)
    (i : nat) (q q' : reb_particle_int) :
  Forall wf_particle_int (shadow r) ->
  leapfrog accel r dt = Some r' ->
  i < Sim.N r ->
  shadow r !! i = Some q -> shadow r' !! i = Some q' ->
  velocity q' = velocity q ∧
  ∃ dx dy dz,
    int128_of_double (fmul (fdiv dt two) (double_of_int128 (PI.vx q))) = Some dx ∧
    int128_of_double (fmul (fdiv dt two) (double_of_int128 (PI.vy q))) = Some dy ∧
    int128_of_double (fmul (fdiv dt two) (double_of_int128 (PI.vz q))) = Some dz ∧
    PI.x q' = add128 (add128 (PI.x q) dx) dx ∧
    PI.y q' = add128 (add128 (PI.y q) dy) dy ∧
    PI.z q' = add128 (add128 (PI.z q) dz) dz.
Proof.
  intros Hwf (rf & Hrf & Hr')%leapfrog_Some Hi Hq Hq'.
  apply leapfrog_before_force_Some in Hrf as (psi1 & ps1 & Hd1 & Hps1 & ->).
  apply leapfrog_from_force_Some in Hr'
    as (ps2 & psi2 & psi3 & Ha & Hk & Hd2 & ->).
  unfold shadow in *. simpl in *.
  rewrite store_back_store_back in Hq'.
  pose proof (prefix_updated_length _ _ _ _ Hd1) as L1.
  rewrite deref_store_back in Hk by done.
  pose proof (prefix_updated_length _ _ _ _ Hk) as L2.
  pose proof (prefix_updated_length _ _ _ _ Hd2) as L3.
  rewrite deref_store_back in Hq' by congruence.
  destruct (prefix_updated_lookup _ _ _ _ _ _ Hd1 Hi Hq) as (q1 & Hq1 & Hdr1).
  destruct (prefix_updated_lookup _ _ _ _ _ _ Hk Hi Hq1)
    as (q2 & Hq2 & p & Hp & Hkick).
  destruct (prefix_updated_lookup _ _ _ _ _ _ Hd2 Hi Hq2) as (q3 & Hq3 & Hdr2).
  assert (q3 = q') as -> by congruence.
  pose proof (Forall_lookup_1 _ _ _ _ Hwf Hq) as (_ & _ & _ & Hvx & Hvy & Hvz).
  pose proof (drift_particle_in_range _ _ _ Hdr1) as (_ & _ & _ & E1x & E1y & E1z).
  destruct (prefix_updated_lookup_r _ _ _ _ _ _ Ha Hi Hp) as (p1 & _ & ->).
  apply kick_particle_free in Hkick; [| apply accel_free | congruence ..].
  subst q2.
  apply drift_particle_Some in Hdr1 as (dx & dy & dz & Hdx & Hdy & Hdz & ->).
  apply drift_particle_Some in Hdr2 as (ex & ey & ez & Hex & Hey & Hez & ->).
  simpl in *. split; [reflexivity|].
  exists dx, dy, dz. repeat (split; [done|]).
  repeat split; congruence.
Qed.

(** X10.  Without force, and with 128-bit shadow fields, the shadow
    velocities are conserved exactly: a sub-step in which the force
    evaluation returns zero accelerations leaves the velocity of each of
    the first [N] particles as it is and moves each position coordinate
    by twice the integral part of [dt/2] times the velocity; and when
    [allocated_N] equals [N] at entry, the velocities after a whole step
    are those at entry. *)
Theorem free_motion (r : reb_simulation) :
  Forall wf_particle_int (shadow r) ->
  (∀ dt r' i q q',
      leapfrog accel r dt = Some r' -> i < Sim.N r ->
      shadow r !! i = Some q -> shadow r' !! i = Some q' ->
      velocity q' = velocity q ∧
      ∃ dx dy dz,
        int128_of_double (fmul (fdiv dt two) (double_of_int128 (PI.vx q)))
        = Some dx ∧
        int128_of_double (fmul (fdiv dt two) (double_of_int128 (PI.vy q)))
        = Some dy ∧
        int128_of_double (fmul (fdiv dt two) (double_of_int128 (PI.vz q)))
        = Some dz ∧
        PI.x q' = add128 (add128 (PI.x q) dx) dx ∧
        PI.y q' = add128 (add128 (PI.y q) dy) dy ∧
        PI.z q' = add128 (add128 (PI.z q) dz) dz)
  ∧ (∀ r1, Janus.allocated_N (Sim.ri_janus r) = Sim.N r ->
       reb_integrator_janus_part1 accel o r = Some r1 ->
       velocity <$> shadow r1 = velocity <$> shadow r).
Proof.
  intros Hwf. split.
  - intros dt r' i q q' Hlf Hi Hq Hq'. by eapply leapfrog_free.
  - intros r1 HaN (r0 & H0 & Hsteps)%part1_Some.
    apply part1_allocate_Some in H0 as [[_ ->]|[[? _]|[? _]]]; [|done|done].
    enough (Hinv : Forall wf_particle_int (shadow r1) ∧
                   Sim.N r1 = Sim.N r ∧
                   velocity <$> shadow r1 = velocity <$> shadow r) by apply Hinv.
    revert Hsteps.
    apply (substeps_preserve accel
             (fun r' => Forall wf_particle_int (shadow r') ∧
                        Sim.N r' = Sim.N r ∧
                        velocity <$> shadow r' = velocity <$> shadow r));
      [|done].
    intros ra d rb (Hwfa & HNa & Hva) Hlf.
    pose proof (leapfrog_frame _ _ _ _ Hlf)
      as (_ & _ & HNb & _ & _ & _ & _ & Hlen & _).
    split; [by eapply leapfrog_wf|]. split; [congruence|].
    rewrite <- Hva. apply list_eq. intros i. rewrite !list_lookup_fmap.
    destruct (shadow ra !! i) as [q|] eqn:Hq.
    + destruct (lookup_lt_is_Some_2 (shadow rb) i) as [q' Hq'].
      { apply lookup_lt_Some in Hq. lia. }
      rewrite Hq'. simpl. f_equal.
      destruct (decide (i < Sim.N ra)) as [Hi|Hi].
      * by destruct (leapfrog_free ra d rb i q q' Hwfa Hlf Hi Hq Hq').
      * apply leapfrog_Some in Hlf as (rf & Hrf & Hr').
        apply leapfrog_before_force_Some in Hrf as (psi1 & ps1 & Hd1 & _ & ->).
        apply leapfrog_from_force_Some in Hr'
          as (ps2 & psi2 & psi3 & _ & Hk & Hd2 & ->).
        unfold shadow in *. simpl in *.
        rewrite store_back_store_back in Hq'.
        pose proof (prefix_updated_length _ _ _ _ Hd1) as L1.
        rewrite deref_store_back in Hk by done.
        pose proof (prefix_updated_length _ _ _ _ Hk) as L2.
        pose proof (prefix_updated_length _ _ _ _ Hd2) as L3.
        rewrite deref_store_back in Hq' by congruence.
        rewrite (prefix_updated_lookup_ge _ _ _ _ _ Hd2),
          (prefix_updated_lookup_ge _ _ _ _ _ Hk),
          (prefix_updated_lookup_ge _ _ _ _ _ Hd1) in Hq' by lia.
        congruence.
    + apply lookup_ge_None in Hq.
      rewrite (proj2 (lookup_ge_None _ _)) by lia. done.
Qed.
End FreeMotion.

(** ** The conversion to doubles and back *)

Lemma to_int_to_double_particle (k : Z) (q q0 : reb_particle_int)
    (p : reb_particle) :
  (0 <= k <= 1022)%Z -> small_particle_int q ->
  to_int_particle (to_double_particle q (pow2_double k) p) (pow2_double k) q0
  = Some q.
Proof.
  intros Hk Hq. apply to_int_particle_Some.
  destruct q as [x y z vx vy vz]. unfold small_particle_int, int_coords in Hq.
  simpl in Hq.
  repeat match goal with
         | H : Forall _ (_ :: _) |- _ => apply Forall_cons_1 in H as [? H]
         end.
  exists x, y, z, vx, vy, vz. simpl.
  rewrite !pow2_round_trip by done. done.
Qed.

(** [to_int] after [to_double]: the first [N] elements are those of the
    array that was converted to doubles. *)
Lemma to_int_to_double (k : Z) (N : nat) (ps ps' : list reb_particle)
    (psi psi0 : list reb_particle_int) :
  (0 <= k <= 1022)%Z ->
  Forall small_particle_int (take N psi) ->
  N ≤ length psi0 ->
  to_double ps psi N (pow2_double k) = Some ps' ->
  to_int psi0 ps' N (pow2_double k) = Some (take N psi ++ drop N psi0).
Proof.
  intros Hk Hsmall Hlen0 Hd.
  pose proof (proj1 (to_double_defined ps psi N (pow2_double k))
                (mk_is_Some _ _ Hd)) as [Hps Hpsi].
  apply to_double_Some in Hd.
  apply to_int_Some. split; [|split; [done|split]].
  - rewrite length_app, length_take, length_drop. lia.
  - intros i a Hi Ha.
    destruct (lookup_lt_is_Some_2 psi i ltac:(lia)) as [q Hq].
    destruct (lookup_lt_is_Some_2 ps i ltac:(lia)) as [p Hp].
    destruct (prefix_updated_lookup _ _ _ _ _ _ Hd Hi Hp)
      as (p' & Hp' & q' & Hq' & ->).
    assert (q' = q) as -> by congruence.
    exists q. split.
    + rewrite lookup_app_l by (rewrite length_take; lia).
      rewrite lookup_take_lt by done. done.
    + exists (to_double_particle q (pow2_double k) p). split; [done|].
      apply to_int_to_double_particle; [done|].
      apply (Forall_lookup_1 _ _ i q Hsmall).
      rewrite lookup_take_lt by done. done.
  - intros i Hi.
    rewrite lookup_app_r by (rewrite length_take; lia).
    rewrite length_take, lookup_drop. f_equal. lia.
Qed.

(** X11.  With a power of two for scale and shadow fields below 2^53 in
    magnitude, the conversion to doubles loses nothing: [to_int] after
    [to_double], with the same count and scale, gives back the shadow
    array it started from, bit for bit. *)
Theorem to_int_after_to_double (k : Z) (N : nat) (ps ps' : list reb_particle)
    (psi : list reb_particle_int) :
  (0 <= k <= 1022)%Z ->
  Forall small_particle_int (take N psi) ->
  to_double ps psi N (pow2_double k) = Some ps' ->
  to_int psi ps' N (pow2_double k) = Some psi.
Proof.
  intros Hk Hsmall Hd.
  pose proof (proj1 (to_double_defined ps psi N (pow2_double k))
                (mk_is_Some _ _ Hd)) as [_ Hpsi].
  rewrite (to_int_to_double k N ps ps' psi psi Hk Hsmall Hpsi Hd).
  by rewrite take_drop.
Qed.

(** X12.  Resetting the integrator between two steps does not change the
    trajectory, under the same conditions and when the reallocation
    succeeds: after [part2], the allocation step of [part1] on the reset
    simulation rebuilds from the doubles the very shadow state that
    [reset] discarded, so the next step runs from the same state with or
    without the reset. *)
Theorem reset_between_steps (k : Z) (o : realloc_outcome)
    (r : reb_simulation) :
  (0 <= k <= 1022)%Z ->
  Janus.scale (Sim.ri_janus r) = pow2_double k ->
  0 < Sim.N r ->
  Janus.allocated_N (Sim.ri_janus r) = Sim.N r ->
  length (shadow r) = Sim.N r ->
  Sim.N r ≤ length (Sim.particles r) ->
  Forall small_particle_int (shadow r) ->
  ∃ r2, reb_integrator_janus_part2 r = Some r2 ∧
        part1_allocate returns_block (reb_integrator_janus_reset r2)
        = part1_allocate o r2 ∧
        ∀ accel,
          reb_integrator_janus_part1 accel returns_block
            (reb_integrator_janus_reset r2)
          = reb_integrator_janus_part1 accel o r2.
Proof.
  intros Hk Hs HN HaN Hlen Hps Hsmall.
  destruct r as [t dt N ps g [s aN pc]]. unfold shadow in *. simpl in *.
  subst s aN.
  destruct pc as [psi|]; simpl in *; [|lia].
  destruct (to_double_total ps psi N (pow2_double k) Hps ltac:(lia))
    as [ps' Hd].
  assert (Halloc :
    part1_allocate returns_block
      (reb_integrator_janus_reset
         (Sim.mk (fadd t dt) dt N ps' g (Janus.mk (pow2_double k) N (Some psi))))
    = part1_allocate o
        (Sim.mk (fadd t dt) dt N ps' g (Janus.mk (pow2_double k) N (Some psi)))).
  { unfold part1_allocate, reb_integrator_janus_reset, with_p_curr. simpl.
    repeat case_decide; try lia; try done. simpl.
    rewrite (to_int_to_double k N ps ps' psi _ Hk); [| |by rewrite length_resize|done].
    - simpl. rewrite drop_ge by (rewrite length_resize; lia).
      rewrite app_nil_r, take_ge by lia. done.
    - rewrite take_ge by lia. done. }
  exists (Sim.mk (fadd t dt) dt N ps' g
            (Janus.mk (pow2_double k) N (Some psi))).
  split.
  - unfold reb_integrator_janus_part2. simpl. rewrite Hd. simpl. reflexivity.
  - split; [exact Halloc|].
    intros accel. unfold reb_integrator_janus_part1. rewrite Halloc. done.
Qed.

(** ** A timestep that is not a number *)

Lemma fdiv_two_nonfinite (a : double) :
  is_finite a = false -> is_finite (fdiv a two) = false.
Proof. by destruct a. Qed.

Lemma fmul_nonfinite_l (a b : double) :
  is_finite a = false -> is_finite (fmul a b) = false.
Proof. by destruct a, b. Qed.

Lemma fmul_nonfinite_r (a b : double) :
  is_finite b = false -> is_finite (fmul a b) = false.
Proof. by destruct a, b. Qed.

Lemma int128_of_double_nonfinite (f : double) :
  is_finite f = false -> int128_of_double f = None.
Proof. by destruct f. Qed.

Lemma drift_particle_nonfinite (dt : double) (q : reb_particle_int) :
  is_finite dt = false -> drift_particle dt q = None.
Proof.
  intros H. unfold drift_particle.
  rewrite (int128_of_double_nonfinite
             (fmul (fdiv dt two) (double_of_int128 (PI.vx q))))
    by by apply fmul_nonfinite_l, fdiv_two_nonfinite.
  done.
Qed.

Lemma drift_nonfinite (N : nat) (dt : double) (psi : list reb_particle_int) :
  0 < N -> is_finite dt = false -> drift N dt psi = None.
Proof.
  intros HN Hdt. destruct (drift N dt psi) as [psi'|] eqn:E; [|done].
  apply drift_Some in E.
  pose proof (prefix_updated_bound _ _ _ _ E) as Hlen.
  destruct (lookup_lt_is_Some_2 psi 0 ltac:(lia)) as [q Hq].
  destruct (prefix_updated_lookup _ _ _ _ _ _ E HN Hq) as (q' & _ & Hd).
  unfold drift_rel in Hd. by rewrite drift_particle_nonfinite in Hd.
Qed.

Section NonFinite.
Variable accel : reb_simulation -> nat -> double * double * double.
Variable o : realloc_outcome.

Lemma leapfrog_nonfinite (r : reb_simulation) (dt : double) :
  0 < Sim.N r -> is_finite dt = false -> leapfrog accel r dt = None.
Proof.
  intros HN Hdt.
  unfold leapfrog, leapfrog_before_force, with_p_curr.
  by rewrite drift_nonfinite.
Qed.

(** X13.  A timestep that is infinite or not a number makes a sub-step,
    and so the first half of a step, undefined as soon as there is a
    particle: the first position increment is the conversion of a double
    that is not finite to [__int128]. *)
Theorem nonfinite_timestep (r : reb_simulation) (dt : double) :
  0 < Sim.N r ->
  (is_finite dt = false -> leapfrog accel r dt = None)
  ∧ (is_finite (Sim.dt r) = false ->
     reb_integrator_janus_part1 accel o r = None).
Proof.
  intros HN. split; [by apply leapfrog_nonfinite|].
  intros Hdt. unfold reb_integrator_janus_part1.
  destruct (part1_allocate o r) as [r0|] eqn:E; [|done].
  apply part1_allocate_frame in E as (_ & Hdt0 & HN0 & _).
  unfold mbind, option_bind. cbv beta iota.
  rewrite (leapfrog_nonfinite r0 (fmul gamma1 (Sim.dt r0))); [done|lia|].
  apply fmul_nonfinite_r. by rewrite Hdt0.
Qed.

End NonFinite.

(** ** The floating-point view *)

Lemma to_double_particle_idemp (q : reb_particle_int) (s : double)
    (p : reb_particle) :
  to_double_particle q s (to_double_particle q s p) = to_double_particle q s p.
Proof. reflexivity. Qed.

Lemma to_double_idemp (ps ps' : list reb_particle)
    (psi : list reb_particle_int) (N : nat) (s : double) :
  to_double ps psi N s = Some ps' -> to_double ps' psi N s = Some ps'.
Proof.
  intros H%to_double_Some. apply to_double_Some.
  pose proof (prefix_updated_length _ _ _ _ H) as Hlen.
  pose proof (prefix_updated_bound _ _ _ _ H) as Hb.
  split; [done|]. split; [lia|]. split; [|done].
  intros i p' Hi Hp'.
  destruct (prefix_updated_lookup_r _ _ _ _ _ _ H Hi Hp')
    as (p & _ & q & Hq & ->).
  exists (to_double_particle q s p). split; [done|].
  exists q. split; [done|]. by rewrite to_double_particle_idemp.
Qed.

(** X14.  The floating-point coordinates after [part2] are a function of
    the shadow state: calling [reb_integrator_janus_part2] a second time
    advances the clock once more and changes nothing else. *)
Theorem part2_twice (r r2 : reb_simulation) :
  reb_integrator_janus_part2 r = Some r2 ->
  reb_integrator_janus_part2 r2
  = Some (Sim.set_t (fadd (Sim.t r2) (Sim.dt r2)) r2).
Proof.
  unfold reb_integrator_janus_part2.
  destruct (to_double (Sim.particles r) _ _ _) as [ps'|] eqn:E;
    [|discriminate].
  simpl. intros [= <-]. simpl.
  rewrite (to_double_idemp _ _ _ _ _ E). reflexivity.
Qed.

Lemma nonfinite_timestep_witness :
  0 < Sim.N Ex.r_ready
  ∧ leapfrog Ex.harmonic Ex.r_ready S754_nan = None
  ∧ reb_integrator_janus_part1 Ex.harmonic returns_block ExMore.r_infinite = None.
Proof.
  assert (H : 0 < Sim.N Ex.r_ready) by (simpl; lia).
  split; [exact H|]. split.
  - exact (proj1 (nonfinite_timestep Ex.harmonic returns_block Ex.r_ready S754_nan H)
             eq_refl).
  - exact (proj2 (nonfinite_timestep Ex.harmonic returns_block ExMore.r_infinite Ex.half H)
             eq_refl).
Defined.

Lemma part2_twice_witness :
  reb_integrator_janus_part2 ExRun.part1 = Some ExRun.part2
  ∧ reb_integrator_janus_part2 ExRun.part2
    = Some (Sim.set_t (fadd (Sim.t ExRun.part2) (Sim.dt ExRun.part2))
              ExRun.part2).
Proof.
  assert (H : reb_integrator_janus_part2 ExRun.part1 = Some ExRun.part2)
    by (vm_compute; reflexivity).
  split; [exact H|].
  exact (part2_twice ExRun.part1 ExRun.part2 H).
Defined.

(** ** The further properties at concrete simulations *)

Lemma harmonic_positions_only : positions_only Ex.harmonic.
Proof.
  intros r r' HN Hps i Hi. unfold Ex.harmonic.
  apply (f_equal (fun l => l !! i)) in Hps.
  rewrite !list_lookup_fmap, <- HN, !lookup_take_lt in Hps by done.
  destruct (Sim.particles r !! i) as [p|], (Sim.particles r' !! i) as [p'|];
    simpl in Hps; try discriminate; [|reflexivity].
  injection Hps as -> -> -> _. reflexivity.
Qed.

Lemma free_zero_acceleration : ∀ r i, zero_acceleration (Ex.free r i).
Proof. intros r i. repeat split. Qed.

Lemma part2_defined_iff_witness :
  is_Some (reb_integrator_janus_part2 Ex.r_ready)
  ∧ ¬ is_Some (reb_integrator_janus_part2 Ex.r_fresh).
Proof.
  split.
  - apply (proj1 (part2_defined_iff Ex.r_ready)). simpl. lia.
  - intros H.
    apply (proj2 (part2_defined_iff Ex.r_fresh) eq_refl) in H.
    discriminate H.
Defined.

Lemma leapfrog_out_of_bounds_witness :
  leapfrog Ex.harmonic Ex.r_fresh Ex.half = None
  ∧ reb_integrator_janus_part1 Ex.harmonic returns_block ExMore.r_dangling = None.
Proof.
  destruct (leapfrog_out_of_bounds Ex.harmonic returns_block Ex.r_fresh Ex.half)
    as (_ & H1 & _).
  destruct (leapfrog_out_of_bounds Ex.harmonic returns_block ExMore.r_dangling Ex.half)
    as (_ & _ & H2).
  split.
  - apply H1; [reflexivity | simpl; lia].
  - apply H2; [reflexivity | left; simpl; lia].
Defined.

Lemma to_int_spec_witness :
  to_int [PI.indeterminate] [Ex.p_orbit] 1 Ex.scale30
  = Some [PI.mk 1073741824 0 0 0 536870912 0]
  ∧ Forall2 (fun c n =>
               is_finite (fmul c Ex.scale30) = true ∧ in_int128 n = true ∧
               truncated_toward_zero (SF2Q (fmul c Ex.scale30)) n)
      (coords Ex.p_orbit) (int_coords (PI.mk 1073741824 0 0 0 536870912 0)).
Proof.
  assert (H : to_int [PI.indeterminate] [Ex.p_orbit] 1 Ex.scale30
              = Some [PI.mk 1073741824 0 0 0 536870912 0])
    by (vm_compute; reflexivity).
  split; [exact H|].
  apply (proj2 (to_int_spec [PI.indeterminate] [Ex.p_orbit] 1 Ex.scale30
                  [PI.mk 1073741824 0 0 0 536870912 0]) H 0);
    [lia | reflexivity | reflexivity].
Defined.

Lemma part1_frame_witness :
  reb_integrator_janus_part1 Ex.harmonic returns_block Ex.r_fresh = Some ExRun.part1
  ∧ Sim.t ExRun.part1 = Sim.t Ex.r_fresh
  ∧ Sim.gravity_ignore_terms ExRun.part1 = 0%Z
  ∧ Janus.allocated_N (Sim.ri_janus ExRun.part1) = Sim.N Ex.r_fresh.
Proof.
  assert (H : reb_integrator_janus_part1 Ex.harmonic returns_block Ex.r_fresh
              = Some ExRun.part1) by (vm_compute; reflexivity).
  destruct (part1_frame Ex.harmonic returns_block Ex.r_fresh ExRun.part1 H)
    as (Ht & _ & _ & _ & Hg & Ha & _).
  exact (conj H (conj Ht (conj Hg Ha))).
Defined.

Lemma empty_simulation_witness :
  (Sim.N ExMore.r_empty = 0
   ∧ Janus.allocated_N (Sim.ri_janus ExMore.r_empty) = 0)
  ∧ leapfrog Ex.harmonic ExMore.r_empty Ex.half
    = Some (Sim.set_gravity_ignore_terms 0 ExMore.r_empty)
  ∧ reb_integrator_janus_part1 Ex.harmonic returns_block ExMore.r_empty
    = Some (Sim.set_gravity_ignore_terms 0 ExMore.r_empty)
  ∧ reb_integrator_janus_part2 ExMore.r_empty
    = Some (Sim.set_t (fadd Ex.zero Ex.half) ExMore.r_empty).
Proof.
  destruct (empty_simulation Ex.harmonic returns_block ExMore.r_empty Ex.half eq_refl)
    as (H1 & H2 & H3).
  split; [exact (conj eq_refl eq_refl)|].
  exact (conj H1 (conj (H2 eq_refl) H3)).
Defined.

Lemma reinitialization_ignores_stale_state_witness :
  (0 < Sim.N Ex.r_fresh
   ∧ Janus.allocated_N (Sim.ri_janus Ex.r_fresh) ≠ Sim.N Ex.r_fresh
   ∧ 5 ≠ Sim.N Ex.r_fresh)
  ∧ part1_allocate returns_block
      (Sim.set_ri_janus (Janus.mk Ex.scale30 5 (Some ExMore.stale)) Ex.r_fresh)
    = part1_allocate returns_block Ex.r_fresh.
Proof.
  assert (H0 : 0 < Sim.N Ex.r_fresh) by (simpl; lia).
  assert (H1 : Janus.allocated_N (Sim.ri_janus Ex.r_fresh) ≠ Sim.N Ex.r_fresh)
    by (simpl; lia).
  assert (H2 : 5 ≠ Sim.N Ex.r_fresh) by (simpl; lia).
  split; [exact (conj H0 (conj H1 H2))|].
  exact (reinitialization_ignores_stale_state returns_block Ex.r_fresh 5
           (Some ExMore.stale) H0 H1 H2).
Defined.

Lemma part1_zero_timestep_witness :
  (is_zero (Sim.dt ExMore.r_frozen) = true
   ∧ Janus.allocated_N (Sim.ri_janus ExMore.r_frozen) = Sim.N ExMore.r_frozen
   ∧ Forall wf_particle_int (shadow ExMore.r_frozen)
   ∧ reb_integrator_janus_part1 Ex.harmonic returns_block ExMore.r_frozen
     = Some ExMore.frozen_part1)
  ∧ Sim.ri_janus ExMore.frozen_part1 = Sim.ri_janus ExMore.r_frozen.
Proof.
  assert (H1 : is_zero (Sim.dt ExMore.r_frozen) = true) by reflexivity.
  assert (H2 : Janus.allocated_N (Sim.ri_janus ExMore.r_frozen)
               = Sim.N ExMore.r_frozen) by reflexivity.
  assert (H3 : Forall wf_particle_int (shadow ExMore.r_frozen))
    by (repeat constructor).
  assert (H4 : reb_integrator_janus_part1 Ex.harmonic returns_block ExMore.r_frozen
               = Some ExMore.frozen_part1) by (vm_compute; reflexivity).
  split; [exact (conj H1 (conj H2 (conj H3 H4)))|].
  exact (part1_zero_timestep Ex.harmonic returns_block ExMore.r_frozen ExMore.frozen_part1
           H1 H2 H3 H4).
Defined.

Lemma part1_at_rest_witness :
  (Forall at_rest (take (Sim.N ExMore.r_rest) (shadow ExMore.r_rest))
   ∧ Janus.allocated_N (Sim.ri_janus ExMore.r_rest) = Sim.N ExMore.r_rest
   ∧ Forall wf_particle_int (shadow ExMore.r_rest)
   ∧ reb_integrator_janus_part1 Ex.free returns_block ExMore.r_rest
     = Some ExMore.rest_part1)
  ∧ Sim.ri_janus ExMore.rest_part1 = Sim.ri_janus ExMore.r_rest.
Proof.
  assert (H1 : Forall at_rest
                 (take (Sim.N ExMore.r_rest) (shadow ExMore.r_rest)))
    by (repeat constructor).
  assert (H2 : Janus.allocated_N (Sim.ri_janus ExMore.r_rest)
               = Sim.N ExMore.r_rest) by reflexivity.
  assert (H3 : Forall wf_particle_int (shadow ExMore.r_rest))
    by (repeat constructor).
  assert (H4 : reb_integrator_janus_part1 Ex.free returns_block ExMore.r_rest
               = Some ExMore.rest_part1) by (vm_compute; reflexivity).
  split; [exact (conj H1 (conj H2 (conj H3 H4)))|].
  exact (part1_at_rest Ex.free returns_block ExMore.r_rest ExMore.rest_part1
           H1 free_zero_acceleration H2 H3 H4).
Defined.

Lemma part1_reversible_witness :
  (Janus.allocated_N (Sim.ri_janus Ex.r_ready) = Sim.N Ex.r_ready
   ∧ Forall wf_particle_int (shadow Ex.r_ready)
   ∧ reb_integrator_janus_part1 Ex.harmonic returns_block Ex.r_ready = Some ExRun.part1
   ∧ same_shadow ExRun.part1 ExMore.turned
   ∧ Sim.dt ExMore.turned = fneg (Sim.dt Ex.r_ready)
   ∧ reb_integrator_janus_part1 Ex.harmonic returns_block ExMore.turned
     = Some ExMore.turned_part1)
  ∧ Sim.ri_janus ExMore.turned_part1 = Sim.ri_janus Ex.r_ready.
Proof.
  assert (H1 : Janus.allocated_N (Sim.ri_janus Ex.r_ready) = Sim.N Ex.r_ready)
    by reflexivity.
  assert (H2 : Forall wf_particle_int (shadow Ex.r_ready))
    by (repeat constructor).
  assert (H3 : reb_integrator_janus_part1 Ex.harmonic returns_block Ex.r_ready
               = Some ExRun.part1) by (vm_compute; reflexivity).
  assert (H4 : same_shadow ExRun.part1 ExMore.turned)
    by (repeat split; reflexivity).
  assert (H5 : Sim.dt ExMore.turned = fneg (Sim.dt Ex.r_ready))
    by reflexivity.
  assert (H6 : reb_integrator_janus_part1 Ex.harmonic returns_block ExMore.turned
               = Some ExMore.turned_part1) by (vm_compute; reflexivity).
  split; [exact (conj H1 (conj H2 (conj H3 (conj H4 (conj H5 H6)))))|].
  exact (part1_reversible Ex.harmonic returns_block returns_block
           harmonic_positions_only Ex.r_ready
           ExRun.part1 ExMore.turned ExMore.turned_part1 H1 H2 H3 H4 H5 H6).
Defined.

Lemma free_motion_witness :
  (Forall wf_particle_int (shadow Ex.r_ready)
   ∧ leapfrog Ex.free Ex.r_ready Ex.half = Some ExMore.free_fwd
   ∧ reb_integrator_janus_part1 Ex.free returns_block Ex.r_ready = Some ExMore.free_part1)
  ∧ velocity <$> shadow ExMore.free_fwd = velocity <$> shadow Ex.r_ready
  ∧ velocity <$> shadow ExMore.free_part1 = velocity <$> shadow Ex.r_ready.
Proof.
  assert (H1 : Forall wf_particle_int (shadow Ex.r_ready))
    by (repeat constructor).
  assert (H2 : leapfrog Ex.free Ex.r_ready Ex.half = Some ExMore.free_fwd)
    by (vm_compute; reflexivity).
  assert (H3 : reb_integrator_janus_part1 Ex.free returns_block Ex.r_ready
               = Some ExMore.free_part1) by (vm_compute; reflexivity).
  split; [exact (conj H1 (conj H2 H3))|].
  destruct (free_motion Ex.free returns_block free_zero_acceleration Ex.r_ready H1)
    as [Hsub Hstep].
  split; [|exact (Hstep ExMore.free_part1 eq_refl H3)].
  pose proof (Hsub Ex.half ExMore.free_fwd 0 _ _ H2 (Nat.lt_0_succ 0)
                eq_refl eq_refl) as [Hv _].
  exact (f_equal (fun v => [v]) Hv).
Defined.

Lemma to_int_after_to_double_witness :
  ((0 <= 30 <= 1022)%Z
   ∧ Forall small_particle_int (take 1 (shadow Ex.r_ready))
   ∧ to_double (Sim.particles Ex.r_ready) (shadow Ex.r_ready) 1
       (pow2_double 30) = Some ExMore.ready_doubles)
  ∧ to_int (shadow Ex.r_ready) ExMore.ready_doubles 1 (pow2_double 30)
    = Some (shadow Ex.r_ready).
Proof.
  assert (H1 : (0 <= 30 <= 1022)%Z) by lia.
  assert (H2 : Forall small_particle_int (take 1 (shadow Ex.r_ready)))
    by (repeat constructor).
  assert (H3 : to_double (Sim.particles Ex.r_ready) (shadow Ex.r_ready) 1
                 (pow2_double 30) = Some ExMore.ready_doubles)
    by (vm_compute; reflexivity).
  split; [exact (conj H1 (conj H2 H3))|].
  exact (to_int_after_to_double 30 1 (Sim.particles Ex.r_ready)
           ExMore.ready_doubles (shadow Ex.r_ready) H1 H2 H3).
Defined.

Lemma reset_between_steps_witness :
  ((0 <= 30 <= 1022)%Z
   ∧ Janus.scale (Sim.ri_janus ExRun.part1) = pow2_double 30
   ∧ 0 < Sim.N ExRun.part1
   ∧ Janus.allocated_N (Sim.ri_janus ExRun.part1) = Sim.N ExRun.part1
   ∧ length (shadow ExRun.part1) = Sim.N ExRun.part1
   ∧ Sim.N ExRun.part1 ≤ length (Sim.particles ExRun.part1)
   ∧ Forall small_particle_int (shadow ExRun.part1))
  ∧ ∃ r2, reb_integrator_janus_part2 ExRun.part1 = Some r2 ∧
          part1_allocate returns_block (reb_integrator_janus_reset r2)
          = part1_allocate returns_null r2 ∧
          ∀ accel,
            reb_integrator_janus_part1 accel returns_block
              (reb_integrator_janus_reset r2)
            = reb_integrator_janus_part1 accel returns_null r2.
Proof.
  assert (H1 : (0 <= 30 <= 1022)%Z) by lia.
  assert (H2 : Janus.scale (Sim.ri_janus ExRun.part1) = pow2_double 30)
    by reflexivity.
  assert (H3 : 0 < Sim.N ExRun.part1) by (simpl; lia).
  assert (H4 : Janus.allocated_N (Sim.ri_janus ExRun.part1)
               = Sim.N ExRun.part1) by reflexivity.
  assert (H5 : length (shadow ExRun.part1) = Sim.N ExRun.part1)
    by reflexivity.
  assert (H6 : Sim.N ExRun.part1 ≤ length (Sim.particles ExRun.part1))
    by (simpl; lia).
  assert (H7 : Forall small_particle_int (shadow ExRun.part1))
    by (repeat constructor).
  split; [exact (conj H1 (conj H2 (conj H3 (conj H4 (conj H5 (conj H6 H7))))))|].
  exact (reset_between_steps 30 returns_null ExRun.part1 H1 H2 H3 H4 H5 H6 H7).
Defined.
